(** * click-align: alignment propagation and Align insertion

    A shallow embedding of [tools/click-align/click-align.cc]: the
    propagation engine [RouterAlign] (flat port vectors, the forward and the
    backward pass) and the rewriting phases of [main] (insertion of required
    Align elements, removal of duplicate and redundant ones, the
    AlignmentInfo element), with the properties of the specification proved
    or refuted on it.

    The headers the file includes ([alignment.hh], [alignclass.hh],
    [routert.hh], [elementmap.hh]) are not part of the sources at hand; what
    the program needs of them is modelled from the specification and marked
    as such. *)

From Stdlib Require Import ZArith Lia Bool Ascii String.
From Stdlib Require Import DecimalString DecimalZ DecimalPos.
From stdpp Require Import base list strings.

Open Scope Z_scope.
Open Scope nat_scope.

(* ===================================================================== *)
(** * Alignments *)
(* ===================================================================== *)

(** Modelled from the spec: the class [Alignment] of [alignment.hh] is
    missing.  Section 3 of the specification: an alignment is a constraint
    "address = offset (mod chunk)"; there is a distinguished bad value, and
    "the engine treats chunk<2 as bad".  Equality is structural. *)
Record Alignment := mkAlignment { chunk : Z; offset : Z }.

#[global] Instance Alignment_eq_dec : EqDecision Alignment.
Proof. solve_decision. Defined.

(** Modelled from the spec: the default constructor [Alignment()], the
    value every port starts from ("Initial state: all ports bad"). *)
Definition Alignment_default : Alignment := mkAlignment 0 0.

(** Modelled from the spec: [a.bad()]. *)
Definition bad (a : Alignment) : bool := (chunk a <? 2)%Z.

(** An alignment as the spec describes the good ones: offset in [0, chunk). *)
Definition Alignment_wf (a : Alignment) : Prop :=
  (2 <= chunk a)%Z /\ (0 <= offset a < chunk a)%Z.

(** Modelled from the spec: [have <= want], "true if want is bad, or if have
    is not bad and have.chunk is a multiple of want.chunk and
    have.offset mod want.chunk == want.offset". *)
Definition compatible (have want : Alignment) : bool :=
  bad want
  || (negb (bad have)
      && (chunk have mod chunk want =? 0)%Z
      && (offset have mod chunk want =? offset want)%Z).

(** [a != b] *)
Definition Alignment_ne (a b : Alignment) : bool := negb (bool_decide (a = b)).

(** Halving of the chunk until the two offsets agree modulo it. *)
Fixpoint weaken_chunk (fuel : nat) (c oa ob : Z) : Z :=
  match fuel with
  | O => 0%Z
  | S f =>
      if (c <? 2)%Z then 0%Z
      else if (oa mod c =? ob mod c)%Z then c
      else weaken_chunk f (c / 2)%Z oa ob
  end.

(** Modelled from the spec: [a |= b], the join of two guarantees.  A join
    started from bad takes the other operand (and the operation is
    commutative, section 8); otherwise the chunk is shrunk from the common
    divisor by halving until both offsets agree, and a chunk below 2 is bad. *)
Definition weaken (a b : Alignment) : Alignment :=
  if bad a then b
  else if bad b then a
  else
    let c := weaken_chunk (Z.to_nat (chunk a))
               (Z.gcd (chunk a) (chunk b)) (offset a) (offset b) in
    if (c <? 2)%Z then Alignment_default
    else mkAlignment c (offset a mod c)%Z.

(** Modelled from the spec: [a &= b], the meet of two requirements; bad is
    "no requirement", and two requirements whose offsets disagree at the
    smaller chunk have no common refinement. *)
Definition strengthen (a b : Alignment) : Alignment :=
  if bad a then b
  else if bad b then a
  else if (chunk b <=? chunk a)%Z then
    (if (offset a mod chunk b =? offset b)%Z then a else Alignment_default)
  else
    (if (offset b mod chunk a =? offset a)%Z then b else Alignment_default).

(* ===================================================================== *)
(** * Strings of integers and synthetic names *)
(* ===================================================================== *)

(** [String(int)]: the decimal text of an integer. *)
Definition String_of_int (n : Z) : string :=
  NilZero.string_of_int (Z.to_int n).

(** [aligner_name] (click-align.cc, 339-343). *)
Definition aligner_name (anonymizer : Z) : string :=
  "Align@click_align@" +:+ String_of_int anonymizer.

(* ===================================================================== *)
(** * The router graph *)
(* ===================================================================== *)

(** Modelled from the spec: [routert.hh] is missing.  Section 3: "elements
    (nodes) with an ordered list of input ports and output ports, and
    connections (directed edges) from an (element, output-port-index) pair
    to an (element, input-port-index) pair.  A connection may be marked
    dead".  Elements are named by their index in the router ([eindex]). *)
Record PortT := mkPortT { p_eindex : nat; p_port : nat }.

#[global] Instance PortT_eq_dec : EqDecision PortT.
Proof. solve_decision. Defined.

Record ConnectionT := mkConnectionT {
  c_live : bool;
  c_from : PortT;
  c_to : PortT
}.

#[global] Instance ConnectionT_eq_dec : EqDecision ConnectionT.
Proof. solve_decision. Defined.

(** An element: its name, the name of its class (two elements have the same
    [type()] exactly when the class names agree), its configuration text and
    whether it is live ([kill()] marks it dead). *)
Record ElementT := mkElementT {
  e_name : string;
  e_type : string;
  e_configuration : string;
  e_live : bool
}.

#[global] Instance ElementT_eq_dec : EqDecision ElementT.
Proof. solve_decision. Defined.

Record RouterT := mkRouterT {
  r_elements : list ElementT;
  r_conn : list ConnectionT
}.

Definition nelements (r : RouterT) : nat := length (r_elements r).

Definition PortT_eqb (p q : PortT) : bool := bool_decide (p = q).

(** The class name of element [i] ([etype_name], [type()]); the empty name
    when there is no such element. *)
Definition etype_name (r : RouterT) (i : nat) : string :=
  match r_elements r !! i with
  | Some e => e_type e
  | None => EmptyString
  end.

(** Modelled from the spec: "enumerate elements and their input/output port
    counts".  The ports of an element are the ones its live connections use:
    phase 5 relies on an adjuster whose connections were dropped having no
    input left. *)
Definition ninputs (r : RouterT) (e : nat) : nat :=
  foldr (fun c n =>
           if c_live c && bool_decide (p_eindex (c_to c) = e)
           then Nat.max (S (p_port (c_to c))) n else n)
        0 (r_conn r).

Definition noutputs (r : RouterT) (e : nat) : nat :=
  foldr (fun c n =>
           if c_live c && bool_decide (p_eindex (c_from c) = e)
           then Nat.max (S (p_port (c_from c))) n else n)
        0 (r_conn r).

(** Position of the first element satisfying [f]. *)
Fixpoint find_index {A} (f : A -> bool) (l : list A) : option nat :=
  match l with
  | [] => None
  | x :: l' => if f x then Some 0 else S <$> find_index f l'
  end.

(** Modelled from the spec: [router->eindex(name)], the index of the element
    of that name, or -1. *)
Definition eindex (r : RouterT) (name : string) : Z :=
  match find_index (fun e => bool_decide (e_name e = name)) (r_elements r) with
  | Some i => Z.of_nat i
  | None => (-1)%Z
  end.

(** Modelled from the spec: "insert a new element of a given type and
    configuration text, unconnected".  The new element comes last; the
    function returns its index with the router. *)
Definition get_element (name type config : string) (r : RouterT)
  : RouterT * nat :=
  (mkRouterT (r_elements r ++ [mkElementT name type config true]) (r_conn r),
   nelements r).

(** Modelled from the spec: "add a connection". *)
Definition add_connection (from to : PortT) (r : RouterT) : RouterT :=
  mkRouterT (r_elements r) (r_conn r ++ [mkConnectionT true from to]).

(** Modelled from the spec: "mark a connection dead". *)
Definition kill_connection (i : nat) (r : RouterT) : RouterT :=
  mkRouterT (r_elements r)
    (alter (fun c => mkConnectionT false (c_from c) (c_to c)) i (r_conn r)).

(** Modelled from the spec: "redirect a connection's source or destination
    endpoint". *)
Definition change_connection_to (i : nat) (h : PortT) (r : RouterT) : RouterT :=
  mkRouterT (r_elements r)
    (alter (fun c => mkConnectionT (c_live c) (c_from c) h) i (r_conn r)).

Definition change_connection_from (i : nat) (h : PortT) (r : RouterT) : RouterT :=
  mkRouterT (r_elements r)
    (alter (fun c => mkConnectionT (c_live c) h (c_to c)) i (r_conn r)).

(** Modelled from the spec: "query connections incident to a given port".
    [find_connections_to] gives the output ports connected to an input port,
    [find_connections_from] the input ports an output port feeds. *)
Definition find_connections_to (r : RouterT) (h : PortT) : list PortT :=
  c_from <$> filter (fun c => c_live c = true /\ c_to c = h) (r_conn r).

Definition find_connections_from (r : RouterT) (h : PortT) : list PortT :=
  c_to <$> filter (fun c => c_live c = true /\ c_from c = h) (r_conn r).

(** Modelled from the spec: "splice an element immediately upstream of a
    given port (the original upstream connection now feeds the adjuster,
    whose single output feeds the original port)".  [insert_before(e, h)]
    takes port 0 of [e] on both sides. *)
Definition insert_before (e : nat) (h : PortT) (r : RouterT) : RouterT :=
  add_connection (mkPortT e 0) h
    (mkRouterT (r_elements r)
       ((fun c => if c_live c && PortT_eqb (c_to c) h
                  then mkConnectionT true (c_from c) (mkPortT e 0)
                  else c) <$> r_conn r)).

(** Modelled from the spec: "compact any duplicate connections": of several
    live connections with the same two endpoints only the first stays live. *)
Fixpoint kill_duplicates (seen : list (PortT * PortT)) (l : list ConnectionT)
  : list ConnectionT :=
  match l with
  | [] => []
  | c :: l' =>
      if c_live c then
        if bool_decide ((c_from c, c_to c) ∈ seen)
        then mkConnectionT false (c_from c) (c_to c) :: kill_duplicates seen l'
        else c :: kill_duplicates ((c_from c, c_to c) :: seen) l'
      else c :: kill_duplicates seen l'
  end.

Definition remove_duplicate_connections (r : RouterT) : RouterT :=
  mkRouterT (r_elements r) (kill_duplicates [] (r_conn r)).

(** [x->kill()] on element [i]. *)
Definition kill_element (i : nat) (r : RouterT) : RouterT :=
  mkRouterT
    (alter (fun e => mkElementT (e_name e) (e_type e) (e_configuration e) false)
       i (r_elements r))
    (r_conn r).

Definition element_live (r : RouterT) (i : nat) : bool :=
  match r_elements r !! i with
  | Some e => e_live e
  | None => false
  end.

(** Modelled from the spec: "delete an element and compact dead
    connections".  The live elements keep their order and are renumbered;
    a connection stays when it is live and both its elements are. *)
Definition new_eindex (r : RouterT) (i : nat) : nat :=
  length (filter (fun e => e_live e = true) (take i (r_elements r))).

Definition remove_dead_elements (r : RouterT) : RouterT :=
  mkRouterT
    (filter (fun e => e_live e = true) (r_elements r))
    ((fun c =>
        mkConnectionT true
          (mkPortT (new_eindex r (p_eindex (c_from c))) (p_port (c_from c)))
          (mkPortT (new_eindex r (p_eindex (c_to c))) (p_port (c_to c))))
       <$> filter (fun c => c_live c = true
                          /\ element_live r (p_eindex (c_from c)) = true
                          /\ element_live r (p_eindex (c_to c)) = true)
             (r_conn r)).

(** The connections of a router mention elements of the router only (in the
    program a port holds a pointer to its element). *)
Definition RouterT_wf (r : RouterT) : Prop :=
  forall c, c ∈ r_conn r ->
    p_eindex (c_from c) < nelements r /\ p_eindex (c_to c) < nelements r.

(* ===================================================================== *)
(** * Behaviour rules (aligners) *)
(* ===================================================================== *)

(** Modelled from the spec: the port-dependency pattern of an element class
    ("which output ports' data depends on which input ports"):
    [code i j] holds when output [j] depends on input [i]. *)
Definition FlowCode := nat -> nat -> bool.

(** Modelled from the spec: the metadata of an element class
    ([elementmap.hh] is missing): its port-dependency pattern and the value
    of its flags ([flag_value('A') > 0] marks a class whose correctness
    depends on the alignment of its input). *)
Record Traits := mkTraits {
  flow_code : FlowCode;
  flag_value : ascii -> Z
}.

(** Modelled from the spec: the interface [Aligner] of [alignclass.hh] is
    missing.  Section 4.2: a rule has three operations on the slices of an
    element.  [have_flow] computes the outputs "from current input
    alignments" and overwrites the output slice; [want_flow] computes the
    inputs "from current output requirements" and overwrites the input
    slice; [adjust_flow] relaxes the input slice.  Each takes the slice it
    reads and the number of ports it writes. *)
Record Aligner := mkAligner {
  have_flow : list Alignment -> nat -> FlowCode -> list Alignment;
  want_flow : list Alignment -> nat -> FlowCode -> list Alignment;
  adjust_flow : list Alignment -> list Alignment -> list Alignment
}.

(** Modelled from the spec: the default rule, "treating ports marked as
    depending on each other as sharing the same alignment value and all
    other ports as bad". *)
Definition default_have_flow (ins : list Alignment) (nout : nat)
    (code : FlowCode) : list Alignment :=
  (fun j =>
     foldl (fun acc ia => if code ia.1 j then weaken acc ia.2 else acc)
       Alignment_default (zip (seq 0 (length ins)) ins))
    <$> seq 0 nout.

Definition default_want_flow (outs : list Alignment) (nin : nat)
    (code : FlowCode) : list Alignment :=
  (fun i =>
     foldl (fun acc ja => if code i ja.1 then strengthen acc ja.2 else acc)
       Alignment_default (zip (seq 0 (length outs)) outs))
    <$> seq 0 nin.

Definition default_aligner : Aligner :=
  mkAligner default_have_flow default_want_flow (fun ins _ => ins).

(** An alignment moved by [k] bytes. *)
Definition Alignment_shift (k : Z) (a : Alignment) : Alignment :=
  if bad a then a else mkAlignment (chunk a) ((offset a + k) mod chunk a)%Z.

(** Modelled from the spec: Shifter(k), "output alignment = input alignment
    shifted by constant byte offset k (mod chunk)". *)
Definition ShifterAligner (k : Z) : Aligner :=
  mkAligner
    (fun ins nout code => Alignment_shift k <$> default_have_flow ins nout code)
    (fun outs nin code => Alignment_shift (- k) <$> default_want_flow outs nin code)
    (fun ins _ => ins).

(** Modelled from the spec: Generator(a), "outputs are always exactly
    alignment a"; nothing is required of an input. *)
Definition GeneratorAligner (a : Alignment) : Aligner :=
  mkAligner
    (fun _ nout _ => replicate nout a)
    (fun _ nin _ => replicate nin Alignment_default)
    (fun ins _ => ins).

(** Modelled from the spec: Want(a), "always reports inputs require exactly
    alignment a"; the operations it does not override are the default ones. *)
Definition WantAligner (a : Alignment) : Aligner :=
  mkAligner default_have_flow (fun _ nin _ => replicate nin a) (fun ins _ => ins).

(** Modelled from the spec: Null, "always bad on both have and want". *)
Definition NullAligner : Aligner :=
  mkAligner
    (fun _ nout _ => replicate nout Alignment_default)
    (fun _ nin _ => replicate nin Alignment_default)
    (fun ins _ => ins).

(** Modelled from the spec: Combined(r1, r2), for "an element [that] both
    shifts and then imposes a requirement": what flows forward is computed
    by the first rule, what is required by the second. *)
Definition CombinedAligner (r1 r2 : Aligner) : Aligner :=
  mkAligner (have_flow r1) (want_flow r2) (adjust_flow r2).

(** Modelled from the spec: Classifier-adjust, which "only overrides
    adjust_flow: reports any alignment with chunk >= 4 (at the offset
    already present) as sufficient". *)
Definition ClassifierAligner : Aligner :=
  mkAligner default_have_flow default_want_flow
    (fun ins _ =>
       let a := foldl weaken Alignment_default ins in
       let a' := if (chunk a <? 4)%Z then mkAlignment 4 0 else a in
       replicate (length ins) a').

(** What the program is given besides the router: the table of class
    metadata ([element_map]) and the two classes whose rule depends on the
    element's configuration in a way neither the sources at hand nor the
    specification describe. *)
Record AlignEnv := mkAlignEnv {
  element_map : string -> Traits;
  StripAlignClass_aligner : ElementT -> Aligner;
  CheckIPHeaderAlignClass_aligner : string -> nat -> ElementT -> Aligner
}.

(** The text before and after the first comma. *)
Fixpoint split_at_comma (s : string) : option (string * string) :=
  match s with
  | EmptyString => None
  | String c s' =>
      if Ascii.eqb c "," then Some (EmptyString, s')
      else match split_at_comma s' with
           | Some (l, r) => Some (String c l, r)
           | None => None
           end
  end.

Definition skip_space (s : string) : string :=
  match s with
  | String c s' => if Ascii.eqb c " " then s' else s
  | EmptyString => s
  end.

Definition int_of_String (s : string) : option Z :=
  Z.of_int <$> NilZero.int_of_string s.

(** The configuration "CHUNK, OFFSET" of an Align element. *)
Definition parse_align_config (s : string) : option Alignment :=
  match split_at_comma s with
  | Some (l, r) =>
      match int_of_String l, int_of_String (skip_space r) with
      | Some c, Some o => Some (mkAlignment c o)
      | _, _ => None
      end
  | None => None
  end.

(** Modelled from the spec: [AlignAlignClass] ([alignclass.hh]) is missing.
    An adjuster is "configured to exactly the want value" and phase 4 speaks
    of "the adjuster's own output alignment": its output is the alignment of
    its configuration, whatever comes in.  A configuration that does not
    parse degrades to the default rule (section 7). *)
Definition AlignAlignClass_aligner (e : ElementT) : Aligner :=
  match parse_align_config (e_configuration e) with
  | Some a => GeneratorAligner a
  | None => default_aligner
  end.

(** [class_factory] (click-align.cc, 244-282): the class of a type name,
    given by the function that makes the aligner of an element of the class
    ([create_aligner]). *)
Definition class_factory (env : AlignEnv) (name : string) : ElementT -> Aligner :=
  if bool_decide (name = "Align") then AlignAlignClass_aligner
  else if bool_decide (name = "Strip") then StripAlignClass_aligner env
  else if bool_decide (name = "CheckIPHeader") || bool_decide (name = "CheckIPHeader2")
  then CheckIPHeaderAlignClass_aligner env name 1
  else if bool_decide (name = "MarkIPHeader")
  then CheckIPHeaderAlignClass_aligner env name 0
  else if bool_decide (name = "Classifier") then fun _ => ClassifierAligner
  else if bool_decide (name = "EtherEncap") then fun _ => ShifterAligner (-14)
  else if bool_decide (name = "FromDevice") || bool_decide (name = "PollDevice")
          || bool_decide (name = "FromHost")
          || bool_decide (name = "SR2SetChecksum") || bool_decide (name = "SR2CheckHeader")
          || bool_decide (name = "SetSRChecksum") || bool_decide (name = "CheckSRHeader")
  then fun _ => GeneratorAligner (mkAlignment 4 2)
  else if bool_decide (name = "InfiniteSource") || bool_decide (name = "RatedSource")
          || bool_decide (name = "ICMPError")
  then fun _ => GeneratorAligner (mkAlignment 4 0)
  else if bool_decide (name = "ToHost") then fun _ => WantAligner (mkAlignment 4 2)
  else if bool_decide (name = "IPEncap") || bool_decide (name = "UDPIPEncap")
          || bool_decide (name = "ICMPPingEncap")
          || bool_decide (name = "RandomUDPIPEncap")
          || bool_decide (name = "RoundRobinUDPIPEncap")
          || bool_decide (name = "RoundRobinTCPIPEncap")
  then fun _ => WantAligner (mkAlignment 4 0)
  else if bool_decide (name = "ARPResponder") || bool_decide (name = "ARPQuerier")
  then fun _ => WantAligner (mkAlignment 2 0)
  else if bool_decide (name = "IPInputCombo")
  then fun _ => CombinedAligner (ShifterAligner 14) (WantAligner (mkAlignment 4 2))
  else if bool_decide (name = "GridEncap")
  then fun _ => CombinedAligner (ShifterAligner 98) (WantAligner (mkAlignment 4 0))
  else if bool_decide (name = "Idle") || bool_decide (name = "Discard")
  then fun _ => NullAligner
  else fun _ => default_aligner.

(* ===================================================================== *)
(** * The propagation engine: RouterAlign *)
(* ===================================================================== *)

(** [struct RouterAlign] (click-align.cc, 39-67).  [_router] is a pointer in
    the program; [main] never uses an engine after it has changed the
    router, so the engine carries the router it was made from.  The counts
    and offsets are [int]s that are never negative. *)
Record RouterAlign := mkRouterAlign {
  _router : RouterT;
  _icount : list nat;
  _ocount : list nat;
  _ioffset : list nat;
  _ooffset : list nat;
  _ialign : list Alignment;
  _oalign : list Alignment;
  _aligners : list Aligner
}.

Definition set_ialign (ral : RouterAlign) (v : list Alignment) : RouterAlign :=
  mkRouterAlign (_router ral) (_icount ral) (_ocount ral) (_ioffset ral)
    (_ooffset ral) v (_oalign ral) (_aligners ral).

Definition set_oalign (ral : RouterAlign) (v : list Alignment) : RouterAlign :=
  mkRouterAlign (_router ral) (_icount ral) (_ocount ral) (_ioffset ral)
    (_ooffset ral) (_ialign ral) v (_aligners ral).

(** The offsets pushed by the constructor: the running sum before each
    element, and the total after the last. *)
Fixpoint offsets_from (id : nat) (counts : list nat) : list nat :=
  match counts with
  | [] => [id]
  | c :: cs => id :: offsets_from (id + c) cs
  end.

(** [v[i]] on a vector of integers and on a vector of alignments.  Outside
    the vector the program has no defined behaviour; the model reads 0 and
    the default alignment there.  The passes of the engine index inside the
    vectors when the connections mention elements of the router; the test
    of phase 4 can index outside, and reads with [!!] instead. *)
Definition int_at (v : list nat) (i : nat) : nat := default 0 (v !! i).
Definition align_at (v : list Alignment) (i : nat) : Alignment :=
  default Alignment_default (v !! i).
Definition aligner_at (v : list Aligner) (i : nat) : Aligner :=
  default default_aligner (v !! i).

(** The constructor (click-align.cc, 69-95). *)
Definition RouterAlign_new (env : AlignEnv) (r : RouterT) : RouterAlign :=
  let ne := nelements r in
  let icount := ninputs r <$> seq 0 ne in
  let ocount := noutputs r <$> seq 0 ne in
  let id := foldr Nat.add 0 icount in
  let od := foldr Nat.add 0 ocount in
  mkRouterAlign r icount ocount
    (offsets_from 0 icount) (offsets_from 0 ocount)
    (replicate id Alignment_default) (replicate od Alignment_default)
    ((fun x => if e_live x then class_factory env (e_type x) x
               else default_aligner) <$> r_elements r).

(** The loop shared by the four index functions (click-align.cc, 97-135):
    the first element [i] with [x < offs[i+1]]. *)
Definition first_element_below (offs : list nat) (ne : nat) (x : Z)
  : option nat :=
  List.find (fun i => (x <? Z.of_nat (int_at offs (i + 1)))%Z) (seq 0 ne).

Definition iindex_eindex (ral : RouterAlign) (ii : Z) : Z :=
  match first_element_below (_ioffset ral) (length (_icount ral)) ii with
  | Some i => Z.of_nat i
  | None => (-1)%Z
  end.

Definition iindex_port (ral : RouterAlign) (ii : Z) : Z :=
  match first_element_below (_ioffset ral) (length (_icount ral)) ii with
  | Some i => (ii - Z.of_nat (int_at (_ioffset ral) i))%Z
  | None => (-1)%Z
  end.

Definition oindex_eindex (ral : RouterAlign) (oi : Z) : Z :=
  match first_element_below (_ooffset ral) (length (_icount ral)) oi with
  | Some i => Z.of_nat i
  | None => (-1)%Z
  end.

Definition oindex_port (ral : RouterAlign) (oi : Z) : Z :=
  match first_element_below (_ooffset ral) (length (_icount ral)) oi with
  | Some i => (oi - Z.of_nat (int_at (_ooffset ral) i))%Z
  | None => (-1)%Z
  end.

(** The [n] entries of a vector from [off] on, and their replacement. *)
Definition slice (v : list Alignment) (off n : nat) : list Alignment :=
  take n (drop off v).

Definition write_slice (off n : nat) (vals v : list Alignment)
  : list Alignment :=
  list_inserts off (take n vals) v.

(** [have_output] (click-align.cc, 137-147). *)
Definition have_output (env : AlignEnv) (ral : RouterAlign) : RouterAlign :=
  let ne := length (_icount ral) in
  set_oalign ral
    (foldl (fun oalign i =>
              let t := element_map env (etype_name (_router ral) i) in
              write_slice (int_at (_ooffset ral) i) (int_at (_ocount ral) i)
                (have_flow (aligner_at (_aligners ral) i)
                   (slice (_ialign ral) (int_at (_ioffset ral) i)
                      (int_at (_icount ral) i))
                   (int_at (_ocount ral) i) (flow_code t))
                oalign)
       (_oalign ral) (seq 0 ne)).

(** The comparison loop of [have_input] and [want_output]: is there an
    index below [n] at which the two vectors differ? *)
Definition vectors_differ (n : nat) (new old : list Alignment) : bool :=
  existsb (fun i => Alignment_ne (align_at new i) (align_at old i)) (seq 0 n).

(** [have_input] (click-align.cc, 149-171): the new input vector and whether
    it differs from the old one. *)
Definition have_input (ral : RouterAlign) : bool * RouterAlign :=
  let conn := r_conn (_router ral) in
  let nialign := length (_ialign ral) in
  let new_ialign :=
    foldl (fun new_ialign c =>
             if c_live c then
               let ioff := int_at (_ioffset ral) (p_eindex (c_to c)) + p_port (c_to c) in
               let ooff := int_at (_ooffset ral) (p_eindex (c_from c)) + p_port (c_from c) in
               alter (fun a => weaken a (align_at (_oalign ral) ooff)) ioff new_ialign
             else new_ialign)
      (replicate nialign Alignment_default) conn in
  (vectors_differ nialign new_ialign (_ialign ral), set_ialign ral new_ialign).

(** [want_input] (click-align.cc, 173-183). *)
Definition want_input (env : AlignEnv) (ral : RouterAlign) : RouterAlign :=
  let ne := length (_icount ral) in
  set_ialign ral
    (foldl (fun ialign i =>
              let t := element_map env (etype_name (_router ral) i) in
              write_slice (int_at (_ioffset ral) i) (int_at (_icount ral) i)
                (want_flow (aligner_at (_aligners ral) i)
                   (slice (_oalign ral) (int_at (_ooffset ral) i)
                      (int_at (_ocount ral) i))
                   (int_at (_icount ral) i) (flow_code t))
                ialign)
       (_ialign ral) (seq 0 ne)).

(** [want_output] (click-align.cc, 185-212). *)
Definition want_output (ral : RouterAlign) : bool * RouterAlign :=
  let conn := r_conn (_router ral) in
  let noalign := length (_oalign ral) in
  let new_oalign :=
    foldl (fun new_oalign c =>
             if c_live c then
               let ioff := int_at (_ioffset ral) (p_eindex (c_to c)) + p_port (c_to c) in
               let ooff := int_at (_ooffset ral) (p_eindex (c_from c)) + p_port (c_from c) in
               alter (fun a => strengthen a (align_at (_ialign ral) ioff)) ooff new_oalign
             else new_oalign)
      (replicate noalign Alignment_default) conn in
  (vectors_differ noalign new_oalign (_oalign ral), set_oalign ral new_oalign).

(** [adjust] (click-align.cc, 214-221). *)
Definition adjust (ral : RouterAlign) : RouterAlign :=
  let ne := length (_icount ral) in
  set_ialign ral
    (foldl (fun ialign i =>
              write_slice (int_at (_ioffset ral) i) (int_at (_icount ral) i)
                (adjust_flow (aligner_at (_aligners ral) i)
                   (slice ialign (int_at (_ioffset ral) i) (int_at (_icount ral) i))
                   (slice (_oalign ral) (int_at (_ooffset ral) i)
                      (int_at (_ocount ral) i)))
                ialign)
       (_ialign ral) (seq 0 ne)).

(** One turn of [do { ral.have_output(); } while (ral.have_input());] and of
    [do { want_ral.want_input(); } while (want_ral.want_output());]. *)
Definition forward_pass (env : AlignEnv) (ral : RouterAlign) : bool * RouterAlign :=
  have_input (have_output env ral).

Definition backward_pass (env : AlignEnv) (ral : RouterAlign) : bool * RouterAlign :=
  want_output (want_input env ral).

(** The two loops; [None] when [fuel] turns did not reach a turn without
    change. *)
Fixpoint have_loop (env : AlignEnv) (fuel : nat) (ral : RouterAlign)
  : option RouterAlign :=
  match fuel with
  | O => None
  | S f =>
      let '(changed, ral') := forward_pass env ral in
      if changed then have_loop env f ral' else Some ral'
  end.

Fixpoint want_loop (env : AlignEnv) (fuel : nat) (ral : RouterAlign)
  : option RouterAlign :=
  match fuel with
  | O => None
  | S f =>
      let '(changed, ral') := backward_pass env ral in
      if changed then want_loop env f ral' else Some ral'
  end.

(* ===================================================================== *)
(** * The rewriting phases of [main] *)
(* ===================================================================== *)

(** The router being rewritten with the two counters of [main]. *)
Record Rewrite := mkRewrite {
  rw_router : RouterT;
  rw_anonymizer : Z;
  rw_num_aligns_added : Z
}.

Definition is_class (r : RouterT) (i : nat) (class : string) : bool :=
  bool_decide (etype_name r i = class).

(** [while (router->eindex(aligner_name(anonymizer)) >= 0) anonymizer++;]
    (click-align.cc, 477-478). *)
Fixpoint skip_used_names (fuel : nat) (r : RouterT) (anonymizer : Z) : option Z :=
  match fuel with
  | O => None
  | S f =>
      if (0 <=? eindex r (aligner_name anonymizer))%Z
      then skip_used_names f r (anonymizer + 1)%Z
      else Some anonymizer
  end.

(** The configuration text of an inserted Align:
    [String(want.chunk()) + ", " + String(want.offset())]. *)
Definition align_configuration (want : Alignment) : string :=
  String_of_int (chunk want) +:+ ", " +:+ String_of_int (offset want).

(** The [else] branch of the insertion loops (click-align.cc, 504-512 and
    567-575): a new Align element before port [j] of element [i]. *)
Definition add_align (want : Alignment) (i j : nat) (s : Rewrite) : Rewrite :=
  let '(r1, e) := get_element (aligner_name (rw_anonymizer s)) "Align"
                    (align_configuration want) (rw_router s) in
  mkRewrite (insert_before e (mkPortT i j) r1)
    (rw_anonymizer s + 1)%Z (rw_num_aligns_added s + 1)%Z.

(** The body of the insertion loops at port [j] of element [i]. *)
Definition add_required_align (ral want_ral : RouterAlign) (i j : nat)
    (s : Rewrite) : Rewrite :=
  let have := align_at (_ialign ral) (int_at (_ioffset ral) i + j) in
  let want := align_at (_ialign want_ral) (int_at (_ioffset ral) i + j) in
  if compatible have want || bad want then s
  else add_align want i j s.

(** "add required aligns" (click-align.cc, 497-513 and 560-576). *)
Definition add_required_aligns (ral want_ral : RouterAlign)
    (original_nelements : nat) (s : Rewrite) : Rewrite :=
  foldl (fun s i =>
           foldl (fun s j => add_required_align ral want_ral i j s)
             s (seq 0 (int_at (_icount ral) i)))
    s (seq 0 original_nelements).

(** Phase 1 (click-align.cc, 480-514). *)
Definition add_aligns_for_required (env : AlignEnv) (fuel : nat)
    (original_nelements : nat) (s : Rewrite) : option Rewrite :=
  ral ← have_loop env fuel (RouterAlign_new env (rw_router s));
  want_ral ← want_loop env fuel (RouterAlign_new env (rw_router s));
  Some (add_required_aligns ral want_ral original_nelements s).

Definition conn_at (r : RouterT) (i : nat) : ConnectionT :=
  default (mkConnectionT false (mkPortT 0 0) (mkPortT 0 0)) (r_conn r !! i).

(** The body of the loop of phase 2 at connection [i]
    (click-align.cc, 523-538). *)
Definition remove_duplicate_align (nhook i : nat) (r : RouterT) : RouterT :=
  if c_live (conn_at r i)
     && is_class r (p_eindex (c_to (conn_at r i))) "Align"
     && is_class r (p_eindex (c_from (conn_at r i))) "Align"
  then
    let above := find_connections_to r (c_from (conn_at r i)) in
    let below := find_connections_from r (c_from (conn_at r i)) in
    if bool_decide (length below = 1) then
      foldl (fun r j =>
               if PortT_eqb (c_to (conn_at r j)) (c_from (conn_at r i))
               then change_connection_to j (c_to (conn_at r i)) r
               else r)
        r (seq 0 nhook)
    else if bool_decide (length above = 1) then
      foldl (fun r j =>
               if PortT_eqb (c_to (conn_at r j)) (c_to (conn_at r i))
               then change_connection_from j (default (mkPortT 0 0) (above !! 0)) r
               else r)
        r (seq 0 nhook)
    else r
  else r.

(** Phase 2, "remove duplicate Aligns (Align_1 -> Align_2)"
    (click-align.cc, 516-539). *)
Definition remove_duplicate_aligns (r : RouterT) : RouterT :=
  let nhook := length (r_conn r) in
  foldl (fun r i => remove_duplicate_align nhook i r) r (seq 0 nhook).

(** Phase 3 (click-align.cc, 541-577): the wanted alignments are the
    adjusted ones. *)
Definition add_aligns_for_adjustment (env : AlignEnv) (fuel : nat)
    (original_nelements : nat) (s : Rewrite) : option Rewrite :=
  ral ← have_loop env fuel (RouterAlign_new env (rw_router s));
  let want_ral := adjust ral in
  Some (add_required_aligns ral want_ral original_nelements s).

(** The test of phase 4 on connection [c] (click-align.cc, 592-595): when
    [c] is live and enters an Align, what its source has ([have], line 593)
    is compared with the alignment at the first output slot of that Align
    ([want], line 594).  The second index is the offset of the Align alone:
    it is a slot of the Align only if the Align has an output, and it is
    outside the vector when no element from the Align on has one.  A read
    outside a vector leaves the program without a result; so does the test
    ([None]). *)
Definition redundant (ral : RouterAlign) (r : RouterT) (c : ConnectionT)
  : option bool :=
  if c_live c && is_class r (p_eindex (c_to c)) "Align" then
    from_offset ← _ooffset ral !! p_eindex (c_from c);
    have ← _oalign ral !! (from_offset + p_port (c_from c));
    to_offset ← _ooffset ral !! p_eindex (c_to c);
    want ← _oalign ral !! to_offset;
    Some (compatible have want)
  else Some false.

(** The body of the loop of phase 4 at connection [i]
    (click-align.cc, 592-602), on the router and the flag [changed]. *)
Definition skip_redundant_align (ral : RouterAlign) (i : nat)
    (s : RouterT * bool) : option (RouterT * bool) :=
  let r := s.1 in
  have_le_want ← redundant ral r (conn_at r i);
  if have_le_want : bool then
    let align_dest := find_connections_from r (c_to (conn_at r i)) in
    let r1 := foldl (fun r d => add_connection (c_from (conn_at r i)) d r)
                r align_dest in
    Some (kill_connection i r1, true)
  else Some s.

(** The first [n] turns of the loop "skip redundant Aligns", and the whole
    loop (click-align.cc, 586-603). *)
Definition skip_redundant_aligns_upto (ral : RouterAlign) (n : nat)
    (r : RouterT) : option (RouterT * bool) :=
  foldl (fun s i => s ≫= skip_redundant_align ral i) (Some (r, false))
    (seq 0 n).

Definition skip_redundant_aligns (ral : RouterAlign) (r : RouterT)
  : option (RouterT * bool) :=
  skip_redundant_aligns_upto ral (length (r_conn r)) r.

(** Phase 4, [while (1) { ... }] (click-align.cc, 579-609); [fuel] bounds
    the number of turns, [hfuel] those of each forward loop.  [None] stands
    for a run that gives no router: a read outside a vector, or more turns
    than the bound. *)
Fixpoint remove_redundant_aligns (env : AlignEnv) (hfuel fuel : nat)
    (r : RouterT) : option RouterT :=
  match fuel with
  | O => None
  | S f =>
      ral ← have_loop env hfuel (RouterAlign_new env r);
      s ← skip_redundant_aligns ral r;
      let '(r', changed) := s in
      if changed : bool
      then remove_redundant_aligns env hfuel f (remove_duplicate_connections r')
      else Some r'
  end.

(** The body of the loop of phase 5 at element [i]
    (click-align.cc, 614-620); the iterator visits the live elements. *)
Definition remove_unused_align (i : nat) (s : Rewrite) : Rewrite :=
  let r := rw_router s in
  if element_live r i then
    if is_class r i "Align"
       && (bool_decide (ninputs r i = 0) || bool_decide (noutputs r i = 0))
    then mkRewrite (kill_element i r) (rw_anonymizer s)
           (rw_num_aligns_added s - 1)%Z
    else if is_class r i "AlignmentInfo"
    then mkRewrite (kill_element i r) (rw_anonymizer s) (rw_num_aligns_added s)
    else s
  else s.

(** Phase 5, "remove unused Aligns (they have no input) and old
    AlignmentInfos" (click-align.cc, 611-622). *)
Definition remove_unused_aligns (s : Rewrite) : Rewrite :=
  let s' := foldl (fun s i => remove_unused_align i s) s
              (seq 0 (nelements (rw_router s))) in
  mkRewrite (remove_dead_elements (rw_router s'))
    (rw_anonymizer s') (rw_num_aligns_added s').

(** The text added to the accumulator for element [i]
    (click-align.cc, 636-643). *)
Definition alignment_info_step (env : AlignEnv) (ral : RouterAlign)
    (r : RouterT) (sa : string) (i : nat) : string :=
  match r_elements r !! i with
  | Some x =>
      if e_live x
         && negb (bool_decide (ninputs r i = 0))
         && (0 <? flag_value (element_map env (e_type x)) "A")%Z
      then
        let sa1 := if bool_decide (String.length sa = 0) then sa
                   else sa +:+ String "," (String "010" "  ") in
        let sa2 := sa1 +:+ e_name x in
        foldl (fun sa j =>
                 let a := align_at (_ialign ral) (int_at (_ioffset ral) i + j) in
                 sa +:+ "  " +:+ String_of_int (chunk a) +:+ " "
                    +:+ String_of_int (offset a))
          sa2 (seq 0 (int_at (_icount ral) i))
      else sa
  | None => sa
  end.

(** "collect alignment information" (click-align.cc, 631-645). *)
Definition alignment_info_text (env : AlignEnv) (ral : RouterAlign)
    (r : RouterT) : string :=
  foldl (alignment_info_step env ral r) EmptyString (seq 0 (nelements r)).

(** Phase 6, "make the AlignmentInfo element" (click-align.cc, 624-652). *)
Definition make_alignment_info (env : AlignEnv) (fuel : nat) (r : RouterT)
  : option RouterT :=
  ral ← have_loop env fuel (RouterAlign_new env r);
  let sa := alignment_info_text env ral r in
  if bool_decide (String.length sa = 0) then Some r
  else Some (get_element
               ("AlignmentInfo@click_align@" +:+ String_of_int (Z.of_nat (nelements r) + 1))
               "AlignmentInfo" sa r).1.

(** Phases 1 to 3 of [main] (click-align.cc, 475-577). *)
Definition insert_aligns (env : AlignEnv) (fuel : nat) (router : RouterT)
  : option Rewrite :=
  let original_nelements := nelements router in
  anonymizer ← skip_used_names fuel router (Z.of_nat original_nelements + 1)%Z;
  s1 ← add_aligns_for_required env fuel original_nelements
         (mkRewrite router anonymizer 0);
  let s2 := mkRewrite (remove_duplicate_aligns (rw_router s1))
              (rw_anonymizer s1) (rw_num_aligns_added s1) in
  add_aligns_for_adjustment env fuel original_nelements s2.

(** Phases 1 to 5 of [main] (click-align.cc, 475-622): the router and
    [num_aligns_added]. *)
Definition rewrite_aligns (env : AlignEnv) (fuel : nat) (router : RouterT)
  : option Rewrite :=
  s3 ← insert_aligns env fuel router;
  r4 ← remove_redundant_aligns env fuel fuel (rw_router s3);
  Some (remove_unused_aligns
          (mkRewrite r4 (rw_anonymizer s3) (rw_num_aligns_added s3))).

(** [main] from the point where the router has been read
    (click-align.cc, 472-656): the final router, [num_aligns_added] and
    whether the warning "added %d Align element(s)" is given. *)
Definition click_align (env : AlignEnv) (fuel : nat) (router : RouterT)
  : option (RouterT * Z * bool) :=
  s ← rewrite_aligns env fuel router;
  r6 ← make_alignment_info env fuel (rw_router s);
  Some (r6, rw_num_aligns_added s, (0 <? rw_num_aligns_added s)%Z).

(* ===================================================================== *)
(** * The command line and the driver *)
(* ===================================================================== *)

(** What [Clp_Next] hands to the [switch] of [main] before it returns
    [Clp_Done] (click-align.cc, 363-426): an option of the table [options]
    (click-align.cc, 296-305) or one of the values [Clp_NotOption] and
    [Clp_BadOption] of [clp.h].  The ids of the three driver options are
    [FIRST_DRIVER_OPT] plus the number of the driver, a constant of
    [driver.hh]; [DRIVER_OPT d] is the option of id [FIRST_DRIVER_OPT + d]. *)
Inductive Opt :=
| HELP_OPT
| VERSION_OPT
| ROUTER_OPT
| EXPRESSION_OPT
| OUTPUT_OPT
| DRIVER_OPT (driver : Z)
| Clp_NotOption
| Clp_BadOption.

#[global] Instance Opt_eq_dec : EqDecision Opt.
Proof. solve_decision. Defined.

(** The variables the loop sets: [router_file], [file_is_expr],
    [output_file] (null pointers at first) and [specified_driver]. *)
Record Options := mkOptions {
  router_file : option string;
  file_is_expr : bool;
  output_file : option string;
  specified_driver : Z
}.

Definition Options_initial : Options := mkOptions None false None (-1).

(** What the loop prints itself: [usage()], the version text,
    [short_usage()] and the messages given to [errh->error]. *)
Inductive Printed :=
| usage
| version
| short_usage
| error (msg : string).

(** The loop ends in [exit(status)] or at the label [done]. *)
Inductive Parsed :=
| Exit (status : Z) (printed : list Printed)
| Done (o : Options).

(** The loop over the command line (click-align.cc, 363-426).  [args] are
    the pairs of [opt] and [clp->arg] that [Clp_Next] gives before
    [Clp_Done]; [click_maybe_define] ([toolutils.hh]) says whether a word
    that is no option is a definition rather than a file name. *)
Fixpoint read_options (click_maybe_define : string -> bool)
    (args : list (Opt * string)) (o : Options) : Parsed :=
  match args with
  | [] => Done o
  | (opt, arg) :: args' =>
      let at_router_file :=
        match router_file o with
        | Some _ =>
            Exit 1 [error "router configuration specified twice"; short_usage]
        | None =>
            read_options click_maybe_define args'
              (mkOptions (Some arg) (bool_decide (opt = EXPRESSION_OPT))
                 (output_file o) (specified_driver o))
        end in
      match opt with
      | HELP_OPT => Exit 0 [usage]
      | VERSION_OPT => Exit 0 [version]
      | ROUTER_OPT | EXPRESSION_OPT => at_router_file
      | DRIVER_OPT driver =>
          if (0 <=? specified_driver o)%Z
          then Exit 1 [error "driver specified twice"; short_usage]
          else read_options click_maybe_define args'
                 (mkOptions (router_file o) (file_is_expr o) (output_file o)
                    driver)
      | Clp_NotOption =>
          if click_maybe_define arg
          then read_options click_maybe_define args' o
          else at_router_file
      | OUTPUT_OPT =>
          match output_file o with
          | Some _ => Exit 1 [error "output file specified twice"; short_usage]
          | None =>
              read_options click_maybe_define args'
                (mkOptions (router_file o) (file_is_expr o) (Some arg)
                   (specified_driver o))
          end
      | Clp_BadOption => Exit 1 [short_usage]
      end
  end.

(** The two warnings of "decide on a driver". *)
Inductive Warning :=
| not_compatible_with (driver : Z)
| not_compatible_with_any.

(** "decide on a driver" (click-align.cc, 453-467): the warnings given and
    the mask handed to [set_driver_mask], if it is called.  [COUNT] is
    [Driver::COUNT] and [driver_compatible d] stands for
    [element_map.driver_compatible(router, d)]. *)
Definition decide_driver (COUNT : nat) (driver_compatible : Z -> bool)
    (specified_driver : Z) : list Warning * option Z :=
  if (0 <=? specified_driver)%Z then
    (if driver_compatible specified_driver then []
     else [not_compatible_with specified_driver],
     Some (Z.shiftl 1 specified_driver))
  else
    let driver_mask :=
      foldl (fun driver_mask d =>
               if driver_compatible (Z.of_nat d)
               then Z.lor driver_mask (Z.shiftl 1 (Z.of_nat d))
               else driver_mask)
        0%Z (seq 0 COUNT) in
    if (driver_mask =? 0)%Z then ([not_compatible_with_any], None)
    else ([], Some driver_mask).

(* ===================================================================== *)
(** * Notions used to state the properties *)
(* ===================================================================== *)

(** A new Align element (one that [r] did not have) with configuration
    [config] sits immediately upstream of the input port [p] of [r']: it is
    the only source of [p], [p] is all that it feeds, and what fed [p] in
    [r] feeds it. *)
Definition spliced_before (r r' : RouterT) (p : PortT) (config : string)
  : Prop :=
  exists e name,
    nelements r <= e
    /\ r_elements r' !! e = Some (mkElementT name "Align" config true)
    /\ find_connections_to r' p = [mkPortT e 0]
    /\ find_connections_to r' (mkPortT e 0) = find_connections_to r p
    /\ find_connections_from r' (mkPortT e 0) = [p].

(** The write of element [i] in [have_output], [want_input]: the values
    [vals i] at offset [off i], at most [cnt i] of them. *)
Definition write_at (off cnt : nat -> nat) (vals : nat -> list Alignment)
    (v : list Alignment) (i : nat) : list Alignment :=
  write_slice (off i) (cnt i) (vals i) v.

(** Two engines for the same router: they differ in the alignments only. *)
Definition same_shape (a b : RouterAlign) : Prop :=
  _router a = _router b /\ _icount a = _icount b /\ _ocount a = _ocount b
  /\ _ioffset a = _ioffset b /\ _ooffset a = _ooffset b
  /\ _aligners a = _aligners b
  /\ length (_ialign a) = length (_ialign b)
  /\ length (_oalign a) = length (_oalign b).

(** The redirection [insert_before] makes of a connection. *)
Definition redirect (e : nat) (h : PortT) (c : ConnectionT) : ConnectionT :=
  if c_live c && PortT_eqb (c_to c) h
  then mkConnectionT true (c_from c) (mkPortT e 0) else c.

(** The router after [get_element] of [x] and [insert_before] of it at [p]. *)
Definition with_align (x : ElementT) (p : PortT) (r : RouterT) : RouterT :=
  insert_before (nelements r) p
    (mkRouterT (r_elements r ++ [x]) (r_conn r)).

(** The ports the two nested insertion loops visit, in order. *)
Definition ports_of (cnt : nat -> nat) (l : list nat) : list PortT :=
  mjoin ((fun i => mkPortT i <$> seq 0 (cnt i)) <$> l).

(** Whether the insertion loops put an Align before port [p], and the
    alignment it is configured to. *)
Definition align_needed (ral want_ral : RouterAlign) (p : PortT) : bool :=
  negb (compatible
          (align_at (_ialign ral) (int_at (_ioffset ral) (p_eindex p) + p_port p))
          (align_at (_ialign want_ral) (int_at (_ioffset ral) (p_eindex p) + p_port p))
        || bad (align_at (_ialign want_ral)
                  (int_at (_ioffset ral) (p_eindex p) + p_port p))).

Definition align_wanted (ral want_ral : RouterAlign) (p : PortT) : Alignment :=
  align_at (_ialign want_ral) (int_at (_ioffset ral) (p_eindex p) + p_port p).

(** One turn of an insertion loop, and what holds of the router when the
    ports [ps] have been visited: the ports that needed an Align have one
    spliced before them, the others have the sources they had. *)
Definition insert_step (needed : PortT -> bool) (wanted : PortT -> Alignment)
    (s : Rewrite) (p : PortT) : Rewrite :=
  if needed p then add_align (wanted p) (p_eindex p) (p_port p) s else s.

Definition inserted (r : RouterT) (needed : PortT -> bool)
    (wanted : PortT -> Alignment) (ps : list PortT) (s : Rewrite) : Prop :=
  RouterT_wf (rw_router s)
  /\ nelements r <= nelements (rw_router s)
  /\ forall q, p_eindex q < nelements r ->
       if decide (q ∈ ps /\ needed q = true)
       then spliced_before r (rw_router s) q (align_configuration (wanted q))
       else find_connections_to (rw_router s) q = find_connections_to r q.

(** A connection once killed; a connection on which the test of phase 4
    returns true; and the connections of [r] when the first [k] turns of the
    loop of phase 4 have killed the redundant ones among the first [k]. *)
Definition killed (c : ConnectionT) : ConnectionT :=
  mkConnectionT false (c_from c) (c_to c).

Definition is_redundant (ral : RouterAlign) (r : RouterT) (c : ConnectionT)
  : bool :=
  default false (redundant ral r c).

Definition killed_upto (ral : RouterAlign) (r : RouterT) (k : nat)
  : list ConnectionT :=
  imap (fun i c => if bool_decide (i < k) && is_redundant ral r c
                   then killed c else c)
    (r_conn r).

(** The measure of the specification for phase 4: the number of live
    connections into an Align whose source already has an alignment
    compatible with that of the Align. *)
Definition redundant_count (ral : RouterAlign) (r : RouterT) : nat :=
  length (List.filter (is_redundant ral r) (r_conn r)).

(** The test of phase 2 on connection [c] (click-align.cc, 523-524): it is
    live and links an Align to an Align. *)
Definition duplicate_align (r : RouterT) (c : ConnectionT) : bool :=
  c_live c
  && is_class r (p_eindex (c_to c)) "Align"
  && is_class r (p_eindex (c_from c)) "Align".

(** What the two inner loops of phase 2 do to a connection: the first sends
    to [h] a connection that ends at [old]; the second makes a connection
    that ends at [at_port] start from [h]. *)
Definition redirect_to (old h : PortT) (c : ConnectionT) : ConnectionT :=
  if PortT_eqb (c_to c) old then mkConnectionT (c_live c) (c_from c) h else c.

Definition redirect_from (at_port h : PortT) (c : ConnectionT) : ConnectionT :=
  if PortT_eqb (c_to c) at_port then mkConnectionT (c_live c) h (c_to c) else c.

(** A vector of connections when [g] has been applied to the first [k]. *)
Definition applied_upto (g : ConnectionT -> ConnectionT) (k : nat)
    (l : list ConnectionT) : list ConnectionT :=
  imap (fun j c => if bool_decide (j < k) then g c else c) l.

(** The number of (live) Align elements of a router. *)
Definition count_aligns (r : RouterT) : nat :=
  length (filter (fun e => e_live e = true /\ e_type e = "Align") (r_elements r)).

(** What the phases 1 to 5 keep: the distance between the counter and the
    number of Align elements. *)
Definition aligns_balance (s : Rewrite) : Z :=
  (Z.of_nat (count_aligns (rw_router s)) - rw_num_aligns_added s)%Z.

(** The list the AlignmentInfo element carries, as the specification
    describes it: for every (live) element that has an input and whose class
    has the flag [A], its name with the chunk and the offset at each of its
    input ports. *)
Definition alignment_sensitive (env : AlignEnv) (r : RouterT) (i : nat) : bool :=
  match r_elements r !! i with
  | Some x =>
      e_live x
      && negb (bool_decide (ninputs r i = 0))
      && (0 <? flag_value (element_map env (e_type x)) "A")%Z
  | None => false
  end.

Definition alignment_info_entry (ral : RouterAlign) (r : RouterT) (i : nat)
  : string * list (Z * Z) :=
  (match r_elements r !! i with Some x => e_name x | None => EmptyString end,
   (fun j => let a := align_at (_ialign ral) (int_at (_ioffset ral) i + j) in
             (chunk a, offset a))
     <$> seq 0 (ninputs r i)).

Definition alignment_info_entries (env : AlignEnv) (ral : RouterAlign)
    (r : RouterT) : list (string * list (Z * Z)) :=
  alignment_info_entry ral r
    <$> List.filter (alignment_sensitive env r) (seq 0 (nelements r)).

(** The text of the list: "NAME  CHUNK OFFSET  CHUNK OFFSET", the entries
    separated by a comma, a newline and two spaces. *)
Fixpoint append_all (ts : list string) : string :=
  match ts with
  | [] => EmptyString
  | t :: ts' => t +:+ append_all ts'
  end.

Definition render_pair (co : Z * Z) : string :=
  "  " +:+ String_of_int co.1 +:+ " " +:+ String_of_int co.2.

Definition render_entry (e : string * list (Z * Z)) : string :=
  e.1 +:+ append_all (render_pair <$> e.2).

Definition entry_separator : string := String "," (String "010" "  ").

Definition separated (ts : list string) : string :=
  match ts with
  | [] => EmptyString
  | t :: ts' => t +:+ append_all ((fun t => entry_separator +:+ t) <$> ts')
  end.

Definition render_entries (es : list (string * list (Z * Z))) : string :=
  separated (render_entry <$> es).

(** The accumulation of the texts of the entries as the program does it. *)
Definition accumulate (sa : string) (ts : list string) : string :=
  foldl (fun sa t =>
           (if bool_decide (String.length sa = 0) then sa
            else sa +:+ entry_separator) +:+ t)
    sa ts.

(** No comma in a text. *)
Fixpoint no_comma (s : string) : bool :=
  match s with
  | EmptyString => true
  | String c s' => negb (Ascii.eqb c ",") && no_comma s'
  end.

(** [RouterT_wf] as a test. *)
Definition RouterT_wf_b (r : RouterT) : bool :=
  forallb (fun c => (p_eindex (c_from c) <? nelements r)
                    && (p_eindex (c_to c) <? nelements r))
    (r_conn r).

(** The alignment a port has when the forward loop is run again after
    phase 1, with the alignment phase 1 wanted there. *)
Definition have_after_required (env : AlignEnv) (fuel : nat) (r : RouterT)
    (i j : nat) : option (Alignment * Alignment) :=
  ral ← have_loop env fuel (RouterAlign_new env r);
  want_ral ← want_loop env fuel (RouterAlign_new env r);
  anonymizer ← skip_used_names fuel r (Z.of_nat (nelements r) + 1)%Z;
  s ← add_aligns_for_required env fuel (nelements r) (mkRewrite r anonymizer 0);
  ral' ← have_loop env fuel (RouterAlign_new env (rw_router s));
  Some (align_at (_ialign ral') (int_at (_ioffset ral') i + j),
        align_at (_ialign want_ral) (int_at (_ioffset ral) i + j)).

(** The alignment a port has and the one wanted there in the router [main]
    writes: the two loops run on that router. *)
Definition have_and_want_written (env : AlignEnv) (fuel : nat) (r : RouterT)
    (i j : nat) : option (Alignment * Alignment) :=
  out ← click_align env fuel r;
  ral ← have_loop env fuel (RouterAlign_new env out.1.1);
  want_ral ← want_loop env fuel (RouterAlign_new env out.1.1);
  Some (align_at (_ialign ral) (int_at (_ioffset ral) i + j),
        align_at (_ialign want_ral) (int_at (_ioffset want_ral) i + j)).

(** One turn of the loop of phase 4: whether it changed the router, and the
    measure of the specification before the turn and at the next one. *)
Definition redundant_counts (env : AlignEnv) (fuel : nat) (r : RouterT)
  : option (bool * nat * nat) :=
  ral ← have_loop env fuel (RouterAlign_new env r);
  s ← skip_redundant_aligns ral r;
  let '(r1, changed) := s in
  let r' := remove_duplicate_connections r1 in
  ral' ← have_loop env fuel (RouterAlign_new env r');
  Some (changed, redundant_count ral r, redundant_count ral' r').

(* ===================================================================== *)
(** * Example configurations *)
(* ===================================================================== *)

(** An element map in which every output of an element depends on every
    input, and the classes of the fallback list of [main]
    (click-align.cc, 445) have the flag [A]. *)
Definition example_env : AlignEnv :=
  mkAlignEnv
    (fun name =>
       mkTraits (fun _ _ => true)
         (fun flag =>
            if Ascii.eqb flag "A"
               && (bool_decide (name = "Classifier")
                   || bool_decide (name = "IPClassifier")
                   || bool_decide (name = "IPFilter")
                   || bool_decide (name = "CheckIPHeader")
                   || bool_decide (name = "CheckIPHeader2")
                   || bool_decide (name = "UDPIPEncap")
                   || bool_decide (name = "IPInputCombo"))
            then 1%Z else 0%Z))
    (fun _ => default_aligner)
    (fun _ _ _ => default_aligner).

Definition element (name type config : string) : ElementT :=
  mkElementT name type config true.

Definition connection (e1 p1 e2 p2 : nat) : ConnectionT :=
  mkConnectionT true (mkPortT e1 p1) (mkPortT e2 p2).

(** [src :: InfiniteSource -> dst :: ToHost]: what comes is (4, 0), what is
    wanted is (4, 2). *)
Definition source_to_host : RouterT :=
  mkRouterT
    [element "src" "InfiniteSource" EmptyString; element "dst" "ToHost" EmptyString]
    [connection 0 0 1 0].

(** [src :: InfiniteSource -> cl :: Classifier -> dst :: Discard]. *)
Definition source_to_classifier : RouterT :=
  mkRouterT
    [element "src" "InfiniteSource" EmptyString; element "cl" "Classifier" "12/0800";
     element "dst" "Discard" EmptyString]
    [connection 0 0 1 0; connection 1 0 2 0].

(** [fd :: FromDevice -> enc :: IPEncap -> out :: ToHost]: (4, 2) comes,
    IPEncap wants (4, 0) and passes on what it gets, ToHost wants (4, 2). *)
Definition device_encap_host : RouterT :=
  mkRouterT
    [element "fd" "FromDevice" "eth0"; element "enc" "IPEncap" "4, 1.0.0.1, 2.0.0.2";
     element "out" "ToHost" EmptyString]
    [connection 0 0 1 0; connection 1 0 2 0].

(** Two sources into an Align(2, 0) that feeds two Align(4, 0):
    [s1, s2 -> a -> a2 -> d1] and [a -> a3 -> d2]. *)
Definition fan_of_aligns : RouterT :=
  mkRouterT
    [element "s1" "InfiniteSource" EmptyString; element "s2" "InfiniteSource" EmptyString;
     element "a" "Align" "2, 0"; element "a2" "Align" "4, 0";
     element "a3" "Align" "4, 0"; element "d1" "Discard" EmptyString;
     element "d2" "Discard" EmptyString]
    [connection 0 0 2 0; connection 1 0 2 0; connection 2 0 3 0;
     connection 2 0 4 0; connection 3 0 5 0; connection 4 0 6 0].

(** Two Aligns in a row, [p -> a1 -> a2 -> u]; the same with a second
    consumer of the first Align, [a1 -> t]; and with a second producer of
    the second Align as well, [x -> a2]. *)
Definition align_chain : RouterT :=
  mkRouterT
    [element "p" "InfiniteSource" EmptyString; element "a1" "Align" "4, 0";
     element "a2" "Align" "4, 2"; element "u" "Discard" EmptyString]
    [connection 0 0 1 0; connection 1 0 2 0; connection 2 0 3 0].

Definition align_tee : RouterT :=
  mkRouterT
    [element "p" "InfiniteSource" EmptyString; element "a1" "Align" "4, 0";
     element "a2" "Align" "4, 2"; element "t" "Discard" EmptyString;
     element "u" "Discard" EmptyString]
    [connection 0 0 1 0; connection 1 0 2 0; connection 1 0 3 0;
     connection 2 0 4 0].

Definition align_shared : RouterT :=
  mkRouterT
    [element "p" "InfiniteSource" EmptyString; element "a1" "Align" "4, 0";
     element "a2" "Align" "4, 2"; element "t" "Discard" EmptyString;
     element "u" "Discard" EmptyString; element "x" "InfiniteSource" EmptyString]
    [connection 0 0 1 0; connection 1 0 2 0; connection 1 0 3 0;
     connection 2 0 4 0; connection 5 0 2 0].

(** [s :: InfiniteSource -> a :: Align(4, 0)]: an Align without output, and
    no element after it. *)
Definition source_to_align : RouterT :=
  mkRouterT
    [element "s" "InfiniteSource" EmptyString; element "a" "Align" "4, 0"]
    [connection 0 0 1 0].

(** Two sources with an existing element named like a synthetic Align. *)
Definition named_like_an_aligner : RouterT :=
  mkRouterT
    [element "s1" "InfiniteSource" EmptyString; element "t1" "ToHost" EmptyString;
     element "s2" "InfiniteSource" EmptyString; element "Align@click_align@6" "ToHost" EmptyString]
    [connection 0 0 1 0; connection 2 0 3 0].

(** The engines of the examples, and the first example after phase 1. *)
Definition converged (o : option RouterAlign) : bool :=
  match o with Some _ => true | None => false end.

Definition engine_or_new (o : option RouterAlign) (r : RouterT) : RouterAlign :=
  default (RouterAlign_new example_env r) o.

Definition have_of (r : RouterT) : RouterAlign :=
  engine_or_new (have_loop example_env 10 (RouterAlign_new example_env r)) r.

Definition want_of (r : RouterT) : RouterAlign :=
  engine_or_new (want_loop example_env 10 (RouterAlign_new example_env r)) r.

Definition source_to_host_aligned : Rewrite :=
  add_required_aligns (have_of source_to_host) (want_of source_to_host) 2
    (mkRewrite source_to_host 3 0).

(** The converged engines of an example with the vector the next pass
    overwrites reset to the default alignment. *)
Definition stale_have : RouterAlign :=
  set_oalign (have_of fan_of_aligns)
    (replicate (length (_oalign (have_of fan_of_aligns))) Alignment_default).

Definition stale_want : RouterAlign :=
  set_ialign (want_of source_to_host)
    (replicate (length (_ialign (want_of source_to_host))) Alignment_default).

(** [a :: Align(4, 0); a -> a] after [k] turns of the loop of phase 4: the
    [k] connections killed so far and the live one. *)
Definition align_self_loop (k : nat) : RouterT :=
  mkRouterT [element "a" "Align" "4, 0"]
    (replicate k (mkConnectionT false (mkPortT 0 0) (mkPortT 0 0))
     ++ [connection 0 0 0 0]).

(* ===================================================================== *)
(** * Notions used to state further properties *)
(* ===================================================================== *)

(** The flat indices [have_input] and [want_output] compute for a
    connection. *)
Definition ioff (ral : RouterAlign) (c : ConnectionT) : nat :=
  int_at (_ioffset ral) (p_eindex (c_to c)) + p_port (c_to c).

Definition ooff (ral : RouterAlign) (c : ConnectionT) : nat :=
  int_at (_ooffset ral) (p_eindex (c_from c)) + p_port (c_from c).

(** Connection [c'] is connection [c] up to a redirection at an Align of
    router [r]: it is as live as [c], it enters an Align exactly when [c]
    does, and it is [c] when [c] does not enter an Align. *)
Definition redirected_at_an_Align (r : RouterT) (c c' : ConnectionT) : Prop :=
  c_live c' = c_live c
  /\ is_class r (p_eindex (c_to c')) "Align"
     = is_class r (p_eindex (c_to c)) "Align"
  /\ (is_class r (p_eindex (c_to c)) "Align" = false -> c' = c).

(** Connection [c'] is connection [c], killed or not: it has the ends of
    [c] and is live only if [c] is. *)
Definition killed_or_kept (c c' : ConnectionT) : Prop :=
  c_from c' = c_from c /\ c_to c' = c_to c
  /\ (c_live c' = true -> c_live c = true).

(** Connection [d] joins ports that connections of [r] use: it starts where
    one of them starts and ends where one of them ends. *)
Definition joins_ports_of (r : RouterT) (d : ConnectionT) : Prop :=
  c_from d ∈ c_from <$> r_conn r /\ c_to d ∈ c_to <$> r_conn r.

(** The tests of phase 5 on element [i] (click-align.cc, 615-620): an Align
    without input or without output, and an AlignmentInfo. *)
Definition unused_align (r : RouterT) (i : nat) : bool :=
  element_live r i && is_class r i "Align"
  && (bool_decide (ninputs r i = 0) || bool_decide (noutputs r i = 0)).

Definition old_alignment_info (r : RouterT) (i : nat) : bool :=
  element_live r i && is_class r i "AlignmentInfo".

(** The elements of a list at the positions, counted from [i], that satisfy
    [keep]. *)
Fixpoint select_from (keep : nat -> bool) (i : nat) (l : list ElementT)
  : list ElementT :=
  match l with
  | [] => []
  | x :: l' =>
      if keep i then x :: select_from keep (S i) l'
      else select_from keep (S i) l'
  end.

(** The elements that phase 5 keeps: the live ones that are neither an
    unused Align nor an AlignmentInfo. *)
Definition kept_elements (r : RouterT) : list ElementT :=
  select_from
    (fun i => element_live r i && negb (unused_align r i)
              && negb (old_alignment_info r i))
    0 (r_elements r).

(** The elements [click-align] is not concerned with: the live ones that
    are neither an Align nor an AlignmentInfo. *)
Definition other_elements (r : RouterT) : list ElementT :=
  filter (fun e => e_live e = true /\ e_type e <> "Align"
                   /\ e_type e <> "AlignmentInfo")
    (r_elements r).

(** What the router [rk] of a turn of phase 4 is to the router [r] the
    phase started from: the elements are the same, the connections of [r]
    are still at their places, killed or not, before those added since, and
    every connection joins ports that connections of [r] use. *)
Definition bypassed (r rk : RouterT) : Prop :=
  r_elements rk = r_elements r
  /\ (exists old added, r_conn rk = old ++ added
        /\ Forall2 killed_or_kept (r_conn r) old)
  /\ Forall (joins_ports_of r) (r_conn rk).

(** An element once [kill()] has been called on it, and the elements of [r]
    when the first [k] turns of the loop of phase 5 have killed the unused
    Aligns and the AlignmentInfos among the first [k]. *)
Definition killed_element (e : ElementT) : ElementT :=
  mkElementT (e_name e) (e_type e) (e_configuration e) false.

Definition unused_killed_upto (r : RouterT) (k : nat) : list ElementT :=
  imap (fun i e => if bool_decide (i < k)
                      && (unused_align r i || old_alignment_info r i)
                   then killed_element e else e)
    (r_elements r).

(** What an argument of the command line is to the loop of [main]: it
    names the router configuration ([-f], [-e] or a word that is no
    definition), the output file or the driver, or it stops the loop
    ([--help], [--version], an option that is none). *)
Definition gives_router_file (click_maybe_define : string -> bool)
    (a : Opt * string) : bool :=
  match a.1 with
  | ROUTER_OPT | EXPRESSION_OPT => true
  | Clp_NotOption => negb (click_maybe_define a.2)
  | _ => false
  end.

Definition gives_output_file (a : Opt * string) : bool :=
  match a.1 with OUTPUT_OPT => true | _ => false end.

Definition gives_driver (a : Opt * string) : bool :=
  match a.1 with DRIVER_OPT _ => true | _ => false end.

Definition stops_reading (a : Opt * string) : bool :=
  match a.1 with
  | HELP_OPT | VERSION_OPT | Clp_BadOption => true
  | _ => false
  end.

Definition driver_of (a : Opt * string) : Z :=
  match a.1 with DRIVER_OPT driver => driver | _ => (-1)%Z end.

(** The variables as a command line without fault sets them, from the
    state [o]: each is set by the first argument that gives it. *)
Definition options_read (click_maybe_define : string -> bool)
    (args : list (Opt * string)) (o : Options) : Options :=
  mkOptions
    (match router_file o with
     | Some f => Some f
     | None =>
         snd <$> head (List.filter (gives_router_file click_maybe_define) args)
     end)
    (match router_file o,
           head (List.filter (gives_router_file click_maybe_define) args) with
     | None, Some a => bool_decide (a.1 = EXPRESSION_OPT)
     | _, _ => file_is_expr o
     end)
    (match output_file o with
     | Some f => Some f
     | None => snd <$> head (List.filter gives_output_file args)
     end)
    (if (0 <=? specified_driver o)%Z then specified_driver o
     else from_option driver_of (specified_driver o)
            (head (List.filter gives_driver args))).

(** The number of times a variable is given: once if it is set already,
    and once by each argument that gives it. *)
Definition times_given (set : bool) (gives : Opt * string -> bool)
    (args : list (Opt * string)) : nat :=
  (if set then 1 else 0) + length (List.filter gives args).

(** The router phase 4 leaves of an example, and what [main] gives for it:
    the router written, [num_aligns_added] and whether it warns. *)
Definition settled (r : RouterT) : RouterT :=
  default r (remove_redundant_aligns example_env 10 10 r).

Definition written (r : RouterT) : RouterT * Z * bool :=
  default (r, 0%Z, false) (click_align example_env 10 r).


(** Whether a bounded run came to its end. *)
Definition ended {A} (o : option A) : bool :=
  match o with Some _ => true | None => false end.

(* ===================================================================== *)
(** * Properties *)
(* ===================================================================== *)

(** ** Offsets and the index functions *)

Lemma offsets_from_length id cs : length (offsets_from id cs) = S (length cs).
Proof. revert id; induction cs as [|c cs IH]; intros id; simpl; auto. Qed.

Lemma int_at_offsets_from id cs i :
  i <= length cs ->
  int_at (offsets_from id cs) i = id + foldr Nat.add 0 (take i cs).
Proof.
  revert id i; induction cs as [|c cs IH]; intros id i Hi; simpl in *.
  - assert (i = 0) as -> by lia. unfold int_at; simpl. lia.
  - destruct i as [|i]; unfold int_at in *; simpl; [lia|].
    rewrite IH by lia. lia.
Qed.

Lemma int_at_offsets_from_S id cs i :
  i < length cs ->
  int_at (offsets_from id cs) (S i)
  = int_at (offsets_from id cs) i + int_at cs i.
Proof.
  intros Hi. rewrite !int_at_offsets_from by lia.
  destruct (lookup_lt_is_Some_2 cs i Hi) as [c Hc].
  rewrite (take_S_r _ _ _ Hc). unfold int_at. rewrite Hc. simpl.
  rewrite foldr_app. simpl.
  assert (forall l a, foldr Nat.add a l = foldr Nat.add 0 l + a) as Hf.
  { induction l as [|y l IHl]; intros a; simpl; [lia|]. rewrite IHl. lia. }
  rewrite (Hf _ (c + 0)). lia.
Qed.

Lemma int_at_offsets_from_0 cs : int_at (offsets_from 0 cs) 0 = 0.
Proof. destruct cs; reflexivity. Qed.

Lemma int_at_offsets_from_total cs :
  int_at (offsets_from 0 cs) (length cs) = foldr Nat.add 0 cs.
Proof. rewrite int_at_offsets_from by lia. by rewrite take_ge by lia. Qed.

Lemma int_at_offsets_from_mono cs i j :
  i <= j -> j <= length cs ->
  int_at (offsets_from 0 cs) i <= int_at (offsets_from 0 cs) j.
Proof.
  induction 1 as [|j Hij IH]; intros Hj; [lia|].
  rewrite int_at_offsets_from_S by lia. specialize (IH ltac:(lia)). lia.
Qed.

Lemma find_seq_Some (P : nat -> bool) s n i :
  List.find P (seq s n) = Some i ->
  s <= i < s + n /\ P i = true /\ forall j, s <= j < i -> P j = false.
Proof.
  revert s; induction n as [|n IH]; intros s; simpl; [discriminate|].
  destruct (P s) eqn:HP.
  - intros [= <-]. split; [lia|]. split; [done|]. intros; lia.
  - intros H. apply IH in H as (? & ? & Hj). split; [lia|]. split; [done|].
    intros j Hr. destruct (decide (j = s)) as [->|]; [done|]. apply Hj; lia.
Qed.

Lemma find_seq_None (P : nat -> bool) s n :
  List.find P (seq s n) = None <-> forall j, s <= j < s + n -> P j = false.
Proof.
  revert s; induction n as [|n IH]; intros s; simpl.
  - split; [intros; lia|done].
  - destruct (P s) eqn:HP.
    + split; [discriminate|]. intros H. rewrite H in HP by lia. discriminate.
    + rewrite IH. split; intros H j Hj.
      * destruct (decide (j = s)) as [->|]; [done|]. apply H; lia.
      * apply H; lia.
Qed.

(** The loop of the index functions on the offsets the constructor makes. *)
Lemma first_element_below_out cs (x : Z) :
  (Z.of_nat (foldr Nat.add 0%nat cs) <= x)%Z ->
  first_element_below (offsets_from 0 cs) (length cs) x = None.
Proof.
  intros Hx. apply find_seq_None. intros j Hj.
  apply Z.ltb_ge.
  pose proof (int_at_offsets_from_mono cs (j + 1) (length cs) ltac:(lia) ltac:(lia)).
  rewrite int_at_offsets_from_total in H. lia.
Qed.

Lemma first_element_below_in cs (x : Z) :
  (0 <= x < Z.of_nat (foldr Nat.add 0%nat cs))%Z ->
  exists i, first_element_below (offsets_from 0 cs) (length cs) x = Some i
    /\ i < length cs
    /\ int_at (offsets_from 0 cs) i <= Z.to_nat x
       < int_at (offsets_from 0 cs) i + int_at cs i.
Proof.
  intros Hx.
  destruct (first_element_below (offsets_from 0 cs) (length cs) x) as [i|] eqn:Hf.
  - exists i. split; [done|].
    apply find_seq_Some in Hf as (Hi & HP & Hfirst).
    apply Z.ltb_lt in HP. split; [lia|].
    replace (i + 1) with (S i) in HP by lia.
    rewrite int_at_offsets_from_S in HP by lia.
    split; [|lia].
    destruct i as [|i]; [rewrite int_at_offsets_from_0; lia|].
    specialize (Hfirst i ltac:(lia)). apply Z.ltb_ge in Hfirst.
    replace (i + 1) with (S i) in Hfirst by lia. lia.
  - exfalso. unfold first_element_below in Hf.
    rewrite find_seq_None in Hf.
    destruct cs as [|c cs]; [simpl in Hx; lia|].
    specialize (Hf (length cs) ltac:(simpl; lia)).
    apply Z.ltb_ge in Hf.
    replace (length cs + 1) with (length (c :: cs)) in Hf by (simpl; lia).
    rewrite int_at_offsets_from_total in Hf. lia.
Qed.

Lemma int_at_fmap_seq (f : nat -> nat) n i :
  i < n -> int_at (f <$> seq 0 n) i = f i.
Proof.
  intros Hi. unfold int_at. rewrite list_lookup_fmap.
  rewrite lookup_seq_lt by done. reflexivity.
Qed.

(** C10: for a flat input-port index at or beyond the total number of input
    ports, [iindex_eindex] and [iindex_port] return -1, and likewise
    [oindex_eindex] and [oindex_port] for a flat output-port index at or
    beyond the total number of output ports; for a flat index in range each
    pair returns the index [i] of the owning element and the port [p] within
    it: [p] is a port of [i], and the offset of [i] plus [p] is the flat
    index. *)
Theorem index_functions_correct (env : AlignEnv) (r : RouterT) :
  let ral := RouterAlign_new env r in
  (forall ii : Z, (Z.of_nat (length (_ialign ral)) <= ii)%Z ->
     iindex_eindex ral ii = (-1)%Z /\ iindex_port ral ii = (-1)%Z)
  /\ (forall oi : Z, (Z.of_nat (length (_oalign ral)) <= oi)%Z ->
     oindex_eindex ral oi = (-1)%Z /\ oindex_port ral oi = (-1)%Z)
  /\ (forall ii : Z, (0 <= ii < Z.of_nat (length (_ialign ral)))%Z ->
     exists i p : nat,
       iindex_eindex ral ii = Z.of_nat i /\ iindex_port ral ii = Z.of_nat p
       /\ i < nelements r /\ p < ninputs r i
       /\ Z.of_nat (int_at (_ioffset ral) i + p) = ii)
  /\ (forall oi : Z, (0 <= oi < Z.of_nat (length (_oalign ral)))%Z ->
     exists i p : nat,
       oindex_eindex ral oi = Z.of_nat i /\ oindex_port ral oi = Z.of_nat p
       /\ i < nelements r /\ p < noutputs r i
       /\ Z.of_nat (int_at (_ooffset ral) i + p) = oi).
Proof.
  intros ral. subst ral.
  unfold iindex_eindex, iindex_port, oindex_eindex, oindex_port.
  cbn [RouterAlign_new _ialign _oalign _icount _ocount _ioffset _ooffset].
  rewrite !length_replicate.
  set (ne := nelements r).
  assert (Hli : length (ninputs r <$> seq 0 ne) = ne)
    by (by rewrite length_fmap, length_seq).
  assert (Hlo : length (noutputs r <$> seq 0 ne) = ne)
    by (by rewrite length_fmap, length_seq).
  assert (Hio : length (ninputs r <$> seq 0 ne) = length (noutputs r <$> seq 0 ne))
    by congruence.
  split; [|split; [|split]].
  - intros ii H. by rewrite (first_element_below_out _ _ H).
  - intros oi H. rewrite Hio. by rewrite (first_element_below_out _ _ H).
  - intros ii H.
    destruct (first_element_below_in _ ii H) as (i & Hf & Hi & Hr).
    rewrite Hf. rewrite Hli in Hi.
    rewrite int_at_fmap_seq in Hr by done.
    exists i, (Z.to_nat ii - int_at (offsets_from 0 (ninputs r <$> seq 0 ne)) i).
    repeat split; try lia.
  - intros oi H.
    destruct (first_element_below_in _ oi H) as (i & Hf & Hi & Hr).
    rewrite Hio, Hf. rewrite Hlo in Hi.
    rewrite int_at_fmap_seq in Hr by done.
    exists i, (Z.to_nat oi - int_at (offsets_from 0 (noutputs r <$> seq 0 ne)) i).
    repeat split; try lia.
Qed.

(** ** Writes of slices *)

Section slice_writes.
Variables (off cnt : nat -> nat) (vals : nat -> list Alignment).

Local Abbreviation write := (write_at off cnt vals).

Lemma write_slice_length o n vs v : length (write_slice o n vs v) = length v.
Proof. apply length_inserts. Qed.

Lemma write_slice_lookup o n vs v k :
  write_slice o n vs v !! k
  = if decide (o <= k < o + length (take n vs) /\ k < length v)
    then take n vs !! (k - o) else v !! k.
Proof.
  unfold write_slice. case_decide as Hk.
  - apply list_lookup_inserts; lia.
  - destruct (decide (k < o)); [by apply list_lookup_inserts_lt|].
    destruct (decide (o + length (take n vs) <= k));
      [by apply list_lookup_inserts_ge|].
    rewrite (lookup_ge_None_2 v) by lia.
    apply lookup_ge_None_2. rewrite length_inserts. lia.
Qed.

Lemma write_length v i : length (write v i) = length v.
Proof. apply write_slice_length. Qed.

Lemma write_lookup v i k :
  write v i !! k
  = if decide (off i <= k < off i + length (take (cnt i) (vals i))
               /\ k < length v)
    then take (cnt i) (vals i) !! (k - off i) else v !! k.
Proof. apply write_slice_lookup. Qed.

Lemma writes_length l v : length (foldl write v l) = length v.
Proof.
  revert v; induction l as [|i l IH]; intros v; simpl; [done|].
  by rewrite IH, write_length.
Qed.

Lemma writes_agree l v v' k :
  length v = length v' -> v !! k = v' !! k ->
  foldl write v l !! k = foldl write v' l !! k.
Proof.
  revert v v'; induction l as [|i l IH]; intros v v' Hl Hk; simpl; [done|].
  apply IH.
  - by rewrite !write_length.
  - rewrite !write_lookup, Hl. case_decide; [done|]. exact Hk.
Qed.

Lemma writes_kept_or_fixed l v k :
  foldl write v l !! k = v !! k
  \/ forall v', length v' = length v ->
       foldl write v' l !! k = foldl write v l !! k.
Proof.
  revert v; induction l as [|i l IH]; intros v; simpl; [by left|].
  destruct (IH (write v i)) as [Hkept|Hfixed].
  - rewrite write_lookup in Hkept.
    case_decide as Hr.
    + right. intros v' Hl. apply writes_agree.
      * by rewrite !write_length.
      * rewrite !write_lookup, Hl. by rewrite !decide_True by done.
    + left. exact Hkept.
  - right. intros v' Hl. apply Hfixed. by rewrite !write_length.
Qed.

(** Writing the same slices a second time changes nothing. *)
Lemma writes_idempotent l v :
  foldl write (foldl write v l) l = foldl write v l.
Proof.
  apply list_eq. intros k.
  destruct (writes_kept_or_fixed l v k) as [Hkept|Hfixed].
  - apply writes_agree; [apply writes_length|exact Hkept].
  - apply Hfixed, writes_length.
Qed.
End slice_writes.

(** ** The passes *)

Lemma have_output_idempotent env ral :
  have_output env (have_output env ral) = have_output env ral.
Proof.
  unfold have_output, set_oalign. cbn. f_equal.
  apply (writes_idempotent
           (fun i => int_at (_ooffset ral) i) (fun i => int_at (_ocount ral) i)
           (fun i => have_flow (aligner_at (_aligners ral) i)
                       (slice (_ialign ral) (int_at (_ioffset ral) i)
                          (int_at (_icount ral) i))
                       (int_at (_ocount ral) i)
                       (flow_code (element_map env (etype_name (_router ral) i))))).
Qed.

Lemma want_input_idempotent env ral :
  want_input env (want_input env ral) = want_input env ral.
Proof.
  unfold want_input, set_ialign. cbn. f_equal.
  apply (writes_idempotent
           (fun i => int_at (_ioffset ral) i) (fun i => int_at (_icount ral) i)
           (fun i => want_flow (aligner_at (_aligners ral) i)
                       (slice (_oalign ral) (int_at (_ooffset ral) i)
                          (int_at (_ocount ral) i))
                       (int_at (_icount ral) i)
                       (flow_code (element_map env (etype_name (_router ral) i))))).
Qed.

Lemma vectors_differ_false n (new old : list Alignment) :
  length new = n -> length old = n ->
  vectors_differ n new old = false -> new = old.
Proof.
  intros Hn Ho Hd. apply list_eq. intros k.
  destruct (decide (k < n)) as [Hk|Hk].
  - unfold vectors_differ in Hd.
    assert (Alignment_ne (align_at new k) (align_at old k) = false) as Hne.
    { destruct (Alignment_ne (align_at new k) (align_at old k)) eqn:E; [|done].
      rewrite <- Hd. symmetry. apply existsb_exists. exists k. split; [|done].
      apply in_seq. lia. }
    unfold Alignment_ne in Hne. apply negb_false_iff, bool_decide_eq_true in Hne.
    unfold align_at in Hne.
    destruct (lookup_lt_is_Some_2 new k ltac:(lia)) as [a Ha].
    destruct (lookup_lt_is_Some_2 old k ltac:(lia)) as [b Hb].
    rewrite Ha, Hb in *. simpl in Hne. by subst.
  - rewrite !lookup_ge_None_2 by lia. done.
Qed.

Lemma foldl_alter_length {A B} (f : list A -> B -> list A) (l : list B) v :
  (forall v b, length (f v b) = length v) ->
  length (foldl f v l) = length v.
Proof.
  intros Hf. revert v; induction l as [|b l IH]; intros v; simpl; [done|].
  by rewrite IH, Hf.
Qed.

Lemma have_input_length ral :
  length (_ialign (have_input ral).2) = length (_ialign ral).
Proof.
  unfold have_input. cbn. rewrite foldl_alter_length.
  - apply length_replicate.
  - intros v c. destruct (c_live c); [apply length_alter|done].
Qed.

Lemma want_output_length ral :
  length (_oalign (want_output ral).2) = length (_oalign ral).
Proof.
  unfold want_output. cbn. rewrite foldl_alter_length.
  - apply length_replicate.
  - intros v c. destruct (c_live c); [apply length_alter|done].
Qed.

Lemma have_input_unchanged ral ral' :
  have_input ral = (false, ral') -> ral' = ral.
Proof.
  intros H. pose proof (have_input_length ral) as Hl. rewrite H in Hl.
  unfold have_input in H. injection H as Hd <-. cbn in Hl.
  apply vectors_differ_false in Hd; [|done..].
  unfold set_ialign. rewrite Hd. by destruct ral.
Qed.

Lemma want_output_unchanged ral ral' :
  want_output ral = (false, ral') -> ral' = ral.
Proof.
  intros H. pose proof (want_output_length ral) as Hl. rewrite H in Hl.
  unfold want_output in H. injection H as Hd <-. cbn in Hl.
  apply vectors_differ_false in Hd; [|done..].
  unfold set_oalign. rewrite Hd. by destruct ral.
Qed.

(** C6: once a turn of the forward loop ([have_output], then [have_input])
    has reported no change, one more turn changes neither the input nor the
    output alignments (the engine it returns is the same) and reports no
    change again; the same holds of the backward loop ([want_input], then
    [want_output]). *)
Theorem propagation_passes_idempotent (env : AlignEnv) (ral ral' : RouterAlign) :
  (forward_pass env ral = (false, ral') ->
   forward_pass env ral' = (false, ral'))
  /\ (backward_pass env ral = (false, ral') ->
      backward_pass env ral' = (false, ral')).
Proof.
  unfold forward_pass, backward_pass. split; intros H.
  - pose proof (have_input_unchanged _ _ H) as ->.
    by rewrite have_output_idempotent.
  - pose proof (want_output_unchanged _ _ H) as ->.
    by rewrite want_input_idempotent.
Qed.

(** ** The engine keeps its shape *)

Arguments forward_pass : simpl never.
Arguments backward_pass : simpl never.

Lemma same_shape_refl a : same_shape a a.
Proof. by repeat split. Qed.

Lemma same_shape_trans a b c : same_shape a b -> same_shape b c -> same_shape a c.
Proof. unfold same_shape. intuition congruence. Qed.

Lemma have_output_length env ral :
  length (_oalign (have_output env ral)) = length (_oalign ral).
Proof.
  unfold have_output. cbn [set_oalign _oalign].
  apply foldl_alter_length. intros v i. apply write_slice_length.
Qed.

Lemma want_input_length env ral :
  length (_ialign (want_input env ral)) = length (_ialign ral).
Proof.
  unfold want_input. cbn [set_ialign _ialign].
  apply foldl_alter_length. intros v i. apply write_slice_length.
Qed.

Lemma forward_pass_shape env ral : same_shape ral (forward_pass env ral).2.
Proof.
  unfold forward_pass. repeat split; try done.
  - by rewrite have_input_length.
  - symmetry. apply have_output_length.
Qed.

Lemma backward_pass_shape env ral : same_shape ral (backward_pass env ral).2.
Proof.
  unfold backward_pass. repeat split; try done.
  - symmetry. apply want_input_length.
  - by rewrite want_output_length.
Qed.

Lemma have_loop_S env f ral :
  have_loop env (S f) ral
  = if (forward_pass env ral).1 then have_loop env f (forward_pass env ral).2
    else Some (forward_pass env ral).2.
Proof. reflexivity. Qed.

Lemma want_loop_S env f ral :
  want_loop env (S f) ral
  = if (backward_pass env ral).1 then want_loop env f (backward_pass env ral).2
    else Some (backward_pass env ral).2.
Proof. reflexivity. Qed.

Lemma have_loop_shape env fuel ral ral' :
  have_loop env fuel ral = Some ral' -> same_shape ral ral'.
Proof.
  revert ral; induction fuel as [|f IH]; intros ral; [discriminate|].
  rewrite have_loop_S.
  pose proof (forward_pass_shape env ral) as Hs.
  destruct ((forward_pass env ral).1).
  - intros H. eapply same_shape_trans; [exact Hs|]. by apply IH.
  - by intros [= <-].
Qed.

Lemma want_loop_shape env fuel ral ral' :
  want_loop env fuel ral = Some ral' -> same_shape ral ral'.
Proof.
  revert ral; induction fuel as [|f IH]; intros ral; [discriminate|].
  rewrite want_loop_S.
  pose proof (backward_pass_shape env ral) as Hs.
  destruct ((backward_pass env ral).1).
  - intros H. eapply same_shape_trans; [exact Hs|]. by apply IH.
  - by intros [= <-].
Qed.

(** The engine that leaves the forward loop has just made a full turn. *)
Lemma have_loop_last env fuel ral ral' :
  have_loop env fuel ral = Some ral' ->
  exists ral0, same_shape ral ral0 /\ forward_pass env ral0 = (false, ral').
Proof.
  revert ral; induction fuel as [|f IH]; intros ral; [discriminate|].
  rewrite have_loop_S.
  pose proof (forward_pass_shape env ral) as Hs.
  destruct (forward_pass env ral) as [[] ral1] eqn:Hp; cbn [fst snd] in *.
  - intros H. destruct (IH _ H) as (ral0 & Hs0 & Hp0).
    exists ral0. split; [|done]. by eapply same_shape_trans.
  - intros [= <-]. exists ral. split; [apply same_shape_refl|done].
Qed.

(** ** Connections at a port *)

Lemma find_connections_to_app r l q :
  find_connections_to (mkRouterT (r_elements r) (r_conn r ++ l)) q
  = find_connections_to r q
    ++ (c_from <$> filter (fun c => c_live c = true /\ c_to c = q) l).
Proof. unfold find_connections_to. cbn. by rewrite filter_app, fmap_app. Qed.

Lemma find_connections_from_app r l q :
  find_connections_from (mkRouterT (r_elements r) (r_conn r ++ l)) q
  = find_connections_from r q
    ++ (c_to <$> filter (fun c => c_live c = true /\ c_from c = q) l).
Proof. unfold find_connections_from. cbn. by rewrite filter_app, fmap_app. Qed.

Lemma to_filter_cons q c (l : list ConnectionT) :
  c_from <$> filter (fun c => c_live c = true /\ c_to c = q) (c :: l)
  = (if decide (c_live c = true /\ c_to c = q) then [c_from c] else [])
    ++ (c_from <$> filter (fun c => c_live c = true /\ c_to c = q) l).
Proof. rewrite filter_cons. by case_decide. Qed.

Lemma from_filter_cons o c (l : list ConnectionT) :
  c_to <$> filter (fun c => c_live c = true /\ c_from c = o) (c :: l)
  = (if decide (c_live c = true /\ c_from c = o) then [c_to c] else [])
    ++ (c_to <$> filter (fun c => c_live c = true /\ c_from c = o) l).
Proof. rewrite filter_cons. by case_decide. Qed.

Ltac conn_cases :=
  repeat (simpl in *; (case_decide || case_bool_decide)); simpl in *;
  try done; try congruence; try (by intuition simplify_eq).

Lemma redirect_to_filter e h q (l : list ConnectionT) :
  (forall c, c ∈ l -> c_to c <> mkPortT e 0) -> h <> mkPortT e 0 ->
  c_from <$> filter (fun c => c_live c = true /\ c_to c = q) (redirect e h <$> l)
  = if decide (q = h) then []
    else if decide (q = mkPortT e 0)
         then c_from <$> filter (fun c => c_live c = true /\ c_to c = h) l
         else c_from <$> filter (fun c => c_live c = true /\ c_to c = q) l.
Proof.
  intros Hfresh Hh. induction l as [|c l IH]; [by repeat case_decide|].
  assert (c_to c <> mkPortT e 0) as Hc by (apply Hfresh; left).
  specialize (IH ltac:(intros; apply Hfresh; by right)).
  rewrite fmap_cons, to_filter_cons, IH.
  destruct (decide (q = h)) as [->|Hqh].
  { destruct c as [[] f t]; unfold redirect, PortT_eqb; simpl in *; conn_cases. }
  destruct (decide (q = mkPortT e 0)) as [->|Hqe]; rewrite to_filter_cons.
  - destruct c as [[] f t]; unfold redirect, PortT_eqb; simpl in *; conn_cases.
  - destruct c as [[] f t]; unfold redirect, PortT_eqb; simpl in *; conn_cases.
Qed.

Lemma redirect_from_filter e h o (l : list ConnectionT) :
  c_to <$> filter (fun c => c_live c = true /\ c_from c = o) (redirect e h <$> l)
  = (fun t => if decide (t = h) then mkPortT e 0 else t)
      <$> (c_to <$> filter (fun c => c_live c = true /\ c_from c = o) l).
Proof.
  induction l as [|c l IH]; [done|].
  rewrite fmap_cons, !from_filter_cons, fmap_app, IH. f_equal.
  destruct c as [[] f t]; unfold redirect, PortT_eqb; simpl in *; conn_cases.
Qed.

(** ** Inserting one Align element *)

Lemma RouterT_wf_fresh_to r c :
  RouterT_wf r -> c ∈ r_conn r -> c_to c <> mkPortT (nelements r) 0.
Proof. intros Hwf Hc E. destruct (Hwf c Hc) as [_ H]. rewrite E in H. simpl in H. lia. Qed.

Lemma RouterT_wf_fresh_from r c :
  RouterT_wf r -> c ∈ r_conn r -> c_from c <> mkPortT (nelements r) 0.
Proof. intros Hwf Hc E. destruct (Hwf c Hc) as [H _]. rewrite E in H. simpl in H. lia. Qed.

Lemma filter_to_fresh (l : list ConnectionT) q :
  (forall c, c ∈ l -> c_to c <> q) ->
  c_from <$> filter (fun c => c_live c = true /\ c_to c = q) l = [].
Proof.
  intros H. induction l as [|c l IH]; [done|].
  rewrite to_filter_cons, IH by (intros; apply H; by right).
  rewrite decide_False; [done|]. intros [_ E]. by apply (H c); [left|].
Qed.

Lemma filter_from_fresh (l : list ConnectionT) o :
  (forall c, c ∈ l -> c_from c <> o) ->
  c_to <$> filter (fun c => c_live c = true /\ c_from c = o) l = [].
Proof.
  intros H. induction l as [|c l IH]; [done|].
  rewrite from_filter_cons, IH by (intros; apply H; by right).
  rewrite decide_False; [done|]. intros [_ E]. by apply (H c); [left|].
Qed.

Lemma add_align_router want i j s :
  rw_router (add_align want i j s)
  = with_align (mkElementT (aligner_name (rw_anonymizer s)) "Align"
                  (align_configuration want) true)
      (mkPortT i j) (rw_router s).
Proof. reflexivity. Qed.

Lemma with_align_conn x p r :
  r_conn (with_align x p r)
  = (redirect (nelements r) p <$> r_conn r)
    ++ [mkConnectionT true (mkPortT (nelements r) 0) p].
Proof. reflexivity. Qed.

Lemma with_align_elements x p r :
  r_elements (with_align x p r) = r_elements r ++ [x].
Proof. reflexivity. Qed.

Lemma with_align_nelements x p r :
  nelements (with_align x p r) = S (nelements r).
Proof. unfold nelements. rewrite with_align_elements, length_app. simpl. lia. Qed.

Lemma with_align_wf x p r :
  RouterT_wf r -> p_eindex p < nelements r -> RouterT_wf (with_align x p r).
Proof.
  intros Hwf Hp c Hc. rewrite with_align_nelements.
  rewrite with_align_conn in Hc. apply elem_of_app in Hc as [Hc|Hc].
  - apply list_elem_of_fmap in Hc as (c0 & -> & Hc0).
    destruct (Hwf c0 Hc0) as [Hf Ht].
    unfold redirect. destruct (c_live c0 && PortT_eqb (c_to c0) p); simpl; lia.
  - apply list_elem_of_singleton in Hc as ->. simpl. lia.
Qed.

Lemma with_align_to x p r q :
  RouterT_wf r -> p_eindex p < nelements r ->
  find_connections_to (with_align x p r) q
  = if decide (q = p) then [mkPortT (nelements r) 0]
    else if decide (q = mkPortT (nelements r) 0) then find_connections_to r p
         else find_connections_to r q.
Proof.
  intros Hwf Hp. unfold find_connections_to at 1.
  rewrite with_align_conn, filter_app, fmap_app.
  rewrite redirect_to_filter.
  - rewrite filter_cons, filter_nil. simpl.
    assert (p <> mkPortT (nelements r) 0) by (intros ->; simpl in Hp; lia).
    repeat case_decide; simpl; destruct_and?; subst; try done;
      try (rewrite app_nil_r; done); try (exfalso; intuition (simplify_eq; eauto)).
  - intros c Hc. by apply RouterT_wf_fresh_to.
  - intros ->. simpl in Hp. lia.
Qed.

Lemma with_align_from x p r o :
  RouterT_wf r ->
  find_connections_from (with_align x p r) o
  = if decide (o = mkPortT (nelements r) 0) then [p]
    else (fun t => if decide (t = p) then mkPortT (nelements r) 0 else t)
           <$> find_connections_from r o.
Proof.
  intros Hwf. unfold find_connections_from at 1.
  rewrite with_align_conn, filter_app, fmap_app.
  rewrite redirect_from_filter, filter_cons, filter_nil. simpl.
  destruct (decide (o = mkPortT (nelements r) 0)) as [->|Ho].
  - rewrite filter_from_fresh by (intros; by apply RouterT_wf_fresh_from).
    simpl. by rewrite decide_True.
  - rewrite decide_False by (intros [_ E]; congruence).
    by rewrite app_nil_r.
Qed.

(** ** The insertion loop *)

Lemma elem_of_ports_of cnt l p :
  p ∈ ports_of cnt l <-> p_eindex p ∈ l /\ p_port p < cnt (p_eindex p).
Proof.
  unfold ports_of. rewrite list_elem_of_join. split.
  - intros (ps & Hp & Hps). apply list_elem_of_fmap in Hps as (i & -> & Hi).
    apply list_elem_of_fmap in Hp as (j & -> & Hj). apply elem_of_seq in Hj.
    simpl. split; [done|lia].
  - intros [Hi Hj]. exists (mkPortT (p_eindex p) <$> seq 0 (cnt (p_eindex p))).
    split.
    + apply list_elem_of_fmap. exists (p_port p). split; [by destruct p|].
      apply elem_of_seq. lia.
    + apply list_elem_of_fmap. by exists (p_eindex p).
Qed.

Lemma NoDup_ports_of cnt l : NoDup l -> NoDup (ports_of cnt l).
Proof.
  induction 1 as [|i l Hi Hl IH]; [constructor|].
  unfold ports_of. rewrite fmap_cons. simpl. apply NoDup_app. split; [|split].
  - apply NoDup_fmap_2; [|apply NoDup_seq]. by intros ?? [=].
  - intros p Hp Hp'. apply list_elem_of_fmap in Hp as (j & -> & _).
    apply (elem_of_ports_of cnt l) in Hp' as [Hp' _]. done.
  - exact IH.
Qed.

Lemma foldl_ports_of {S} (f : S -> nat -> nat -> S) cnt l s :
  foldl (fun s i => foldl (fun s j => f s i j) s (seq 0 (cnt i))) s l
  = foldl (fun s p => f s (p_eindex p) (p_port p)) s (ports_of cnt l).
Proof.
  revert s; induction l as [|i l IH]; intros s; [done|].
  unfold ports_of. rewrite fmap_cons. simpl. rewrite foldl_app.
  fold (ports_of cnt l). rewrite <- IH. f_equal.
  by rewrite foldl_fmap.
Qed.

Lemma elem_of_snoc {A} (l : list A) x y : y ∈ l ++ [x] <-> y ∈ l \/ y = x.
Proof. by rewrite elem_of_app, list_elem_of_singleton. Qed.

Section insertion.
Variable r : RouterT.
Hypothesis r_wf : RouterT_wf r.
Variable needed : PortT -> bool.
Variable wanted : PortT -> Alignment.

Local Abbreviation step := (insert_step needed wanted).
Local Abbreviation visited := (inserted r needed wanted).

Lemma inserted_start a n : visited [] (mkRewrite r a n).
Proof.
  split; [done|]. split; [done|]. intros q Hq.
  rewrite decide_False; [done|]. intros [H _]. by apply elem_of_nil in H.
Qed.

Lemma inserted_step ps s p :
  p ∉ ps -> p_eindex p < nelements r ->
  visited ps s -> visited (ps ++ [p]) (step s p).
Proof.
  intros Hp Hpn (Hwf & Hn & Hq). unfold insert_step.
  destruct p as [pi pj]. cbn [p_eindex p_port] in *.
  destruct (needed (mkPortT pi pj)) eqn:Hneed.
  - unfold inserted. rewrite add_align_router.
    set (x := mkElementT _ _ _ _). set (r1 := rw_router s) in *.
    split; [apply with_align_wf; [done|simpl; lia]|].
    split; [rewrite with_align_nelements; lia|].
    intros q Hqn. specialize (Hq q Hqn).
    destruct (decide (q = mkPortT pi pj)) as [->|Hne].
    + rewrite decide_True by (split; [apply elem_of_snoc; by right|done]).
      rewrite decide_False in Hq by (intros [? _]; done).
      exists (nelements r1), (e_name x). split; [done|]. split; [|split; [|split]].
      * rewrite with_align_elements. unfold nelements.
        by rewrite lookup_app_r, Nat.sub_diag.
      * rewrite with_align_to by (done || (simpl; lia)). by rewrite decide_True.
      * rewrite with_align_to by (done || (simpl; lia)).
        rewrite decide_False by (intros [=]; simpl in *; lia).
        by rewrite decide_True.
      * rewrite with_align_from by done. by rewrite decide_True.
    + destruct (decide (q ∈ ps /\ needed q = true)) as [Hin|Hnin].
      * rewrite decide_True by (split; [apply elem_of_snoc; left; tauto|tauto]).
        destruct Hq as (e & name & He & Hlook & Hto & Hup & Hdown).
        assert (e < nelements r1) as Hlt by (by eapply lookup_lt_Some).
        exists e, name. split; [done|]. split; [|split; [|split]].
        -- rewrite with_align_elements. by apply lookup_app_l_Some.
        -- rewrite with_align_to by (done || (simpl; lia)).
           rewrite decide_False by done.
           rewrite decide_False by (intros E; rewrite E in *; simpl in *; lia). done.
        -- rewrite with_align_to by (done || (simpl; lia)).
           rewrite decide_False by (intros [=]; simpl in *; lia).
           rewrite decide_False by (intros [=]; lia). done.
        -- rewrite with_align_from by done.
           rewrite decide_False by (intros [=]; lia).
           rewrite Hdown. simpl. by rewrite decide_False.
      * rewrite decide_False
          by (intros [H ?]; apply Hnin; apply elem_of_snoc in H as [H|H]; [done|congruence]).
        rewrite with_align_to by (done || (simpl; lia)).
        rewrite decide_False by done.
        rewrite decide_False by (intros E; rewrite E in *; simpl in *; lia). done.
  - split; [done|]. split; [done|]. intros q Hqn. specialize (Hq q Hqn).
    destruct (decide (q ∈ ps /\ needed q = true)) as [Hin|Hnin].
    + rewrite decide_True by (split; [apply elem_of_snoc; left; tauto|tauto]). done.
    + rewrite decide_False; [done|]. intros [H ?]. apply Hnin.
      apply elem_of_app in H as [H|H]; [done|].
      apply list_elem_of_singleton in H as ->. congruence.
Qed.

Lemma inserted_foldl l ps s :
  NoDup (ps ++ l) -> (forall p, p ∈ l -> p_eindex p < nelements r) ->
  visited ps s -> visited (ps ++ l) (foldl step s l).
Proof.
  revert ps s; induction l as [|p l IH]; intros ps s Hnd Hl Hs; simpl.
  - by rewrite app_nil_r.
  - replace (ps ++ p :: l) with ((ps ++ [p]) ++ l) in * by (by rewrite <- app_assoc).
    apply IH; [done|intros; apply Hl; by right|].
    apply inserted_step; [|apply Hl; by left|done].
    apply NoDup_app in Hnd as (Hnd & _ & _).
    apply NoDup_app in Hnd as (_ & Hnd & _).
    intros Hin. apply (Hnd p Hin). by left.
Qed.
End insertion.

Lemma foldl_ext_eq {A B} (f g : A -> B -> A) (l : list B) a :
  (forall a b, f a b = g a b) -> foldl f a l = foldl g a l.
Proof.
  intros H. revert a; induction l as [|b l IH]; intros a; simpl; [done|].
  by rewrite H, IH.
Qed.

Lemma add_required_aligns_inserted ral want_ral r a n :
  RouterT_wf r ->
  (forall i, i < nelements r -> int_at (_icount ral) i = ninputs r i) ->
  inserted r (align_needed ral want_ral) (align_wanted ral want_ral)
    (ports_of (ninputs r) (seq 0 (nelements r)))
    (add_required_aligns ral want_ral (nelements r) (mkRewrite r a n)).
Proof.
  intros Hwf Hcnt. unfold add_required_aligns.
  rewrite (foldl_ports_of (fun s i j => add_required_align ral want_ral i j s)
             (fun i => int_at (_icount ral) i)).
  assert (ports_of (fun i => int_at (_icount ral) i) (seq 0 (nelements r))
          = ports_of (ninputs r) (seq 0 (nelements r))) as ->.
  { unfold ports_of. f_equal. apply list_fmap_ext. intros k i Hk.
    apply lookup_seq in Hk as [-> Hk]. simpl. by rewrite Hcnt. }
  erewrite foldl_ext_eq.
  - apply (inserted_foldl r (align_needed ral want_ral)
             (align_wanted ral want_ral) _ []).
    + simpl. apply NoDup_ports_of, NoDup_seq.
    + intros p Hp. apply elem_of_ports_of in Hp as [Hp _].
      apply elem_of_seq in Hp. lia.
    + by apply inserted_start.
  - intros s p.
    unfold add_required_align, insert_step, align_needed, align_wanted.
    by destruct (_ || _).
Qed.

Lemma RouterAlign_new_icount env r i :
  i < nelements r -> int_at (_icount (RouterAlign_new env r)) i = ninputs r i.
Proof. intros Hi. cbn. by apply int_at_fmap_seq. Qed.

Lemma RouterAlign_new_ocount env r i :
  i < nelements r -> int_at (_ocount (RouterAlign_new env r)) i = noutputs r i.
Proof. intros Hi. cbn. by apply int_at_fmap_seq. Qed.


(** ** Phase 4: one pass over the connections *)

Lemma conn_at_app_l r l i :
  i < length (r_conn r) ->
  conn_at (mkRouterT (r_elements r) (r_conn r ++ l)) i = conn_at r i.
Proof. intros Hi. unfold conn_at. cbn. by rewrite lookup_app_l. Qed.

Lemma conn_at_lookup r i c : r_conn r !! i = Some c -> conn_at r i = c.
Proof. intros H. unfold conn_at. by rewrite H. Qed.

Lemma add_connections_conn i ds r :
  i < length (r_conn r) ->
  foldl (fun r d => add_connection (c_from (conn_at r i)) d r) r ds
  = mkRouterT (r_elements r)
      (r_conn r ++ (mkConnectionT true (c_from (conn_at r i)) <$> ds)).
Proof.
  revert r; induction ds as [|d ds IH]; intros r Hi; simpl.
  - rewrite app_nil_r. by destruct r.
  - rewrite IH by (unfold add_connection; cbn; rewrite length_app; lia).
    unfold add_connection at 1 2 3. cbn [r_conn r_elements].
    rewrite conn_at_app_l by done. by rewrite <- app_assoc.
Qed.

Lemma is_class_elements r r' i class :
  r_elements r' = r_elements r -> is_class r' i class = is_class r i class.
Proof. intros H. unfold is_class, etype_name. by rewrite H. Qed.

Lemma redundant_elements ral r r' c :
  r_elements r' = r_elements r -> redundant ral r' c = redundant ral r c.
Proof. intros H. unfold redundant. by rewrite (is_class_elements r r'). Qed.

Lemma is_redundant_elements ral r r' c :
  r_elements r' = r_elements r -> is_redundant ral r' c = is_redundant ral r c.
Proof. intros H. unfold is_redundant. by rewrite (redundant_elements ral r r'). Qed.

Lemma is_redundant_true ral r c :
  is_redundant ral r c = true <-> redundant ral r c = Some true.
Proof.
  unfold is_redundant. destruct (redundant ral r c) as [[]|]; cbn; split;
    congruence.
Qed.

Lemma skip_redundant_aligns_upto_S ral k r :
  skip_redundant_aligns_upto ral (S k) r
  = skip_redundant_aligns_upto ral k r ≫= skip_redundant_align ral k.
Proof.
  unfold skip_redundant_aligns_upto. by rewrite seq_S, foldl_app.
Qed.


Lemma killed_upto_length ral r k : length (killed_upto ral r k) = length (r_conn r).
Proof. apply length_imap. Qed.

Lemma killed_upto_lookup ral r k i :
  killed_upto ral r k !! i
  = (fun c => if bool_decide (i < k) && is_redundant ral r c then killed c else c)
      <$> r_conn r !! i.
Proof. apply list_lookup_imap. Qed.

Lemma killed_upto_0 ral r : killed_upto ral r 0 = r_conn r.
Proof.
  apply list_eq. intros i. rewrite killed_upto_lookup.
  by destruct (r_conn r !! i).
Qed.

Lemma killed_upto_S ral r k :
  killed_upto ral r (S k)
  = if is_redundant ral r (conn_at r k) then alter killed k (killed_upto ral r k)
    else killed_upto ral r k.
Proof.
  apply list_eq. intros i.
  assert (forall j, (if is_redundant ral r (conn_at r k)
                     then alter killed k (killed_upto ral r k)
                     else killed_upto ral r k) !! j
                    = if decide (j = k /\ is_redundant ral r (conn_at r k) = true)
                      then killed <$> killed_upto ral r k !! j
                      else killed_upto ral r k !! j) as ->.
  { intros j. destruct (is_redundant ral r (conn_at r k)) eqn:E.
    - case_decide as Hj.
      + destruct Hj as [-> _]. apply list_lookup_alter_eq.
      + apply list_lookup_alter_ne. intros <-. by apply Hj.
    - by rewrite decide_False by (by intros [_ ?]). }
  rewrite !killed_upto_lookup.
  destruct (r_conn r !! i) as [c|] eqn:Hc; [|by case_decide].
  rewrite <- (conn_at_lookup r i c Hc). simpl.
  case_decide as Hi.
  - destruct Hi as [-> Hred]. rewrite Hred.
    rewrite bool_decide_true by lia. rewrite bool_decide_false by lia. done.
  - destruct (decide (i = k)) as [->|Hne].
    + destruct (is_redundant ral r (conn_at r k)); [exfalso; by apply Hi|].
      by rewrite !andb_false_r.
    + destruct (decide (i < k)).
      * by rewrite !bool_decide_true by lia.
      * by rewrite !bool_decide_false by lia.
Qed.


(** What the first [k] turns of the pass have done, when they give a
    result: every test read inside the vectors. *)
Lemma skip_redundant_aligns_upto_spec ral r k s :
  k <= length (r_conn r) ->
  skip_redundant_aligns_upto ral k r = Some s ->
  exists extra,
    r_elements s.1 = r_elements r
    /\ r_conn s.1 = killed_upto ral r k ++ extra
    /\ s.2 = existsb (is_redundant ral r) (take k (r_conn r))
    /\ (s.2 = false -> extra = [])
    /\ (forall i, i < k -> is_Some (redundant ral r (conn_at r i)))
    /\ (forall i d si, i < k -> is_redundant ral r (conn_at r i) = true ->
          skip_redundant_aligns_upto ral i r = Some si ->
          d ∈ find_connections_from si.1 (c_to (conn_at r i)) ->
          mkConnectionT true (c_from (conn_at r i)) d ∈ extra).
Proof.
  revert s. induction k as [|k IH]; intros s Hk Hs.
  - exists []. cbn in Hs. injection Hs as <-. cbn [fst snd take existsb].
    rewrite app_nil_r, killed_upto_0.
    repeat split; try done; intros; lia.
  - rewrite skip_redundant_aligns_upto_S in Hs.
    destruct (skip_redundant_aligns_upto ral k r) as [[rk ch]|] eqn:Hupto;
      [|discriminate].
    destruct (IH _ ltac:(lia) eq_refl) as (extra & He & Hc & Hf & Hnil & Hdef & Hadd).
    cbn [fst snd mbind option_bind] in *.
    destruct (lookup_lt_is_Some_2 (r_conn r) k ltac:(lia)) as [ck Hck].
    assert (conn_at rk k = ck) as Hat.
    { unfold conn_at. rewrite Hc, lookup_app_l by (rewrite killed_upto_length; lia).
      rewrite killed_upto_lookup, Hck. simpl.
      by rewrite bool_decide_false by lia. }
    assert (existsb (is_redundant ral r) (take (S k) (r_conn r))
            = existsb (is_redundant ral r) (take k (r_conn r))
              || is_redundant ral r ck)
      as Hex.
    { rewrite (take_S_r _ _ _ Hck), existsb_app. simpl. by rewrite orb_false_r. }
    unfold skip_redundant_align in Hs. cbn [fst snd] in Hs. rewrite Hat in Hs.
    rewrite (redundant_elements ral r rk) in Hs by done.
    rewrite killed_upto_S, (conn_at_lookup r k ck Hck), Hex.
    change (is_redundant ral r ck) with (default false (redundant ral r ck)).
    assert (forall i, i < S k -> is_Some (redundant ral r (conn_at r i))) as Hdef'.
    { intros i Hi. destruct (decide (i = k)) as [->|Hne]; [|apply Hdef; lia].
      rewrite (conn_at_lookup r k ck Hck).
      by destruct (redundant ral r ck). }
    destruct (redundant ral r ck) as [[]|] eqn:Hred;
      cbn [mbind option_bind default] in *; [| |discriminate];
      injection Hs as <-; cbn [fst snd].
    + rewrite add_connections_conn
        by (rewrite Hc, length_app, killed_upto_length; lia).
      rewrite Hat.
      exists (extra ++ (mkConnectionT true (c_from ck)
                          <$> find_connections_from rk (c_to ck))).
      split; [done|]. split.
      { unfold kill_connection. cbn [r_conn r_elements]. rewrite Hc.
        rewrite <- app_assoc.
        rewrite (alter_app_l _ (killed_upto ral r k))
          by (rewrite killed_upto_length; lia).
        done. }
      split; [by rewrite orb_true_r|]. split; [done|]. split; [done|].
      intros i d si Hi Hri Hsi Hd. apply elem_of_app.
      destruct (decide (i = k)) as [->|Hne].
      * right. rewrite Hupto in Hsi. injection Hsi as <-. cbn [fst] in Hd.
        rewrite (conn_at_lookup r k ck Hck) in *.
        apply list_elem_of_fmap. by exists d.
      * left. eapply Hadd; [lia|done..].
    + exists extra. rewrite orb_false_r.
      repeat split; try done.
      intros i d si Hi Hri Hsi Hd. destruct (decide (i = k)) as [->|Hne].
      * rewrite (conn_at_lookup r k ck Hck) in Hri.
        apply is_redundant_true in Hri. congruence.
      * eapply Hadd; [lia|done..].
Qed.


Lemma remove_redundant_aligns_S env hfuel f r ral r' changed :
  have_loop env hfuel (RouterAlign_new env r) = Some ral ->
  skip_redundant_aligns ral r = Some (r', changed) ->
  remove_redundant_aligns env hfuel (S f) r
  = if changed
    then remove_redundant_aligns env hfuel f (remove_duplicate_connections r')
    else Some r'.
Proof.
  intros H Hs. cbn [remove_redundant_aligns]. rewrite H. cbn [mbind option_bind].
  by rewrite Hs.
Qed.

(** ** Phase 2: the inner loops *)

Lemma applied_upto_0 g l : applied_upto g 0 l = l.
Proof.
  apply list_eq. intros i. unfold applied_upto. rewrite list_lookup_imap.
  by destruct (l !! i).
Qed.

Lemma applied_upto_all g l : applied_upto g (length l) l = g <$> l.
Proof.
  apply list_eq. intros i. unfold applied_upto.
  rewrite list_lookup_imap, list_lookup_fmap.
  destruct (l !! i) as [c|] eqn:Hc; [|done]. simpl.
  by rewrite bool_decide_true by (by eapply lookup_lt_Some).
Qed.

Lemma applied_upto_lookup g k l i :
  applied_upto g k l !! i
  = (fun c => if bool_decide (i < k) then g c else c) <$> l !! i.
Proof. apply list_lookup_imap. Qed.

Lemma applied_upto_S g k l :
  alter g k (applied_upto g k l) = applied_upto g (S k) l.
Proof.
  apply list_eq. intros i. rewrite list_lookup_alter, !applied_upto_lookup.
  case_decide as Hi.
  - subst i. destruct (l !! k); [|done]. simpl.
    rewrite bool_decide_false by lia. by rewrite bool_decide_true by lia.
  - destruct (l !! i); [|done]. simpl.
    destruct (decide (i < k)).
    + by rewrite !bool_decide_true by lia.
    + by rewrite !bool_decide_false by lia.
Qed.

(** A loop over the connections whose turn [k] applies [g] to connection
    [k] applies [g] to all of them. *)
Lemma foldl_connections (step : RouterT -> nat -> RouterT)
    (g : ConnectionT -> ConnectionT) r :
  (forall k rk, k < length (r_conn r) ->
     r_elements rk = r_elements r ->
     r_conn rk = applied_upto g k (r_conn r) ->
     step rk k = mkRouterT (r_elements rk) (alter g k (r_conn rk))) ->
  foldl step r (seq 0 (length (r_conn r)))
  = mkRouterT (r_elements r) (g <$> r_conn r).
Proof.
  intros Hstep.
  assert (forall k, k <= length (r_conn r) ->
            foldl step r (seq 0 k)
            = mkRouterT (r_elements r) (applied_upto g k (r_conn r))) as H.
  { induction k as [|k IH]; intros Hk.
    - simpl. rewrite applied_upto_0. by destruct r.
    - rewrite seq_S, foldl_app, IH by lia. simpl.
      rewrite Hstep by (done || lia). cbn [r_elements r_conn].
      by rewrite applied_upto_S. }
  rewrite H by lia. by rewrite applied_upto_all.
Qed.

Lemma conn_at_applied_upto g k r rk i c :
  r_conn r !! i = Some c ->
  r_conn rk = applied_upto g k (r_conn r) ->
  conn_at rk i = if bool_decide (i < k) then g c else c.
Proof.
  intros Hc Hrk. unfold conn_at. by rewrite Hrk, applied_upto_lookup, Hc.
Qed.

Lemma alter_at {A} (f g : A -> A) (l : list A) i :
  (forall x, l !! i = Some x -> f x = g x) -> alter f i l = alter g i l.
Proof.
  intros H. apply list_eq. intros j.
  destruct (decide (i = j)) as [<-|Hne].
  - rewrite !list_lookup_alter_eq. destruct (l !! i) eqn:E; [|done].
    simpl. by rewrite H.
  - by rewrite !list_lookup_alter_ne.
Qed.

Lemma alter_keep {A} (g : A -> A) (l : list A) i :
  (forall x, l !! i = Some x -> g x = x) -> alter g i l = l.
Proof.
  intros H. apply list_eq. intros j.
  destruct (decide (i = j)) as [<-|Hne].
  - rewrite list_lookup_alter_eq. destruct (l !! i) eqn:E; [|done].
    simpl. by rewrite H.
  - by rewrite list_lookup_alter_ne.
Qed.

Lemma redirect_to_ends old h c :
  c_from (redirect_to old h c) = c_from c
  /\ (c_to c = h -> c_to (redirect_to old h c) = h)
  /\ (c_to c <> old -> redirect_to old h c = c).
Proof.
  unfold redirect_to, PortT_eqb. case_bool_decide; simpl; repeat split; try done.
Qed.

Lemma redirect_from_ends at_port h c :
  c_to (redirect_from at_port h c) = c_to c.
Proof. unfold redirect_from, PortT_eqb. by case_bool_decide. Qed.

(** The first inner loop (click-align.cc, 530-532). *)
Lemma redirect_to_loop r i c :
  r_conn r !! i = Some c ->
  foldl (fun r j =>
           if PortT_eqb (c_to (conn_at r j)) (c_from (conn_at r i))
           then change_connection_to j (c_to (conn_at r i)) r
           else r)
    r (seq 0 (length (r_conn r)))
  = mkRouterT (r_elements r) (redirect_to (c_from c) (c_to c) <$> r_conn r).
Proof.
  intros Hc. apply foldl_connections. intros k rk Hk He Hrk.
  destruct (lookup_lt_is_Some_2 (r_conn r) k Hk) as [ck Hck].
  assert (c_from (conn_at rk i) = c_from c /\ c_to (conn_at rk i) = c_to c)
    as [-> ->].
  { rewrite (conn_at_applied_upto _ k r rk i c Hc Hrk).
    case_bool_decide; [|done].
    unfold redirect_to, PortT_eqb. by case_bool_decide. }
  rewrite (conn_at_applied_upto _ k r rk k ck Hck Hrk).
  rewrite bool_decide_false by lia.
  assert (r_conn rk !! k = Some ck) as Hrkk.
  { rewrite Hrk, applied_upto_lookup, Hck. simpl.
    by rewrite bool_decide_false by lia. }
  unfold PortT_eqb. case_bool_decide as Hto.
  - unfold change_connection_to. f_equal. apply alter_at.
    intros x Hx. rewrite Hrkk in Hx. injection Hx as <-.
    unfold redirect_to, PortT_eqb. by rewrite bool_decide_true.
  - destruct rk as [es cs]. cbn [r_elements r_conn] in *. f_equal.
    symmetry. apply alter_keep. intros x Hx. rewrite Hrkk in Hx.
    injection Hx as <-. unfold redirect_to, PortT_eqb.
    by rewrite bool_decide_false.
Qed.

(** The second inner loop (click-align.cc, 534-536). *)
Lemma redirect_from_loop r i c a :
  r_conn r !! i = Some c ->
  foldl (fun r j =>
           if PortT_eqb (c_to (conn_at r j)) (c_to (conn_at r i))
           then change_connection_from j a r
           else r)
    r (seq 0 (length (r_conn r)))
  = mkRouterT (r_elements r) (redirect_from (c_to c) a <$> r_conn r).
Proof.
  intros Hc. apply foldl_connections. intros k rk Hk He Hrk.
  destruct (lookup_lt_is_Some_2 (r_conn r) k Hk) as [ck Hck].
  assert (c_to (conn_at rk i) = c_to c) as ->.
  { rewrite (conn_at_applied_upto _ k r rk i c Hc Hrk).
    case_bool_decide; [|done]. apply redirect_from_ends. }
  rewrite (conn_at_applied_upto _ k r rk k ck Hck Hrk).
  rewrite bool_decide_false by lia.
  assert (r_conn rk !! k = Some ck) as Hrkk.
  { rewrite Hrk, applied_upto_lookup, Hck. simpl.
    by rewrite bool_decide_false by lia. }
  unfold PortT_eqb. case_bool_decide as Hto.
  - unfold change_connection_from. f_equal. apply alter_at.
    intros x Hx. rewrite Hrkk in Hx. injection Hx as <-.
    unfold redirect_from, PortT_eqb. by rewrite bool_decide_true.
  - destruct rk as [es cs]. cbn [r_elements r_conn] in *. f_equal.
    symmetry. apply alter_keep. intros x Hx. rewrite Hrkk in Hx.
    injection Hx as <-. unfold redirect_from, PortT_eqb.
    by rewrite bool_decide_false.
Qed.

Lemma redirect_to_leaves old h l :
  h <> old ->
  filter (fun c => c_live c = true /\ c_to c = old) (redirect_to old h <$> l)
  = [].
Proof.
  intros Hne. induction l as [|c l IH]; [done|].
  rewrite fmap_cons, filter_cons, IH.
  rewrite decide_False; [done|]. intros [_ Hto]. revert Hto.
  unfold redirect_to, PortT_eqb. case_bool_decide; simpl; congruence.
Qed.

(** C5, as amended: a turn of phase 2 changes no element and neither adds
    nor removes a connection.  At a live connection from an Align to an
    Align: if the port of the upstream Align has exactly one consumer,
    every connection that ends at that port is sent to the input of the
    downstream Align, and no connection is left into that port of the
    upstream Align (when the connection is not from a port to itself);
    else if the upstream Align has exactly one producer, every connection
    from the port of the upstream Align into the input of the downstream
    Align is made to start from that producer, and a connection that does
    not end at that input is left as it was; else nothing changes.  At any
    other connection nothing changes. *)
Theorem duplicate_align_step (r : RouterT) (i : nat) (c : ConnectionT) :
  r_conn r !! i = Some c ->
  let r' := remove_duplicate_align (length (r_conn r)) i r in
  let above := find_connections_to r (c_from c) in
  let below := find_connections_from r (c_from c) in
  r_elements r' = r_elements r
  /\ length (r_conn r') = length (r_conn r)
  /\ (duplicate_align r c = false -> r' = r)
  /\ (duplicate_align r c = true ->
      (length below = 1 ->
       r_conn r' = redirect_to (c_from c) (c_to c) <$> r_conn r
       /\ (c_to c <> c_from c -> find_connections_to r' (c_from c) = []))
      /\ (length below <> 1 -> forall a, above = [a] ->
          forall j cj, r_conn r !! j = Some cj ->
            (c_to cj <> c_to c -> r_conn r' !! j = Some cj)
            /\ (c_to cj = c_to c -> c_from cj = c_from c ->
                r_conn r' !! j = Some (mkConnectionT (c_live cj) a (c_to c))))
      /\ (length below <> 1 -> length above <> 1 -> r' = r)).
Proof.
  intros Hc r' above below. subst r' above below.
  unfold remove_duplicate_align.
  rewrite (conn_at_lookup r i c Hc).
  change (c_live c && is_class r (p_eindex (c_to c)) "Align"
          && is_class r (p_eindex (c_from c)) "Align")
    with (duplicate_align r c).
  destruct (duplicate_align r c).
  - case_bool_decide as Hb.
    + rewrite (redirect_to_loop r i c Hc). cbn [r_elements r_conn].
      split; [done|]. split; [by rewrite length_fmap|]. split; [done|].
      intros _. split; [|split; intros; done].
      intros _. split; [done|]. intros Hne. unfold find_connections_to.
      cbn [r_conn]. by rewrite redirect_to_leaves.
    + case_bool_decide as Ha.
      * destruct (find_connections_to r (c_from c)) as [|a [|]] eqn:Hab;
          try done.
        simpl. rewrite (redirect_from_loop r i c a Hc). cbn [r_elements r_conn].
        split; [done|]. split; [by rewrite length_fmap|]. split; [done|].
        intros _. split; [done|]. split; [|done].
        intros _ a' [= <-] j cj Hj.
        rewrite list_lookup_fmap, Hj. cbn [fmap option_fmap option_map].
        unfold redirect_from, PortT_eqb.
        split.
        -- intros Hne. by rewrite bool_decide_false.
        -- intros Hto _. by rewrite bool_decide_true, Hto.
      * split; [done|]. split; [done|]. split; [done|]. intros _.
        split; [done|]. split; [|done].
        intros _ a Hab. rewrite Hab in Ha. done.
  - repeat split; done.
Qed.

(** ** Counting the Align elements *)

Lemma foldl_preserves {S A B} (f : S -> A -> S) (m : S -> B) (l : list A) s :
  (forall s a, m (f s a) = m s) -> m (foldl f s l) = m s.
Proof.
  intros H. revert s; induction l as [|a l IH]; intros s; simpl; [done|].
  by rewrite IH, H.
Qed.

Lemma add_align_balance want i j s :
  aligns_balance (add_align want i j s) = aligns_balance s.
Proof.
  unfold aligns_balance, count_aligns. rewrite add_align_router, with_align_elements.
  cbn [add_align get_element rw_num_aligns_added snd].
  rewrite filter_app, length_app, filter_cons, filter_nil.
  rewrite decide_True by done. simpl. lia.
Qed.

Lemma add_required_aligns_balance ral want_ral n s :
  aligns_balance (add_required_aligns ral want_ral n s) = aligns_balance s.
Proof.
  unfold add_required_aligns. apply foldl_preserves. intros s0 i.
  apply foldl_preserves. intros s1 j. unfold add_required_align.
  destruct (_ || _); [done|]. apply add_align_balance.
Qed.

Lemma remove_duplicate_align_elements nhook i r :
  r_elements (remove_duplicate_align nhook i r) = r_elements r.
Proof.
  unfold remove_duplicate_align.
  destruct (_ && _); [|done].
  repeat case_bool_decide; try done.
  - apply (foldl_preserves _ r_elements). intros r0 j. by destruct (PortT_eqb _ _).
  - apply (foldl_preserves _ r_elements). intros r0 j. by destruct (PortT_eqb _ _).
Qed.

Lemma remove_duplicate_aligns_elements r :
  r_elements (remove_duplicate_aligns r) = r_elements r.
Proof.
  unfold remove_duplicate_aligns. apply (foldl_preserves _ r_elements).
  intros r0 i. apply remove_duplicate_align_elements.
Qed.

Lemma skip_redundant_aligns_elements ral r s :
  skip_redundant_aligns ral r = Some s -> r_elements s.1 = r_elements r.
Proof.
  unfold skip_redundant_aligns. intros Hs.
  by destruct (skip_redundant_aligns_upto_spec ral r (length (r_conn r)) s
                 ltac:(lia) Hs)
    as (extra & He & _).
Qed.

Lemma remove_redundant_aligns_elements env hfuel fuel r r' :
  remove_redundant_aligns env hfuel fuel r = Some r' ->
  r_elements r' = r_elements r.
Proof.
  revert r; induction fuel as [|f IH]; intros r; [discriminate|].
  cbn [remove_redundant_aligns].
  destruct (have_loop env hfuel (RouterAlign_new env r)) as [ral|]; [|discriminate].
  cbn [mbind option_bind].
  destruct (skip_redundant_aligns ral r) as [[r1 ch]|] eqn:Hs; [|discriminate].
  apply skip_redundant_aligns_elements in Hs as He. cbn [fst] in He.
  cbn [mbind option_bind]. destruct ch.
  - intros H. apply IH in H. by rewrite H.
  - by intros [= <-].
Qed.

Lemma count_kill (f : ElementT -> ElementT) l i e :
  l !! i = Some e ->
  ~ (e_live (f e) = true /\ e_type (f e) = "Align") ->
  length (filter (fun e => e_live e = true /\ e_type e = "Align") (alter f i l))
  + (if decide (e_live e = true /\ e_type e = "Align") then 1 else 0)
  = length (filter (fun e => e_live e = true /\ e_type e = "Align") l).
Proof.
  revert i; induction l as [|x l IH]; intros i Hi Hf; [done|].
  destruct i as [|i]; simpl in *.
  - injection Hi as ->. rewrite !filter_cons.
    rewrite decide_False by done.
    destruct (decide (e_live e = true /\ e_type e = "Align")); simpl; lia.
  - specialize (IH i Hi Hf). rewrite !filter_cons.
    destruct (decide (e_live x = true /\ e_type x = "Align")); simpl;
      [f_equal|]; exact IH.
Qed.

Lemma kill_element_count r i e :
  r_elements r !! i = Some e ->
  count_aligns (kill_element i r)
  + (if decide (e_live e = true /\ e_type e = "Align") then 1 else 0)
  = count_aligns r.
Proof.
  intros He. unfold count_aligns, kill_element. cbn [r_elements].
  apply (count_kill _ _ _ _ He). simpl. by intros [? _].
Qed.

Lemma remove_unused_align_balance i s :
  aligns_balance (remove_unused_align i s) = aligns_balance s.
Proof.
  unfold remove_unused_align, element_live, is_class, etype_name.
  destruct (r_elements (rw_router s) !! i) as [e|] eqn:He; [|done].
  destruct (e_live e) eqn:Hl; [|done].
  pose proof (kill_element_count _ _ _ He) as Hk.
  case_bool_decide as Ha; cbn [andb].
  - destruct (_ || _).
    + unfold aligns_balance. cbn [rw_router rw_num_aligns_added].
      rewrite decide_True in Hk by done. lia.
    + case_bool_decide; [congruence|done].
  - case_bool_decide; [|done].
    unfold aligns_balance. cbn [rw_router rw_num_aligns_added].
    rewrite decide_False in Hk by (by intros [_ ?]). lia.
Qed.

Lemma remove_dead_elements_count r :
  count_aligns (remove_dead_elements r) = count_aligns r.
Proof.
  unfold count_aligns, remove_dead_elements. cbn [r_elements].
  rewrite list_filter_filter. f_equal. apply list_filter_iff. tauto.
Qed.

Lemma remove_unused_aligns_balance s :
  aligns_balance (remove_unused_aligns s) = aligns_balance s.
Proof.
  unfold remove_unused_aligns.
  rewrite <- (foldl_preserves (fun s i => remove_unused_align i s) aligns_balance
                (seq 0 (nelements (rw_router s))) s)
    by (intros; apply remove_unused_align_balance).
  unfold aligns_balance at 1 2. cbn [rw_router rw_num_aligns_added].
  by rewrite remove_dead_elements_count.
Qed.

Lemma make_alignment_info_count env fuel r r6 :
  make_alignment_info env fuel r = Some r6 -> count_aligns r6 = count_aligns r.
Proof.
  unfold make_alignment_info.
  destruct (have_loop env fuel (RouterAlign_new env r)) as [ral|]; [|discriminate].
  cbn [mbind option_bind]. case_bool_decide; intros [= <-]; [done|].
  unfold count_aligns. cbn [get_element fst r_elements].
  rewrite filter_app, length_app, filter_cons, filter_nil.
  rewrite decide_False by (by intros [_ [=]]). simpl. lia.
Qed.

(** C8: when [main] comes to its end, [num_aligns_added] is the number of
    Align elements of the router after phases 1 to 5 minus the number of
    Align elements of the router it was given (phase 6 adds no Align), and
    the warning is given exactly when the counter is positive. *)
Theorem num_aligns_added_counts (env : AlignEnv) (fuel : nat)
    (router r6 : RouterT) (num_aligns_added : Z) (warned : bool) :
  click_align env fuel router = Some (r6, num_aligns_added, warned) ->
  exists s,
    rewrite_aligns env fuel router = Some s
    /\ rw_num_aligns_added s = num_aligns_added
    /\ num_aligns_added
       = (Z.of_nat (count_aligns (rw_router s)) - Z.of_nat (count_aligns router))%Z
    /\ count_aligns r6 = count_aligns (rw_router s)
    /\ (warned = true <-> (0 < num_aligns_added)%Z).
Proof.
  unfold click_align. intros H.
  destruct (rewrite_aligns env fuel router) as [s|] eqn:Hs; [|discriminate].
  cbn [mbind option_bind] in H.
  destruct (make_alignment_info env fuel (rw_router s)) as [r6'|] eqn:H6;
    [|discriminate].
  cbn [mbind option_bind] in H. injection H as -> <- <-.
  exists s. split; [done|]. split; [done|].
  split; [|split; [by eapply make_alignment_info_count|by rewrite Z.ltb_lt]].
  unfold rewrite_aligns, insert_aligns in Hs.
  destruct (skip_used_names fuel router _) as [a|]; [|discriminate].
  cbn [mbind option_bind] in Hs.
  destruct (add_aligns_for_required env fuel (nelements router)
              (mkRewrite router a 0)) as [s1|] eqn:H1; [|discriminate].
  cbn [mbind option_bind] in Hs.
  destruct (add_aligns_for_adjustment env fuel (nelements router) _)
    as [s3|] eqn:H3; [|discriminate].
  cbn [mbind option_bind] in Hs.
  destruct (remove_redundant_aligns env fuel fuel (rw_router s3))
    as [r4|] eqn:H4; [|discriminate].
  cbn [mbind option_bind] in Hs. injection Hs as <-.
  (* phase 1 *)
  unfold add_aligns_for_required in H1.
  destruct (have_loop env fuel _) as [ral|]; [|discriminate].
  destruct (want_loop env fuel _) as [want_ral|]; [|discriminate].
  cbn [mbind option_bind] in H1. injection H1 as <-.
  pose proof (add_required_aligns_balance ral want_ral (nelements router)
                (mkRewrite router a 0)) as B1.
  (* phase 3 *)
  unfold add_aligns_for_adjustment in H3.
  destruct (have_loop env fuel _) as [ral3|]; [|discriminate].
  cbn [mbind option_bind] in H3. injection H3 as <-.
  match type of H4 with
  | context [add_required_aligns ral3 ?w ?n ?s2] =>
      pose proof (add_required_aligns_balance ral3 w n s2) as B3
  end.
  (* phase 4 *)
  apply remove_redundant_aligns_elements in H4.
  (* phase 5 *)
  rewrite <- (Z.sub_0_r (Z.of_nat (count_aligns router))).
  change (Z.of_nat (count_aligns router) - 0)%Z
    with (aligns_balance (mkRewrite router a 0)).
  rewrite <- B1.
  match goal with
  | |- context [remove_unused_aligns ?s4] =>
      pose proof (remove_unused_aligns_balance s4) as B5
  end.
  unfold aligns_balance in B1, B3, B5 |- *.
  cbn [rw_router rw_num_aligns_added] in B3, B5 |- *.
  unfold count_aligns in *. rewrite H4 in B5.
  rewrite remove_duplicate_aligns_elements in B3.
  lia.
Qed.

(** ** Phase 6: the text of the AlignmentInfo element *)

Lemma append_cons c (a b : string) : String c a +:+ b = String c (a +:+ b).
Proof. reflexivity. Qed.

Lemma append_nil_r (s : string) : s +:+ EmptyString = s.
Proof. induction s as [|c s IH]; [done|]. by rewrite append_cons, IH. Qed.

Lemma append_assoc (a b c : string) : (a +:+ b) +:+ c = a +:+ b +:+ c.
Proof. induction a as [|x a IH]; [done|]. by rewrite !append_cons, IH. Qed.

Lemma length_append (a b : string) :
  String.length (a +:+ b) = String.length a + String.length b.
Proof.
  induction a as [|x a IH]; [done|]. rewrite append_cons.
  cbn [String.length]. by rewrite IH.
Qed.

Lemma length_0_empty (s : string) : String.length s = 0 <-> s = EmptyString.
Proof. by destruct s. Qed.

Lemma append_empty (a b : string) : a <> EmptyString -> a +:+ b <> EmptyString.
Proof. by destruct a. Qed.

Lemma accumulate_from sa ts :
  sa <> EmptyString ->
  accumulate sa ts = sa +:+ append_all ((fun t => entry_separator +:+ t) <$> ts).
Proof.
  revert sa; induction ts as [|t ts IH]; intros sa Hsa.
  - simpl. by rewrite append_nil_r.
  - unfold accumulate. cbn [foldl]. fold (accumulate ((if bool_decide (String.length sa = 0) then sa else sa +:+ entry_separator) +:+ t) ts).
    rewrite bool_decide_false by (by rewrite length_0_empty).
    rewrite IH by (by apply append_empty, append_empty).
    rewrite fmap_cons. cbn [append_all]. by rewrite !append_assoc.
Qed.

Lemma accumulate_separated ts :
  Forall (fun t => t <> EmptyString) ts -> accumulate EmptyString ts = separated ts.
Proof.
  intros Hts. destruct ts as [|t ts]; [done|].
  apply Forall_cons in Hts as [Ht Hts].
  unfold accumulate. cbn [foldl]. fold (accumulate (EmptyString +:+ t) ts).
  change (EmptyString +:+ t) with t. by rewrite accumulate_from.
Qed.

Lemma render_pairs_foldl (f : nat -> Alignment) sa js :
  foldl (fun sa j => sa +:+ "  " +:+ String_of_int (chunk (f j)) +:+ " "
                        +:+ String_of_int (offset (f j)))
    sa js
  = sa +:+ append_all (render_pair <$> ((fun j => (chunk (f j), offset (f j))) <$> js)).
Proof.
  revert sa; induction js as [|j js IH]; intros sa.
  - simpl. by rewrite append_nil_r.
  - cbn [foldl]. rewrite IH. rewrite !fmap_cons. cbn [append_all].
    unfold render_pair at 2. cbn [fst snd]. by rewrite !append_assoc.
Qed.

Lemma append_empty_r (a b : string) : b <> EmptyString -> a +:+ b <> EmptyString.
Proof.
  intros Hb E. apply Hb, length_0_empty.
  apply (f_equal String.length) in E. rewrite length_append in E. simpl in E. lia.
Qed.

Lemma foldl_filter_fmap {S A B} (g : S -> B -> S) (p : A -> bool) (t : A -> B)
    (l : list A) s :
  foldl (fun s a => if p a then g s (t a) else s) s l
  = foldl g s (t <$> List.filter p l).
Proof.
  revert s; induction l as [|a l IH]; intros s; simpl; [done|].
  destruct (p a); simpl; by rewrite IH.
Qed.

Lemma alignment_info_step_spec env ral r sa i :
  int_at (_icount ral) i = ninputs r i ->
  alignment_info_step env ral r sa i
  = if alignment_sensitive env r i
    then (if bool_decide (String.length sa = 0) then sa
          else sa +:+ entry_separator)
         +:+ render_entry (alignment_info_entry ral r i)
    else sa.
Proof.
  intros Hcnt. unfold alignment_info_step, alignment_sensitive, alignment_info_entry.
  destruct (r_elements r !! i) as [x|]; [|done].
  destruct (_ && _); [|done].
  rewrite (render_pairs_foldl
             (fun j => align_at (_ialign ral) (int_at (_ioffset ral) i + j))).
  rewrite Hcnt. unfold render_entry. cbn [fst snd].
  by rewrite !append_assoc.
Qed.

Lemma render_entry_nonempty ral r i :
  ninputs r i <> 0 -> render_entry (alignment_info_entry ral r i) <> EmptyString.
Proof.
  intros Hn. unfold render_entry, alignment_info_entry. cbn [fst snd].
  apply append_empty_r. destruct (ninputs r i) as [|n]; [done|].
  simpl. unfold render_pair at 1. done.
Qed.

Lemma foldl_ext_in_seq {S} (f g : S -> nat -> S) n s :
  (forall s i, i < n -> f s i = g s i) ->
  foldl f s (seq 0 n) = foldl g s (seq 0 n).
Proof.
  intros H. induction n as [|n IH] in H |- *; [done|].
  rewrite seq_S, !foldl_app. simpl. rewrite IH by (intros; apply H; lia).
  apply H. lia.
Qed.

Lemma alignment_info_text_spec env ral r :
  same_shape (RouterAlign_new env r) ral ->
  alignment_info_text env ral r = render_entries (alignment_info_entries env ral r).
Proof.
  intros (_ & Hic & _). unfold alignment_info_text.
  rewrite (foldl_ext_in_seq (alignment_info_step env ral r)
             (fun sa i =>
                if alignment_sensitive env r i
                then (if bool_decide (String.length sa = 0) then sa
                      else sa +:+ entry_separator)
                     +:+ render_entry (alignment_info_entry ral r i)
                else sa)).
  - rewrite (foldl_filter_fmap
               (fun sa t => (if bool_decide (String.length sa = 0) then sa
                             else sa +:+ entry_separator) +:+ t)
               (alignment_sensitive env r)
               (fun i => render_entry (alignment_info_entry ral r i))).
    fold (accumulate EmptyString ((fun i => render_entry (alignment_info_entry ral r i))
                           <$> List.filter (alignment_sensitive env r)
                                 (seq 0 (nelements r)))).
    rewrite accumulate_separated.
    + unfold render_entries, alignment_info_entries. by rewrite <- list_fmap_compose.
    + apply Forall_fmap, Forall_forall. intros i Hi.
      apply list_elem_of_In, filter_In in Hi as [_ Hs]. simpl.
      apply render_entry_nonempty. unfold alignment_sensitive in Hs.
      destruct (r_elements r !! i); [|done].
      apply andb_true_iff in Hs as [Hs _]. apply andb_true_iff in Hs as [_ Hs].
      by apply negb_true_iff, bool_decide_eq_false in Hs.
  - intros sa i Hi. apply alignment_info_step_spec.
    rewrite <- Hic. by apply RouterAlign_new_icount.
Qed.

Lemma separated_empty ts :
  Forall (fun t => t <> EmptyString) ts -> String.length (separated ts) = 0 <-> ts = [].
Proof.
  intros Hts. destruct ts as [|t ts]; [done|].
  apply Forall_cons in Hts as [Ht _]. split; [|done].
  intros H. apply length_0_empty in H. simpl in H. by apply append_empty in H.
Qed.

(** C9, as amended: after a converged forward loop the text phase 6 collects
    is the list of exactly the elements that have an input and whose class
    has the flag [A], each with the chunk and the offset it has at every one
    of its input ports; an AlignmentInfo element carrying the list is added
    to the router when the list is not empty, and the router is left as it
    is when the list is empty. *)
Theorem alignment_info_made (env : AlignEnv) (fuel : nat) (r : RouterT)
    (ral : RouterAlign) :
  have_loop env fuel (RouterAlign_new env r) = Some ral ->
  let entries := alignment_info_entries env ral r in
  alignment_info_text env ral r = render_entries entries
  /\ make_alignment_info env fuel r
     = Some (match entries with
             | [] => r
             | _ :: _ =>
                 mkRouterT
                   (r_elements r
                    ++ [mkElementT
                          ("AlignmentInfo@click_align@"
                           +:+ String_of_int (Z.of_nat (nelements r) + 1))
                          "AlignmentInfo" (render_entries entries) true])
                   (r_conn r)
             end).
Proof.
  intros Hral entries.
  pose proof (alignment_info_text_spec env ral r (have_loop_shape _ _ _ _ Hral))
    as Htext.
  split; [done|].
  unfold make_alignment_info. rewrite Hral. cbn [mbind option_bind].
  rewrite Htext. fold entries.
  assert (String.length (render_entries entries) = 0 <-> entries = []) as Hempty.
  { unfold render_entries. rewrite separated_empty.
    - split; [apply fmap_nil_inv|by intros ->].
    - subst entries. unfold alignment_info_entries.
      rewrite <- list_fmap_compose. apply Forall_fmap, Forall_forall.
      intros i Hi. apply list_elem_of_In, filter_In in Hi as [_ Hs]. simpl.
      apply render_entry_nonempty. unfold alignment_sensitive in Hs.
      destruct (r_elements r !! i); [|done].
      apply andb_true_iff in Hs as [Hs _]. apply andb_true_iff in Hs as [_ Hs].
      by apply negb_true_iff, bool_decide_eq_false in Hs. }
  case_bool_decide as Hlen.
  - apply Hempty in Hlen. by rewrite Hlen.
  - destruct entries as [|e es] eqn:He; [by exfalso; apply Hlen, Hempty|].
    reflexivity.
Qed.

(** ** The configuration of an inserted Align is read back *)

Lemma split_at_comma_append a b :
  no_comma a = true -> split_at_comma (a +:+ String "," b) = Some (a, b).
Proof.
  induction a as [|c a IH]; intros Ha; [done|].
  rewrite append_cons. cbn [no_comma split_at_comma] in *.
  apply andb_true_iff in Ha as [Hc Ha]. apply negb_true_iff in Hc.
  by rewrite Hc, IH.
Qed.

Lemma no_comma_uint d : no_comma (NilEmpty.string_of_uint d) = true.
Proof. induction d; simpl; done. Qed.

Lemma no_comma_String_of_int z : no_comma (String_of_int z) = true.
Proof.
  unfold String_of_int, NilZero.string_of_int, NilZero.string_of_uint.
  destruct (Z.to_int z) as [d|d]; destruct d; simpl; try done;
    apply no_comma_uint.
Qed.

Lemma int_of_String_of_int z : int_of_String (String_of_int z) = Some z.
Proof.
  unfold int_of_String, String_of_int.
  rewrite NilZero.isi.
  - simpl. by rewrite DecimalZ.of_to.
  - destruct z; simpl; try done. intros [= E]. by apply DecimalPos.Unsigned.to_uint_nonnil in E.
  - destruct z; simpl; try done. intros [= E]. by apply DecimalPos.Unsigned.to_uint_nonnil in E.
Qed.

Lemma parse_align_configuration a :
  parse_align_config (align_configuration a) = Some a.
Proof.
  unfold parse_align_config, align_configuration.
  change (", " +:+ String_of_int (offset a))
    with (String "," (" " +:+ String_of_int (offset a))).
  rewrite split_at_comma_append by apply no_comma_String_of_int.
  change (skip_space (" " +:+ String_of_int (offset a)))
    with (String_of_int (offset a)).
  rewrite !int_of_String_of_int. by destruct a.
Qed.

(** ** Flat indices of ports *)

Lemma port_lt_ninputs_list (l : list ConnectionT) c :
  c ∈ l -> c_live c = true ->
  p_port (c_to c)
  < foldr (fun c' n =>
             if c_live c' && bool_decide (p_eindex (c_to c') = p_eindex (c_to c))
             then Nat.max (S (p_port (c_to c'))) n else n) 0 l.
Proof.
  intros Hc Hl. induction l as [|x l IH]; [by apply elem_of_nil in Hc|].
  apply elem_of_cons in Hc as [<-|Hc]; simpl.
  - rewrite Hl, bool_decide_true by done. simpl. lia.
  - specialize (IH Hc). destruct (_ && _); lia.
Qed.

Lemma port_lt_ninputs r c :
  c ∈ r_conn r -> c_live c = true ->
  p_port (c_to c) < ninputs r (p_eindex (c_to c)).
Proof. apply port_lt_ninputs_list. Qed.

Lemma port_lt_noutputs_list (l : list ConnectionT) c :
  c ∈ l -> c_live c = true ->
  p_port (c_from c)
  < foldr (fun c' n =>
             if c_live c' && bool_decide (p_eindex (c_from c') = p_eindex (c_from c))
             then Nat.max (S (p_port (c_from c'))) n else n) 0 l.
Proof.
  intros Hc Hl. induction l as [|x l IH]; [by apply elem_of_nil in Hc|].
  apply elem_of_cons in Hc as [<-|Hc]; simpl.
  - rewrite Hl, bool_decide_true by done. simpl. lia.
  - specialize (IH Hc). destruct (_ && _); lia.
Qed.

Lemma port_lt_noutputs r c :
  c ∈ r_conn r -> c_live c = true ->
  p_port (c_from c) < noutputs r (p_eindex (c_from c)).
Proof. apply port_lt_noutputs_list. Qed.

Lemma find_connections_to_elem r p q :
  q ∈ find_connections_to r p <->
  exists c, c ∈ r_conn r /\ c_live c = true /\ c_to c = p /\ c_from c = q.
Proof.
  unfold find_connections_to. rewrite list_elem_of_fmap. split.
  - intros (c & -> & Hc). apply list_elem_of_filter in Hc as [[? ?] ?]. by exists c.
  - intros (c & Hc & Hl & Ht & Hf). exists c. split; [done|].
    by apply list_elem_of_filter.
Qed.

Lemma find_connections_from_elem r p q :
  q ∈ find_connections_from r p <->
  exists c, c ∈ r_conn r /\ c_live c = true /\ c_from c = p /\ c_to c = q.
Proof.
  unfold find_connections_from. rewrite list_elem_of_fmap. split.
  - intros (c & -> & Hc). apply list_elem_of_filter in Hc as [[? ?] ?]. by exists c.
  - intros (c & Hc & Hl & Ht & Hf). exists c. split; [done|].
    by apply list_elem_of_filter.
Qed.

Lemma offsets_flat_lt cs i j :
  i < length cs -> j < int_at cs i ->
  int_at (offsets_from 0 cs) i + j < int_at (offsets_from 0 cs) (S i).
Proof. intros Hi Hj. rewrite int_at_offsets_from_S by done. lia. Qed.

Lemma offsets_flat_inj cs i j i' j' :
  i < length cs -> i' < length cs -> j < int_at cs i -> j' < int_at cs i' ->
  int_at (offsets_from 0 cs) i + j = int_at (offsets_from 0 cs) i' + j' ->
  i = i' /\ j = j'.
Proof.
  intros Hi Hi' Hj Hj' E.
  pose proof (offsets_flat_lt cs i j Hi Hj) as H1.
  pose proof (offsets_flat_lt cs i' j' Hi' Hj') as H2.
  destruct (lt_eq_lt_dec i i') as [[Hlt| ->]|Hlt].
  - pose proof (int_at_offsets_from_mono cs (S i) i' ltac:(lia) ltac:(lia)). lia.
  - lia.
  - pose proof (int_at_offsets_from_mono cs (S i') i ltac:(lia) ltac:(lia)). lia.
Qed.

(** ** The vector [have_input] makes *)

Lemma foldl_weaken_lookup {A} (live : A -> bool) (idx : A -> nat)
    (val : A -> Alignment) (l : list A) (v : list Alignment) k :
  foldl (fun v c => if live c
                    then alter (fun a => weaken a (val c)) (idx c) v else v) v l
    !! k
  = (fun a => foldl weaken a
                (val <$> filter (fun c => live c = true /\ idx c = k) l))
      <$> v !! k.
Proof.
  revert v; induction l as [|c l IH]; intros v.
  - simpl. by destruct (v !! k).
  - cbn [foldl]. rewrite IH, filter_cons.
    destruct (live c) eqn:Hl.
    + destruct (decide (idx c = k)) as [<-|Hne].
      * rewrite decide_True by done. rewrite list_lookup_alter_eq.
        by destruct (v !! idx c).
      * rewrite decide_False by (by intros [_ ?]).
        by rewrite list_lookup_alter_ne.
    + by rewrite decide_False by (by intros [? _]).
Qed.

Lemma filter_ext_elem {A} (P Q : A -> Prop) `{forall x, Decision (P x)}
    `{forall x, Decision (Q x)} (l : list A) :
  (forall x, x ∈ l -> P x <-> Q x) -> filter P l = filter Q l.
Proof.
  intros HPQ. induction l as [|x l IH]; [done|].
  rewrite !filter_cons, IH by (intros; apply HPQ; by right).
  destruct (decide (P x)) as [HP|HP], (decide (Q x)) as [HQ|HQ]; try done;
    exfalso; apply (HPQ x) in HP || apply (HPQ x) in HQ; try done; by left.
Qed.

(** What a port has after [have_input]: the join of what its sources have. *)
Lemma have_input_at_port env r ral p :
  RouterT_wf r ->
  same_shape (RouterAlign_new env r) ral ->
  p_eindex p < nelements r -> p_port p < ninputs r (p_eindex p) ->
  align_at (_ialign (have_input ral).2)
    (int_at (_ioffset ral) (p_eindex p) + p_port p)
  = foldl weaken Alignment_default
      ((fun q => align_at (_oalign ral)
                   (int_at (_ooffset ral) (p_eindex q) + p_port q))
         <$> find_connections_to r p).
Proof.
  intros Hwf (Hr & Hic & Hoc & Hio & Hoo & _ & Hli & _) Hpe Hpp.
  cbn in Hr, Hic, Hio, Hli. rewrite length_replicate in Hli.
  unfold have_input. cbn [snd set_ialign _ialign]. unfold align_at at 1.
  rewrite (foldl_weaken_lookup c_live
             (fun c => int_at (_ioffset ral) (p_eindex (c_to c)) + p_port (c_to c))
             (fun c => align_at (_oalign ral)
                         (int_at (_ooffset ral) (p_eindex (c_from c))
                          + p_port (c_from c)))).
  set (cs := ninputs r <$> seq 0 (nelements r)) in *.
  assert (length cs = nelements r) as Hlcs
    by (subst cs; by rewrite length_fmap, length_seq).
  assert (forall i, i < nelements r -> int_at cs i = ninputs r i) as Hcs
    by (intros; subst cs; by apply int_at_fmap_seq).
  rewrite lookup_replicate_2.
  2:{ rewrite <- Hli, <- Hio, <- int_at_offsets_from_total, Hlcs.
      pose proof (offsets_flat_lt cs (p_eindex p) (p_port p)).
      pose proof (int_at_offsets_from_mono cs (S (p_eindex p)) (nelements r)).
      rewrite Hcs in *; lia. }
  simpl. f_equal. unfold find_connections_to. rewrite <- list_fmap_compose.
  rewrite <- Hr. f_equal.
  apply filter_ext_elem. intros c Hc. split; intros [Hl Hto]; split; try done.
  - destruct (Hwf c Hc) as [_ Hte].
    pose proof (port_lt_ninputs r c Hc Hl) as Htp.
    rewrite <- Hio in Hto.
    apply offsets_flat_inj in Hto as [? ?]; rewrite ?Hcs; try lia.
    destruct (c_to c), p; simpl in *; congruence.
  - by rewrite Hto.
Qed.

(** ** The vector [have_output] makes *)

Lemma writes_untouched off cnt vals (l : list nat) v k :
  (forall i, i ∈ l ->
     ~ (off i <= k < off i + length (take (cnt i) (vals i)))) ->
  foldl (write_at off cnt vals) v l !! k = v !! k.
Proof.
  revert v; induction l as [|i l IH]; intros v Hl; [done|].
  cbn [foldl]. rewrite IH by (intros; apply Hl; by right).
  rewrite write_lookup. rewrite decide_False; [done|].
  intros [H _]. apply (Hl i); [by left|done].
Qed.

Lemma writes_own off cnt vals ne e v k :
  e < ne ->
  (forall i, e < i < ne -> off e + cnt e <= off i) ->
  off e <= k < off e + length (take (cnt e) (vals e)) ->
  k < length v ->
  foldl (write_at off cnt vals) v (seq 0 ne) !! k
  = take (cnt e) (vals e) !! (k - off e).
Proof.
  intros He Hlater Hk Hlen.
  replace ne with (e + (1 + (ne - S e))) by lia.
  rewrite !seq_app, !foldl_app. cbn [seq foldl].
  rewrite writes_untouched.
  - rewrite write_lookup, decide_True; [done|].
    split; [done|]. by rewrite writes_length.
  - intros i Hi. apply elem_of_seq in Hi.
    specialize (Hlater i ltac:(lia)).
    rewrite length_take in Hk. lia.
Qed.

(** What the output [k] of a live element has after [have_output]. *)
Lemma have_output_at env r ral e x k :
  same_shape (RouterAlign_new env r) ral ->
  r_elements r !! e = Some x -> e_live x = true ->
  k < noutputs r e ->
  let vals := have_flow (class_factory env (e_type x) x)
                (slice (_ialign ral) (int_at (_ioffset ral) e) (ninputs r e))
                (noutputs r e) (flow_code (element_map env (e_type x))) in
  k < length vals ->
  _oalign (have_output env ral) !! (int_at (_ooffset ral) e + k) = vals !! k.
Proof.
  intros (Hr & Hic & Hoc & Hio & Hoo & Hal & _ & Hlo) Hx Hlive Hk vals Hkv.
  cbn in Hr, Hic, Hoc, Hoo, Hal, Hlo. rewrite length_replicate in Hlo.
  pose proof (lookup_lt_Some _ _ _ Hx) as He. fold (nelements r) in He.
  set (cs := noutputs r <$> seq 0 (nelements r)) in *.
  assert (length cs = nelements r) as Hlcs
    by (subst cs; by rewrite length_fmap, length_seq).
  assert (forall i, i < nelements r -> int_at cs i = noutputs r i) as Hcs
    by (intros; subst cs; by apply int_at_fmap_seq).
  assert (length (_icount ral) = nelements r) as Hne
    by (rewrite <- Hic; by rewrite length_fmap, length_seq).
  unfold have_output. cbn [set_oalign _oalign]. rewrite Hne.
  assert (int_at (_ocount ral) e = noutputs r e) as Hce
    by (rewrite <- Hoc; by apply Hcs).
  assert (int_at (_icount ral) e = ninputs r e) as Hie
    by (rewrite <- Hic; by apply int_at_fmap_seq).
  assert (aligner_at (_aligners ral) e = class_factory env (e_type x) x) as Hae.
  { rewrite <- Hal. unfold aligner_at. rewrite list_lookup_fmap, Hx. simpl.
    by rewrite Hlive. }
  assert (etype_name (_router ral) e = e_type x) as Hte
    by (rewrite <- Hr; unfold etype_name; by rewrite Hx).
  rewrite (writes_own
             (fun i => int_at (_ooffset ral) i) (fun i => int_at (_ocount ral) i)
             (fun i => have_flow (aligner_at (_aligners ral) i)
                         (slice (_ialign ral) (int_at (_ioffset ral) i)
                            (int_at (_icount ral) i))
                         (int_at (_ocount ral) i)
                         (flow_code (element_map env (etype_name (_router ral) i))))
             (nelements r) e).
  - rewrite Hce, Hie, Hae, Hte. fold vals.
    rewrite lookup_take_lt by lia. f_equal. lia.
  - done.
  - intros i Hi. rewrite <- Hoo, <- Hoc.
    rewrite <- int_at_offsets_from_S by lia.
    apply int_at_offsets_from_mono; lia.
  - rewrite Hce, Hie, Hae, Hte. fold vals. rewrite length_take. lia.
  - rewrite <- Hlo, <- Hoo, <- int_at_offsets_from_total, Hlcs.
    pose proof (offsets_flat_lt cs e k).
    pose proof (int_at_offsets_from_mono cs (S e) (nelements r)).
    rewrite Hcs in *; lia.
Qed.

Lemma have_output_shape env ral : same_shape ral (have_output env ral).
Proof.
  repeat split; try done. symmetry. apply have_output_length.
Qed.

Lemma weaken_default a : weaken Alignment_default a = a.
Proof. reflexivity. Qed.

Lemma compatible_refl a : Alignment_wf a -> compatible a a = true.
Proof.
  intros [Hc Ho]. unfold compatible, bad.
  rewrite (proj2 (Z.ltb_ge _ _)) by lia. simpl.
  rewrite Z.mod_same by lia. rewrite Z.mod_small by lia.
  by rewrite !Z.eqb_refl.
Qed.

(** Where phase 1 puts an Align before a port, the forward loop run again
    on the new router gives at that port exactly the alignment phase 1
    wanted there, which is compatible with it as soon as it is a
    well-formed alignment. *)
Lemma required_align_satisfied (env : AlignEnv) (fuel fuel' : nat)
    (r : RouterT) (anonymizer : Z) (ral want_ral ral' : RouterAlign)
    (s' : Rewrite) (i j : nat) :
  RouterT_wf r ->
  have_loop env fuel (RouterAlign_new env r) = Some ral ->
  want_loop env fuel (RouterAlign_new env r) = Some want_ral ->
  add_aligns_for_required env fuel (nelements r) (mkRewrite r anonymizer 0)
  = Some s' ->
  have_loop env fuel' (RouterAlign_new env (rw_router s')) = Some ral' ->
  i < nelements r -> j < ninputs r i ->
  let have := align_at (_ialign ral) (int_at (_ioffset ral) i + j) in
  let want := align_at (_ialign want_ral) (int_at (_ioffset ral) i + j) in
  let have' := align_at (_ialign ral') (int_at (_ioffset ral') i + j) in
  compatible have want = false -> bad want = false ->
  have' = want /\ (Alignment_wf want -> compatible have' want = true).
Proof.
  intros Hwf Hral Hwant Hs Hral' Hi Hj have want have' Hcompat Hbad.
  assert (have' = want) as ->; [|split; [done|apply compatible_refl]].
  subst have'.
  unfold add_aligns_for_required in Hs. cbn [rw_router] in Hs.
  rewrite Hral, Hwant in Hs. cbn [mbind option_bind] in Hs. injection Hs as <-.
  destruct (have_loop_shape _ _ _ _ Hral) as (_ & Hic & _).
  pose proof (add_required_aligns_inserted ral want_ral r anonymizer 0%Z Hwf)
    as (Hwf' & Hn' & Hq).
  { intros k Hk. rewrite <- Hic. by apply RouterAlign_new_icount. }
  set (r' := rw_router (add_required_aligns ral want_ral (nelements r)
                          (mkRewrite r anonymizer 0))) in *.
  specialize (Hq (mkPortT i j) Hi).
  rewrite decide_True in Hq.
  2:{ split.
      - apply elem_of_ports_of. simpl. split; [apply elem_of_seq; lia|done].
      - unfold align_needed. cbn [p_eindex p_port]. fold have want.
        by rewrite Hcompat, Hbad. }
  change (align_wanted ral want_ral (mkPortT i j)) with want in Hq.
  destruct Hq as (e & name & He & Hx & Hto & _ & Hfrom).
  destruct (have_loop_last _ _ _ _ Hral') as (ral0 & Hs0 & Hpass).
  unfold forward_pass in Hpass.
  assert (ral' = (have_input (have_output env ral0)).2) as ->
    by (by rewrite Hpass).
  pose proof (same_shape_trans _ _ _ Hs0 (have_output_shape env ral0)) as Hs1.
  change (_ioffset (have_input (have_output env ral0)).2)
    with (_ioffset (have_output env ral0)).
  assert (mkPortT e 0 ∈ find_connections_to r' (mkPortT i j)) as Hin
    by (rewrite Hto; by left).
  apply find_connections_to_elem in Hin as (c & Hc & Hlive & Hcto & Hcfrom).
  pose proof (port_lt_ninputs r' c Hc Hlive) as Hport.
  pose proof (port_lt_noutputs r' c Hc Hlive) as Hout.
  rewrite Hcto in Hport. rewrite Hcfrom in Hout. cbn [p_eindex p_port] in *.
  pose proof (have_input_at_port env r' (have_output env ral0) (mkPortT i j)
                Hwf' Hs1 ltac:(simpl; lia) ltac:(simpl; lia)) as Hat.
  cbn [p_eindex p_port] in Hat. rewrite Hat. clear Hat.
  rewrite Hto. cbn [fmap list_fmap foldl p_eindex p_port].
  rewrite weaken_default. unfold align_at.
  change (_ooffset (have_output env ral0)) with (_ooffset ral0).
  rewrite (have_output_at env r' ral0 e _ 0 Hs0 Hx eq_refl Hout).
  - cbn [e_type e_configuration].
    change (class_factory env "Align") with AlignAlignClass_aligner.
    unfold AlignAlignClass_aligner. cbn [e_configuration].
    rewrite parse_align_configuration. cbn [have_flow GeneratorAligner].
    rewrite lookup_replicate_2 by done. done.
  - cbn [e_type e_configuration].
    change (class_factory env "Align") with AlignAlignClass_aligner.
    unfold AlignAlignClass_aligner. cbn [e_configuration].
    rewrite parse_align_configuration. cbn [have_flow GeneratorAligner].
    by rewrite length_replicate.
Qed.

(** ** The properties on the example configurations *)

Lemma RouterT_wf_check r : RouterT_wf_b r = true -> RouterT_wf r.
Proof.
  unfold RouterT_wf_b, RouterT_wf. rewrite forallb_forall. intros H c Hc.
  apply list_elem_of_In, H, andb_true_iff in Hc as [H1 H2].
  apply Nat.ltb_lt in H1, H2. done.
Qed.

Lemma engine_or_new_Some (o : option RouterAlign) r :
  converged o = true -> o = Some (engine_or_new o r).
Proof. destruct o; [reflexivity|discriminate]. Qed.

Lemma have_of_converged r :
  converged (have_loop example_env 10 (RouterAlign_new example_env r)) = true ->
  have_loop example_env 10 (RouterAlign_new example_env r) = Some (have_of r).
Proof. apply engine_or_new_Some. Qed.

Lemma want_of_converged r :
  converged (want_loop example_env 10 (RouterAlign_new example_env r)) = true ->
  want_loop example_env 10 (RouterAlign_new example_env r) = Some (want_of r).
Proof. apply engine_or_new_Some. Qed.

Lemma unchanged_pass (p : bool * RouterAlign) : p.1 = false -> p = (false, p.2).
Proof. destruct p as [[] ?]; [discriminate|reflexivity]. Qed.

Lemma index_functions_correct_witness :
  iindex_eindex (RouterAlign_new example_env source_to_classifier) 2 = (-1)%Z
  /\ oindex_port (RouterAlign_new example_env source_to_classifier) 5 = (-1)%Z
  /\ exists i p : nat,
       iindex_eindex (RouterAlign_new example_env source_to_classifier) 1
       = Z.of_nat i
       /\ iindex_port (RouterAlign_new example_env source_to_classifier) 1
          = Z.of_nat p
       /\ i < nelements source_to_classifier
       /\ p < ninputs source_to_classifier i
       /\ Z.of_nat
            (int_at (_ioffset (RouterAlign_new example_env source_to_classifier)) i
             + p) = 1%Z.
Proof.
  destruct (index_functions_correct example_env source_to_classifier)
    as (Hi & Ho & Hin & _).
  split; [|split].
  - apply Hi. vm_compute. discriminate.
  - apply Ho. vm_compute. discriminate.
  - apply Hin. vm_compute. split; [discriminate|reflexivity].
Defined.

Lemma propagation_passes_idempotent_witness :
  (forward_pass example_env stale_have).1 = false
  /\ forward_pass example_env (forward_pass example_env stale_have).2
     = (false, (forward_pass example_env stale_have).2)
  /\ (backward_pass example_env stale_want).1 = false
  /\ backward_pass example_env (backward_pass example_env stale_want).2
     = (false, (backward_pass example_env stale_want).2).
Proof.
  split; [vm_compute; reflexivity|]. split.
  { apply (proj1 (propagation_passes_idempotent example_env stale_have
                    (forward_pass example_env stale_have).2)).
    apply unchanged_pass. vm_compute; reflexivity. }
  split; [vm_compute; reflexivity|].
  apply (proj2 (propagation_passes_idempotent example_env stale_want
                  (backward_pass example_env stale_want).2)).
  apply unchanged_pass. vm_compute; reflexivity.
Defined.


Lemma required_align_satisfied_witness :
  compatible
    (align_at (_ialign (have_of source_to_host))
       (int_at (_ioffset (have_of source_to_host)) 1 + 0))
    (align_at (_ialign (want_of source_to_host))
       (int_at (_ioffset (have_of source_to_host)) 1 + 0)) = false
  /\ align_at (_ialign (have_of (rw_router source_to_host_aligned)))
       (int_at (_ioffset (have_of (rw_router source_to_host_aligned))) 1 + 0)
     = align_at (_ialign (want_of source_to_host))
         (int_at (_ioffset (have_of source_to_host)) 1 + 0)
  /\ compatible
       (align_at (_ialign (have_of (rw_router source_to_host_aligned)))
          (int_at (_ioffset (have_of (rw_router source_to_host_aligned))) 1 + 0))
       (align_at (_ialign (want_of source_to_host))
          (int_at (_ioffset (have_of source_to_host)) 1 + 0)) = true.
Proof.
  split; [vm_compute; reflexivity|].
  destruct (required_align_satisfied example_env 10 10 source_to_host 3
              (have_of source_to_host) (want_of source_to_host)
              (have_of (rw_router source_to_host_aligned))
              source_to_host_aligned 1 0
              ltac:(apply RouterT_wf_check; reflexivity)
              ltac:(apply have_of_converged; vm_compute; reflexivity)
              ltac:(apply want_of_converged; vm_compute; reflexivity)
              ltac:(vm_compute; reflexivity)
              ltac:(apply have_of_converged; vm_compute; reflexivity)
              ltac:(vm_compute; lia) ltac:(vm_compute; lia)
              ltac:(vm_compute; reflexivity) ltac:(vm_compute; reflexivity))
    as [Heq Hcompat].
  split; [exact Heq|].
  apply Hcompat. vm_compute. repeat split; discriminate.
Defined.

(** C2, on the failing input [fd :: FromDevice -> enc :: IPEncap ->
    out :: ToHost]: phase 1 puts an Align(4, 0) before [enc] only; the input
    of [out] had what it wants, (4, 2), and has (4, 0) when the forward loop
    is run again after phase 1, which is not compatible with (4, 2).  No
    later phase repairs it: in the router [main] writes, with one Align
    added, the input of [out] has (4, 0) and wants (4, 2). *)
Theorem required_align_breaks_downstream :
  have_after_required example_env 10 device_encap_host 2 0
  = Some (mkAlignment 4 0, mkAlignment 4 2)
  /\ compatible (mkAlignment 4 0) (mkAlignment 4 2) = false
  /\ (snd <$> (fst <$> click_align example_env 10 device_encap_host)) = Some 1%Z
  /\ have_and_want_written example_env 10 device_encap_host 2 0
     = Some (mkAlignment 4 0, mkAlignment 4 2).
Proof. repeat split; vm_compute; reflexivity. Qed.

(** The measure of the specification for phase 4 can grow on a run that
    ends: in [s1, s2 -> a -> a2, a3] the two connections into [a] are
    redundant; the pass replaces them by four connections into [a2] and
    [a3], which are all redundant at the next turn.  The router is the one
    phase 4 gets when the program is run on it. *)
Lemma redundant_count_increases :
  rw_router <$> insert_aligns example_env 10 fan_of_aligns = Some fan_of_aligns
  /\ redundant_counts example_env 10 fan_of_aligns = Some (true, 2, 4)
  /\ ~ 4 < 2.
Proof. split; [|split]; [vm_compute; reflexivity..|lia]. Qed.

(** On [s -> a] the Align has no output and no element comes after it: the
    offset of the Align is the size of the vector of output alignments, the
    read of line 594 is outside it, and the program gives no router. *)
Lemma align_without_output_read_outside :
  rw_router <$> insert_aligns example_env 10 source_to_align
  = Some source_to_align
  /\ _ooffset (have_of source_to_align) = [0; 1; 1]
  /\ length (_oalign (have_of source_to_align)) = 1
  /\ redundant (have_of source_to_align) source_to_align (connection 0 0 1 0)
     = None
  /\ click_align example_env 10 source_to_align = None.
Proof. repeat split; vm_compute; reflexivity. Qed.

Lemma duplicate_align_step_witness :
  r_conn align_chain !! 1 = Some (connection 1 0 2 0)
  /\ r_conn (remove_duplicate_align 3 1 align_chain)
     = [connection 0 0 2 0; connection 1 0 2 0; connection 2 0 3 0]
  /\ find_connections_to (remove_duplicate_align 3 1 align_chain) (mkPortT 1 0)
     = []
  /\ r_conn align_tee !! 1 = Some (connection 1 0 2 0)
  /\ find_connections_to align_tee (mkPortT 1 0) = [mkPortT 0 0]
  /\ r_conn (remove_duplicate_align 4 1 align_tee) !! 1
     = Some (connection 0 0 2 0)
  /\ r_conn (remove_duplicate_align 4 1 align_tee) !! 2
     = Some (connection 1 0 3 0).
Proof.
  split; [reflexivity|].
  destruct (duplicate_align_step align_chain 1 (connection 1 0 2 0) eq_refl)
    as (_ & _ & _ & Hchain).
  destruct (Hchain eq_refl) as (Hone & _).
  destruct (Hone eq_refl) as [Hsent Hleft].
  split; [exact Hsent|].
  split; [exact (Hleft ltac:(discriminate))|].
  split; [reflexivity|]. split; [reflexivity|].
  destruct (duplicate_align_step align_tee 1 (connection 1 0 2 0) eq_refl)
    as (_ & _ & _ & Htee).
  destruct (Htee eq_refl) as (_ & Hfrom & _).
  assert (length (find_connections_from align_tee (c_from (connection 1 0 2 0)))
          <> 1) as Hb by (vm_compute; discriminate).
  split.
  - apply (Hfrom Hb (mkPortT 0 0) eq_refl 1 (connection 1 0 2 0) eq_refl);
      reflexivity.
  - apply (Hfrom Hb (mkPortT 0 0) eq_refl 2 (connection 1 0 3 0) eq_refl).
    vm_compute. discriminate.
Defined.

(** The second inner loop of phase 2 (click-align.cc, 534-536) compares the
    end of a connection only: in [p -> a1 -> a2 -> u], [a1 -> t], [x -> a2]
    the connection [x -> a2] is made to start from [p] as well, and [x] is
    left without output. *)
Lemma duplicate_align_takes_other_source :
  r_conn align_shared !! 4 = Some (connection 5 0 2 0)
  /\ r_conn (remove_duplicate_aligns align_shared) !! 4
     = Some (connection 0 0 2 0)
  /\ noutputs (remove_duplicate_aligns align_shared) 5 = 0.
Proof. repeat split; vm_compute; reflexivity. Qed.

(** C5, as stated, fails: in [s1, s2 -> a -> a2, a3] the Align [a2] that is
    downstream of [a] has exactly one producer, [a], and [a] has two
    consumers; nothing is redirected. *)
Lemma duplicate_align_kept :
  duplicate_align fan_of_aligns (connection 2 0 3 0) = true
  /\ find_connections_to fan_of_aligns (mkPortT 3 0) = [mkPortT 2 0]
  /\ find_connections_from fan_of_aligns (mkPortT 2 0) = [mkPortT 3 0; mkPortT 4 0]
  /\ remove_duplicate_aligns fan_of_aligns = fan_of_aligns.
Proof. repeat split; vm_compute; reflexivity. Qed.

(** C7, on the failing input: only the first synthetic name is compared
    with the names of the router; the second Align that phase 1 adds
    (element 5) gets the name of element 3 of the router the program was
    given. *)
Lemma aligner_name_collides :
  (fun s => (e_name <$> r_elements (rw_router s) !! 3,
             e_name <$> r_elements (rw_router s) !! 5,
             e_type <$> r_elements (rw_router s) !! 5))
    <$> insert_aligns example_env 10 named_like_an_aligner
  = Some (Some "Align@click_align@6", Some "Align@click_align@6", Some "Align")
  /\ nelements named_like_an_aligner = 4.
Proof. split; vm_compute; reflexivity. Qed.

Lemma num_aligns_added_counts_witness :
  fst <$> click_align example_env 10 source_to_host
  = Some (rw_router source_to_host_aligned, 1%Z)
  /\ (1 = Z.of_nat (count_aligns (rw_router source_to_host_aligned))
          - Z.of_nat (count_aligns source_to_host))%Z.
Proof.
  split; [vm_compute; reflexivity|].
  destruct (num_aligns_added_counts example_env 10 source_to_host
              (rw_router source_to_host_aligned) 1 true
              ltac:(vm_compute; reflexivity))
    as (s & Hs & _ & Hn & _).
  assert (rewrite_aligns example_env 10 source_to_host
          = Some (mkRewrite (rw_router source_to_host_aligned) 4 1)) as Hs'
    by (vm_compute; reflexivity).
  rewrite Hs' in Hs. injection Hs as <-. exact Hn.
Defined.

Lemma alignment_info_made_witness :
  have_loop example_env 10 (RouterAlign_new example_env source_to_classifier)
  = Some (have_of source_to_classifier)
  /\ alignment_info_entries example_env (have_of source_to_classifier)
       source_to_classifier
     = [("cl", [(4%Z, 0%Z)])]
  /\ alignment_info_text example_env (have_of source_to_classifier)
       source_to_classifier
     = render_entries [("cl", [(4%Z, 0%Z)])].
Proof.
  split; [apply have_of_converged; vm_compute; reflexivity|].
  split; [vm_compute; reflexivity|].
  replace [("cl", [(4%Z, 0%Z)])]
    with (alignment_info_entries example_env (have_of source_to_classifier)
            source_to_classifier) by (vm_compute; reflexivity).
  apply (alignment_info_made example_env 10 source_to_classifier
           (have_of source_to_classifier)).
  apply have_of_converged; vm_compute; reflexivity.
Defined.

(** C9, as stated, fails: no element of [src -> dst] has the flag, the list
    is empty, and no AlignmentInfo element is added. *)
Lemma alignment_info_not_made :
  alignment_info_entries example_env (have_of source_to_host) source_to_host = []
  /\ make_alignment_info example_env 10 source_to_host = Some source_to_host.
Proof. split; vm_compute; reflexivity. Qed.

(** ** An Align connected to itself *)

Lemma align_self_loop_length k : length (r_conn (align_self_loop k)) = S k.
Proof. cbn. rewrite length_app, length_replicate. simpl. lia. Qed.

Lemma align_self_loop_lookup_dead k i :
  i < k ->
  r_conn (align_self_loop k) !! i
  = Some (mkConnectionT false (mkPortT 0 0) (mkPortT 0 0)).
Proof.
  intros Hi. cbn. rewrite lookup_app_l by (rewrite length_replicate; lia).
  by apply lookup_replicate_2.
Qed.

Lemma align_self_loop_lookup_live k :
  r_conn (align_self_loop k) !! k = Some (connection 0 0 0 0).
Proof.
  cbn. rewrite lookup_app_r by (rewrite length_replicate; lia).
  by rewrite length_replicate, Nat.sub_diag.
Qed.

Lemma align_self_loop_from k :
  find_connections_from (align_self_loop k) (mkPortT 0 0) = [mkPortT 0 0].
Proof.
  unfold find_connections_from. cbn [align_self_loop r_conn].
  rewrite filter_app, fmap_app.
  assert (filter (fun c => c_live c = true /\ c_from c = mkPortT 0 0)
            (replicate k (mkConnectionT false (mkPortT 0 0) (mkPortT 0 0))) = [])
    as ->; [|done].
  induction k as [|k IH]; [done|]. simpl. rewrite filter_cons, IH.
  by rewrite decide_False by (by intros [? _]).
Qed.

(** Whatever the engine, the dead connections are passed over. *)
Lemma align_self_loop_dead_turns ral k n :
  n <= k ->
  skip_redundant_aligns_upto ral n (align_self_loop k)
  = Some (align_self_loop k, false).
Proof.
  induction n as [|n IH]; intros Hn; [done|].
  rewrite skip_redundant_aligns_upto_S, IH by lia.
  cbn [mbind option_bind]. unfold skip_redundant_align. cbn [fst].
  rewrite (conn_at_lookup _ _ _ (align_self_loop_lookup_dead k n ltac:(lia))).
  done.
Qed.

(** A converged engine has (4, 0) at the output of the Align. *)
Lemma align_self_loop_have env hfuel k ral :
  have_loop env hfuel (RouterAlign_new env (align_self_loop k)) = Some ral ->
  _ooffset ral !! 0 = Some 0
  /\ _oalign ral !! 0 = Some (mkAlignment 4 0).
Proof.
  intros Hral.
  destruct (have_loop_last _ _ _ _ Hral) as (ral0 & Hs0 & Hpass).
  unfold forward_pass in Hpass.
  assert (ral = (have_input (have_output env ral0)).2) as -> by (by rewrite Hpass).
  change (_ooffset (have_input (have_output env ral0)).2) with (_ooffset ral0).
  change (_oalign (have_input (have_output env ral0)).2)
    with (_oalign (have_output env ral0)).
  assert (int_at (_ooffset ral0) 0 = 0) as Hoff.
  { destruct Hs0 as (_ & _ & _ & _ & <- & _). cbn [RouterAlign_new _ooffset].
    apply int_at_offsets_from_0. }
  split.
  { destruct Hs0 as (_ & _ & _ & _ & <- & _). cbn [RouterAlign_new _ooffset].
    by destruct (noutputs (align_self_loop k) <$> seq 0 (nelements (align_self_loop k))). }
  assert (0 < noutputs (align_self_loop k) 0) as Hout.
  { apply (port_lt_noutputs (align_self_loop k) (connection 0 0 0 0)); [|done].
    eapply list_elem_of_lookup_2, align_self_loop_lookup_live. }
  pose proof (have_output_at env (align_self_loop k) ral0 0
                (element "a" "Align" "4, 0") 0 Hs0 eq_refl eq_refl Hout) as Hat.
  rewrite Hoff in Hat. cbn [Nat.add] in Hat.
  change (class_factory env (e_type (element "a" "Align" "4, 0"))
            (element "a" "Align" "4, 0"))
    with (GeneratorAligner (mkAlignment 4 0)) in Hat.
  cbn [have_flow GeneratorAligner] in Hat.
  rewrite Hat by (by rewrite length_replicate).
  by apply lookup_replicate_2.
Qed.

Lemma kill_duplicates_self_loop k :
  kill_duplicates [] (r_conn (align_self_loop k)) = r_conn (align_self_loop k).
Proof.
  cbn [align_self_loop r_conn].
  induction k as [|k IH]; [reflexivity|]. simpl. by rewrite IH.
Qed.

Lemma align_self_loop_turn env hfuel k ral :
  have_loop env hfuel (RouterAlign_new env (align_self_loop k)) = Some ral ->
  exists r', skip_redundant_aligns ral (align_self_loop k) = Some (r', true)
    /\ remove_duplicate_connections r' = align_self_loop (S k).
Proof.
  intros Hral. destruct (align_self_loop_have env hfuel k ral Hral) as [Hoff Hal].
  unfold skip_redundant_aligns. rewrite align_self_loop_length.
  rewrite skip_redundant_aligns_upto_S, align_self_loop_dead_turns by lia.
  cbn [mbind option_bind]. unfold skip_redundant_align. cbn [fst].
  rewrite (conn_at_lookup _ _ _ (align_self_loop_lookup_live k)).
  assert (redundant ral (align_self_loop k) (connection 0 0 0 0) = Some true) as ->.
  { unfold redundant. cbn [connection c_live c_from c_to p_eindex p_port].
    change (true && is_class (align_self_loop k) 0 "Align") with true.
    cbn match. rewrite Hoff. cbn [mbind option_bind Nat.add]. rewrite Hal.
    reflexivity. }
  cbn [mbind option_bind].
  cbn [connection c_to c_from]. rewrite align_self_loop_from. cbn [foldl snd fst].
  eexists. split; [reflexivity|].
  unfold remove_duplicate_connections, kill_connection, add_connection.
  cbn [r_elements r_conn align_self_loop].
  fold (align_self_loop k).
  rewrite (conn_at_lookup _ _ _ (align_self_loop_lookup_live k)).
  cbn [connection c_from align_self_loop r_conn].
  assert (alter (fun c => mkConnectionT false (c_from c) (c_to c)) k
            ((replicate k (mkConnectionT false (mkPortT 0 0) (mkPortT 0 0))
              ++ [connection 0 0 0 0])
             ++ [mkConnectionT true (mkPortT 0 0) (mkPortT 0 0)])
          = r_conn (align_self_loop (S k))) as ->.
  { cbn [align_self_loop r_conn]. rewrite replicate_S_end, <- !app_assoc.
    rewrite alter_app_r_alt by (rewrite length_replicate; lia).
    by rewrite length_replicate, Nat.sub_diag. }
  by rewrite kill_duplicates_self_loop.
Qed.

(** The forward loop converges on that router at its second turn, whatever
    the number of dead connections. *)
Lemma foldl_dead_prefix {A} (f : A -> ConnectionT -> A) k dead cs a :
  (forall a, f a dead = a) ->
  foldl f a (replicate k dead ++ cs) = foldl f a cs.
Proof.
  intros Hf. rewrite foldl_app. f_equal.
  induction k as [|k IH]; [done|]. simpl. by rewrite Hf.
Qed.

Lemma foldr_dead_prefix {A} (f : ConnectionT -> A -> A) k dead cs a :
  (forall a, f dead a = a) ->
  foldr f a (replicate k dead ++ cs) = foldr f a cs.
Proof.
  intros Hf. rewrite foldr_app.
  induction k as [|k IH]; [done|]. simpl. by rewrite Hf.
Qed.

Lemma align_self_loop_new k :
  RouterAlign_new example_env (align_self_loop k)
  = mkRouterAlign (align_self_loop k) [1] [1] [0; 1] [0; 1]
      [Alignment_default] [Alignment_default]
      [GeneratorAligner (mkAlignment 4 0)].
Proof.
  unfold RouterAlign_new.
  change (nelements (align_self_loop k)) with 1. cbn [seq fmap list_fmap].
  assert (ninputs (align_self_loop k) 0 = 1) as ->.
  { unfold ninputs. cbn [align_self_loop r_conn].
    by rewrite foldr_dead_prefix by done. }
  assert (noutputs (align_self_loop k) 0 = 1) as ->.
  { unfold noutputs. cbn [align_self_loop r_conn].
    by rewrite foldr_dead_prefix by done. }
  reflexivity.
Qed.

Lemma align_self_loop_forward k ialign oalign :
  ialign = Alignment_default \/ ialign = mkAlignment 4 0 ->
  forward_pass example_env
    (mkRouterAlign (align_self_loop k) [1] [1] [0; 1] [0; 1]
       [ialign] [oalign] [GeneratorAligner (mkAlignment 4 0)])
  = (Alignment_ne (mkAlignment 4 0) ialign,
     mkRouterAlign (align_self_loop k) [1] [1] [0; 1] [0; 1]
       [mkAlignment 4 0] [mkAlignment 4 0]
       [GeneratorAligner (mkAlignment 4 0)]).
Proof.
  intros Hi. unfold forward_pass, have_input.
  change (_router (have_output example_env ?ral)) with (_router ral).
  cbn [_router align_self_loop r_conn].
  rewrite foldl_dead_prefix by done.
  destruct Hi as [-> | ->]; vm_compute; reflexivity.
Qed.

Lemma align_self_loop_converges h k :
  have_loop example_env (S (S h))
    (RouterAlign_new example_env (align_self_loop k))
  = Some (mkRouterAlign (align_self_loop k) [1] [1] [0; 1] [0; 1]
            [mkAlignment 4 0] [mkAlignment 4 0]
            [GeneratorAligner (mkAlignment 4 0)]).
Proof.
  rewrite align_self_loop_new.
  rewrite have_loop_S, align_self_loop_forward by (by left). cbn [fst snd].
  change (Alignment_ne (mkAlignment 4 0) Alignment_default) with true. cbn match.
  rewrite have_loop_S, align_self_loop_forward by (by right). cbn [fst snd].
  reflexivity.
Qed.

(** C4, on the failing input [a :: Align(4, 0); a -> a]: phases 1 to 3
    leave the router as it is, so phase 4 gets it.  At every turn of the
    loop of phase 4 the forward loop converges and the pass reads inside
    the vectors; it finds the live connection redundant, adds it again as a
    connection from the source to what the Align feeds, and kills it: the
    turn reports a change, and the next turn gets the same router with one
    more dead connection.  So the loop reaches no turn without change,
    whatever the bound on the number of turns. *)
Theorem align_self_loop_never_settles (h fuel k : nat) :
  rw_router <$> insert_aligns example_env 10 (align_self_loop 0)
  = Some (align_self_loop 0)
  /\ (exists ral r',
        have_loop example_env (S (S h))
          (RouterAlign_new example_env (align_self_loop k)) = Some ral
        /\ skip_redundant_aligns ral (align_self_loop k) = Some (r', true)
        /\ remove_duplicate_connections r' = align_self_loop (S k))
  /\ remove_redundant_aligns example_env (S (S h)) fuel (align_self_loop k)
     = None.
Proof.
  split; [vm_compute; reflexivity|]. split.
  - eexists.
    destruct (align_self_loop_turn example_env (S (S h)) k _
                (align_self_loop_converges h k)) as (r' & Hs & Hnext).
    exists r'. by split; [apply align_self_loop_converges|].
  - revert k; induction fuel as [|f IH]; intros k; [reflexivity|].
    destruct (align_self_loop_turn example_env (S (S h)) k _
                (align_self_loop_converges h k)) as (r' & Hs & Hnext).
    rewrite (remove_redundant_aligns_S _ _ _ _ _ _ _
               (align_self_loop_converges h k) Hs).
    rewrite Hnext. apply IH.
Qed.

(** ** The vectors of the engine *)

Lemma RouterAlign_new_lengths env r :
  length (_icount (RouterAlign_new env r)) = nelements r
  /\ length (_ocount (RouterAlign_new env r)) = nelements r.
Proof. cbn. by rewrite !length_fmap, !length_seq. Qed.

(** X1: the constructor gives every count vector and the vector of aligners
    one entry for each element and the offset vectors one more; the offsets
    start at 0 and each is the one before plus the number of ports of the
    element before; the alignment vectors have as many entries as the last
    offset says, all of them the default alignment. *)
Theorem RouterAlign_new_vectors (env : AlignEnv) (r : RouterT) :
  let ral := RouterAlign_new env r in
  let ne := nelements r in
  (length (_icount ral) = ne /\ length (_ocount ral) = ne
   /\ length (_aligners ral) = ne
   /\ length (_ioffset ral) = S ne /\ length (_ooffset ral) = S ne)
  /\ (int_at (_ioffset ral) 0 = 0 /\ int_at (_ooffset ral) 0 = 0)
  /\ (forall i, i < ne ->
        int_at (_icount ral) i = ninputs r i
        /\ int_at (_ocount ral) i = noutputs r i
        /\ int_at (_ioffset ral) (S i) = int_at (_ioffset ral) i + ninputs r i
        /\ int_at (_ooffset ral) (S i) = int_at (_ooffset ral) i + noutputs r i)
  /\ (length (_ialign ral) = int_at (_ioffset ral) ne
      /\ length (_oalign ral) = int_at (_ooffset ral) ne)
  /\ (forall k, k < length (_ialign ral) ->
        _ialign ral !! k = Some Alignment_default)
  /\ (forall k, k < length (_oalign ral) ->
        _oalign ral !! k = Some Alignment_default).
Proof.
  intros ral ne. subst ral ne.
  cbn [RouterAlign_new _ialign _oalign _icount _ocount _ioffset _ooffset
       _aligners].
  set (ne := nelements r).
  assert (Hli : length (ninputs r <$> seq 0 ne) = ne)
    by (by rewrite length_fmap, length_seq).
  assert (Hlo : length (noutputs r <$> seq 0 ne) = ne)
    by (by rewrite length_fmap, length_seq).
  split; [|split; [|split; [|split; [|split]]]].
  - rewrite !offsets_from_length, Hli, Hlo, length_fmap. done.
  - by rewrite !int_at_offsets_from_0.
  - intros i Hi. rewrite !int_at_offsets_from_S by lia.
    by rewrite !int_at_fmap_seq by done.
  - rewrite !length_replicate.
    rewrite <- (int_at_offsets_from_total (ninputs r <$> seq 0 ne)), Hli.
    by rewrite <- (int_at_offsets_from_total (noutputs r <$> seq 0 ne)), Hlo.
  - intros k Hk. rewrite length_replicate in Hk. by apply lookup_replicate_2.
  - intros k Hk. rewrite length_replicate in Hk. by apply lookup_replicate_2.
Qed.

Lemma adjust_length ral : length (_ialign (adjust ral)) = length (_ialign ral).
Proof.
  unfold adjust. cbn [set_ialign _ialign].
  apply foldl_alter_length. intros v i. apply write_slice_length.
Qed.

Lemma have_input_shape ral : same_shape ral (have_input ral).2.
Proof. repeat split; try done. symmetry. apply have_input_length. Qed.

Lemma want_input_shape env ral : same_shape ral (want_input env ral).
Proof. repeat split; try done. symmetry. apply want_input_length. Qed.

Lemma want_output_shape ral : same_shape ral (want_output ral).2.
Proof. repeat split; try done. symmetry. apply want_output_length. Qed.

Lemma adjust_shape ral : same_shape ral (adjust ral).
Proof. repeat split; try done. symmetry. apply adjust_length. Qed.

(** X2: none of the five passes changes the router, the counts, the
    offsets, the aligners or the size of an alignment vector; [have_output]
    and [want_output] write output alignments only, [have_input],
    [want_input] and [adjust] input alignments only. *)
Theorem passes_keep_shape (env : AlignEnv) (ral : RouterAlign) :
  (same_shape ral (have_output env ral)
   /\ _ialign (have_output env ral) = _ialign ral)
  /\ (same_shape ral (have_input ral).2
      /\ _oalign (have_input ral).2 = _oalign ral)
  /\ (same_shape ral (want_input env ral)
      /\ _oalign (want_input env ral) = _oalign ral)
  /\ (same_shape ral (want_output ral).2
      /\ _ialign (want_output ral).2 = _ialign ral)
  /\ (same_shape ral (adjust ral) /\ _oalign (adjust ral) = _oalign ral).
Proof.
  split; [|split; [|split; [|split]]]; (split; [|done]).
  - apply have_output_shape.
  - apply have_input_shape.
  - apply want_input_shape.
  - apply want_output_shape.
  - apply adjust_shape.
Qed.

(** ** From a port to its flat index and back *)

Lemma first_element_below_at cs i p :
  i < length cs -> p < int_at cs i ->
  first_element_below (offsets_from 0 cs) (length cs)
    (Z.of_nat (int_at (offsets_from 0 cs) i + p)) = Some i.
Proof.
  intros Hi Hp.
  destruct (first_element_below_in cs
              (Z.of_nat (int_at (offsets_from 0 cs) i + p)))
    as (i' & Hf & Hi' & Hr).
  { split; [lia|]. apply inj_lt.
    pose proof (offsets_flat_lt cs i p Hi Hp).
    pose proof (int_at_offsets_from_mono cs (S i) (length cs) ltac:(lia) ltac:(lia)).
    rewrite int_at_offsets_from_total in *. lia. }
  rewrite Hf. f_equal. rewrite Nat2Z.id in Hr.
  destruct (offsets_flat_inj cs i' (int_at (offsets_from 0 cs) i + p
                                     - int_at (offsets_from 0 cs) i') i p)
    as [? _]; try done; lia.
Qed.

(** X3: on the engine the constructor makes, the flat index of port [p] of
    element [i] (the offset of [i] plus [p]) is taken back to [i] by
    [iindex_eindex] and to [p] by [iindex_port], and likewise for an output
    port by [oindex_eindex] and [oindex_port]. *)
Theorem index_of_port (env : AlignEnv) (r : RouterT) (i p : nat) :
  let ral := RouterAlign_new env r in
  i < nelements r ->
  (p < ninputs r i ->
   iindex_eindex ral (Z.of_nat (int_at (_ioffset ral) i + p)) = Z.of_nat i
   /\ iindex_port ral (Z.of_nat (int_at (_ioffset ral) i + p)) = Z.of_nat p)
  /\ (p < noutputs r i ->
      oindex_eindex ral (Z.of_nat (int_at (_ooffset ral) i + p)) = Z.of_nat i
      /\ oindex_port ral (Z.of_nat (int_at (_ooffset ral) i + p)) = Z.of_nat p).
Proof.
  intros ral Hi. subst ral.
  unfold iindex_eindex, iindex_port, oindex_eindex, oindex_port.
  cbn [RouterAlign_new _icount _ioffset _ooffset].
  set (ne := nelements r) in *.
  assert (Hli : length (ninputs r <$> seq 0 ne) = ne)
    by (by rewrite length_fmap, length_seq).
  assert (Hlo : length (noutputs r <$> seq 0 ne) = ne)
    by (by rewrite length_fmap, length_seq).
  split; intros Hp.
  - rewrite first_element_below_at
      by (rewrite ?Hli, ?int_at_fmap_seq; done).
    split; [done|lia].
  - replace (length (ninputs r <$> seq 0 ne))
      with (length (noutputs r <$> seq 0 ne)) by congruence.
    rewrite first_element_below_at
      by (rewrite ?Hlo, ?int_at_fmap_seq; done).
    split; [done|lia].
Qed.

Lemma first_element_below_negative offs ne (x : Z) :
  (x < 0)%Z -> 0 < ne -> first_element_below offs ne x = Some 0.
Proof.
  intros Hx Hne. unfold first_element_below.
  destruct ne as [|ne]; [lia|]. cbn [seq List.find].
  by rewrite (proj2 (Z.ltb_lt _ _)) by lia.
Qed.

(** X4: a negative flat index is not refused: when the router has an
    element, the four index functions answer element 0 and, as the port,
    the negative index itself; only for a router without elements do they
    answer -1. *)
Theorem index_below_zero (env : AlignEnv) (r : RouterT) (x : Z) :
  let ral := RouterAlign_new env r in
  (x < 0)%Z ->
  (0 < nelements r ->
   iindex_eindex ral x = 0%Z /\ iindex_port ral x = x
   /\ oindex_eindex ral x = 0%Z /\ oindex_port ral x = x)
  /\ (nelements r = 0 ->
      iindex_eindex ral x = (-1)%Z /\ iindex_port ral x = (-1)%Z
      /\ oindex_eindex ral x = (-1)%Z /\ oindex_port ral x = (-1)%Z).
Proof.
  intros ral Hx. subst ral.
  unfold iindex_eindex, iindex_port, oindex_eindex, oindex_port.
  cbn [RouterAlign_new _icount _ioffset _ooffset].
  rewrite length_fmap, length_seq.
  split; intros Hne.
  - rewrite !first_element_below_negative by done.
    rewrite !int_at_offsets_from_0. repeat split; lia.
  - rewrite Hne. done.
Qed.

(** ** The flags and the repetition of a pass *)

Lemma vectors_differ_same n v : vectors_differ n v v = false.
Proof.
  unfold vectors_differ. apply not_true_is_false. intros H.
  apply existsb_exists in H as (i & _ & Hi).
  unfold Alignment_ne in Hi. by rewrite bool_decide_true in Hi.
Qed.

(** X5: [have_input] reports a change exactly when the input alignments it
    leaves differ from those it found, and [want_output] exactly when the
    output alignments do. *)
Theorem change_reported_exactly (ral : RouterAlign) :
  ((have_input ral).1 = false <-> _ialign (have_input ral).2 = _ialign ral)
  /\ ((want_output ral).1 = false <-> _oalign (want_output ral).2 = _oalign ral).
Proof.
  split; split.
  - intros H. pose proof (have_input_unchanged ral (have_input ral).2) as Hu.
    rewrite Hu at 1; [done|]. by destruct (have_input ral) as [[] ?].
  - intros H. unfold have_input in *. cbn [fst snd set_ialign _ialign] in *.
    rewrite H. apply vectors_differ_same.
  - intros H. pose proof (want_output_unchanged ral (want_output ral).2) as Hu.
    rewrite Hu at 1; [done|]. by destruct (want_output ral) as [[] ?].
  - intros H. unfold want_output in *. cbn [fst snd set_oalign _oalign] in *.
    rewrite H. apply vectors_differ_same.
Qed.

Lemma have_input_again ral :
  have_input (have_input ral).2 = (false, (have_input ral).2).
Proof.
  pose proof (have_input_length ral) as Hl.
  unfold have_input in *. cbn [fst snd set_ialign _ialign _oalign _router
                               _ioffset _ooffset] in *.
  rewrite Hl. by rewrite vectors_differ_same.
Qed.

Lemma want_output_again ral :
  want_output (want_output ral).2 = (false, (want_output ral).2).
Proof.
  pose proof (want_output_length ral) as Hl.
  unfold want_output in *. cbn [fst snd set_oalign _ialign _oalign _router
                                _ioffset _ooffset] in *.
  rewrite Hl. by rewrite vectors_differ_same.
Qed.

(** X6: each of the four half passes does nothing when it is run a second
    time in a row: [have_output] and [want_input] return the engine they
    were given, and [have_input] and [want_output] return it and report no
    change. *)
Theorem half_pass_repeated (env : AlignEnv) (ral : RouterAlign) :
  have_output env (have_output env ral) = have_output env ral
  /\ have_input (have_input ral).2 = (false, (have_input ral).2)
  /\ want_input env (want_input env ral) = want_input env ral
  /\ want_output (want_output ral).2 = (false, (want_output ral).2).
Proof.
  split; [apply have_output_idempotent|].
  split; [apply have_input_again|].
  split; [apply want_input_idempotent|apply want_output_again].
Qed.

(** ** What the passes leave at a port *)

(** X7: on an engine of the shape the constructor gives, for a router whose
    connections mention its own elements, [have_input] leaves at an input
    port the join, taken from the default alignment in the order of the
    connections, of the output alignments at the sources of the live
    connections into the port; a port without a live connection is left with
    the default alignment. *)
Theorem have_input_joins_sources (env : AlignEnv) (r : RouterT)
    (ral : RouterAlign) (p : PortT) :
  RouterT_wf r ->
  same_shape (RouterAlign_new env r) ral ->
  p_eindex p < nelements r -> p_port p < ninputs r (p_eindex p) ->
  align_at (_ialign (have_input ral).2)
    (int_at (_ioffset ral) (p_eindex p) + p_port p)
  = foldl weaken Alignment_default
      ((fun q => align_at (_oalign ral)
                   (int_at (_ooffset ral) (p_eindex q) + p_port q))
         <$> find_connections_to r p).
Proof. apply have_input_at_port. Qed.

Lemma foldl_strengthen_lookup {A} (live : A -> bool) (idx : A -> nat)
    (val : A -> Alignment) (l : list A) (v : list Alignment) k :
  foldl (fun v c => if live c
                    then alter (fun a => strengthen a (val c)) (idx c) v else v)
    v l !! k
  = (fun a => foldl strengthen a
                (val <$> filter (fun c => live c = true /\ idx c = k) l))
      <$> v !! k.
Proof.
  revert v; induction l as [|c l IH]; intros v.
  - simpl. by destruct (v !! k).
  - cbn [foldl]. rewrite IH, filter_cons.
    destruct (live c) eqn:Hl.
    + destruct (decide (idx c = k)) as [<-|Hne].
      * rewrite decide_True by done. rewrite list_lookup_alter_eq.
        by destruct (v !! idx c).
      * rewrite decide_False by (by intros [_ ?]).
        by rewrite list_lookup_alter_ne.
    + by rewrite decide_False by (by intros [? _]).
Qed.

(** X8: under the same conditions [want_output] leaves at an output port
    the meet, taken from the default alignment in the order of the
    connections, of the input alignments at the ports that the live
    connections from the port feed. *)
Theorem want_output_meets_targets (env : AlignEnv) (r : RouterT)
    (ral : RouterAlign) (p : PortT) :
  RouterT_wf r ->
  same_shape (RouterAlign_new env r) ral ->
  p_eindex p < nelements r -> p_port p < noutputs r (p_eindex p) ->
  align_at (_oalign (want_output ral).2)
    (int_at (_ooffset ral) (p_eindex p) + p_port p)
  = foldl strengthen Alignment_default
      ((fun q => align_at (_ialign ral)
                   (int_at (_ioffset ral) (p_eindex q) + p_port q))
         <$> find_connections_from r p).
Proof.
  intros Hwf (Hr & Hic & Hoc & Hio & Hoo & _ & _ & Hlo) Hpe Hpp.
  cbn in Hr, Hoc, Hoo, Hlo. rewrite length_replicate in Hlo.
  unfold want_output. cbn [snd set_oalign _oalign]. unfold align_at at 1.
  rewrite (foldl_strengthen_lookup c_live
             (fun c => int_at (_ooffset ral) (p_eindex (c_from c))
                       + p_port (c_from c))
             (fun c => align_at (_ialign ral)
                         (int_at (_ioffset ral) (p_eindex (c_to c))
                          + p_port (c_to c)))).
  set (cs := noutputs r <$> seq 0 (nelements r)) in *.
  assert (length cs = nelements r) as Hlcs
    by (subst cs; by rewrite length_fmap, length_seq).
  assert (forall i, i < nelements r -> int_at cs i = noutputs r i) as Hcs
    by (intros; subst cs; by apply int_at_fmap_seq).
  rewrite lookup_replicate_2.
  2:{ rewrite <- Hlo, <- Hoo, <- int_at_offsets_from_total, Hlcs.
      pose proof (offsets_flat_lt cs (p_eindex p) (p_port p)).
      pose proof (int_at_offsets_from_mono cs (S (p_eindex p)) (nelements r)).
      rewrite Hcs in *; lia. }
  simpl. f_equal. unfold find_connections_from. rewrite <- list_fmap_compose.
  rewrite <- Hr. f_equal.
  apply filter_ext_elem. intros c Hc. split; intros [Hl Hfrom]; split; try done.
  - destruct (Hwf c Hc) as [Hfe _].
    pose proof (port_lt_noutputs r c Hc Hl) as Hfp.
    rewrite <- Hoo in Hfrom.
    apply offsets_flat_inj in Hfrom as [? ?]; rewrite ?Hcs; try lia.
    destruct (c_from c), p; simpl in *; congruence.
  - by rewrite Hfrom.
Qed.

(** ** What the passes leave in the slice of an element *)

(** X9: on an engine of the shape the constructor gives, [have_output]
    leaves at output [k] of a live element the value [k] of what the
    [have_flow] of the element's class makes of the element's own input
    slice: no element writes into the slice of another. *)
Theorem have_output_slice (env : AlignEnv) (r : RouterT) (ral : RouterAlign)
    (e : nat) (x : ElementT) (k : nat) :
  same_shape (RouterAlign_new env r) ral ->
  r_elements r !! e = Some x -> e_live x = true ->
  k < noutputs r e ->
  let vals := have_flow (class_factory env (e_type x) x)
                (slice (_ialign ral) (int_at (_ioffset ral) e) (ninputs r e))
                (noutputs r e) (flow_code (element_map env (e_type x))) in
  k < length vals ->
  _oalign (have_output env ral) !! (int_at (_ooffset ral) e + k) = vals !! k.
Proof. apply have_output_at. Qed.

Lemma want_input_at env r ral e x k :
  same_shape (RouterAlign_new env r) ral ->
  r_elements r !! e = Some x -> e_live x = true ->
  k < ninputs r e ->
  let vals := want_flow (class_factory env (e_type x) x)
                (slice (_oalign ral) (int_at (_ooffset ral) e) (noutputs r e))
                (ninputs r e) (flow_code (element_map env (e_type x))) in
  k < length vals ->
  _ialign (want_input env ral) !! (int_at (_ioffset ral) e + k) = vals !! k.
Proof.
  intros (Hr & Hic & Hoc & Hio & Hoo & Hal & Hli & _) Hx Hlive Hk vals Hkv.
  cbn in Hr, Hic, Hoc, Hio, Hal, Hli. rewrite length_replicate in Hli.
  pose proof (lookup_lt_Some _ _ _ Hx) as He. fold (nelements r) in He.
  set (cs := ninputs r <$> seq 0 (nelements r)) in *.
  assert (length cs = nelements r) as Hlcs
    by (subst cs; by rewrite length_fmap, length_seq).
  assert (forall i, i < nelements r -> int_at cs i = ninputs r i) as Hcs
    by (intros; subst cs; by apply int_at_fmap_seq).
  assert (length (_icount ral) = nelements r) as Hne by (by rewrite <- Hic).
  unfold want_input. cbn [set_ialign _ialign]. rewrite Hne.
  assert (int_at (_icount ral) e = ninputs r e) as Hie
    by (rewrite <- Hic; by apply Hcs).
  assert (int_at (_ocount ral) e = noutputs r e) as Hce
    by (rewrite <- Hoc; by apply int_at_fmap_seq).
  assert (aligner_at (_aligners ral) e = class_factory env (e_type x) x) as Hae.
  { rewrite <- Hal. unfold aligner_at. rewrite list_lookup_fmap, Hx. simpl.
    by rewrite Hlive. }
  assert (etype_name (_router ral) e = e_type x) as Hte
    by (rewrite <- Hr; unfold etype_name; by rewrite Hx).
  rewrite (writes_own
             (fun i => int_at (_ioffset ral) i) (fun i => int_at (_icount ral) i)
             (fun i => want_flow (aligner_at (_aligners ral) i)
                         (slice (_oalign ral) (int_at (_ooffset ral) i)
                            (int_at (_ocount ral) i))
                         (int_at (_icount ral) i)
                         (flow_code (element_map env (etype_name (_router ral) i))))
             (nelements r) e).
  - rewrite Hce, Hie, Hae, Hte. fold vals.
    rewrite lookup_take_lt by lia. f_equal. lia.
  - done.
  - intros i Hi. rewrite <- Hio, <- Hic.
    rewrite <- int_at_offsets_from_S by lia.
    apply int_at_offsets_from_mono; lia.
  - rewrite Hce, Hie, Hae, Hte. fold vals. rewrite length_take. lia.
  - rewrite <- Hli, <- Hio, <- int_at_offsets_from_total, Hlcs.
    pose proof (offsets_flat_lt cs e k).
    pose proof (int_at_offsets_from_mono cs (S e) (nelements r)).
    rewrite Hcs in *; lia.
Qed.

(** X10: likewise [want_input] leaves at input [k] of a live element the
    value [k] of what the [want_flow] of the element's class makes of the
    element's own output slice. *)
Theorem want_input_slice (env : AlignEnv) (r : RouterT) (ral : RouterAlign)
    (e : nat) (x : ElementT) (k : nat) :
  same_shape (RouterAlign_new env r) ral ->
  r_elements r !! e = Some x -> e_live x = true ->
  k < ninputs r e ->
  let vals := want_flow (class_factory env (e_type x) x)
                (slice (_oalign ral) (int_at (_ooffset ral) e) (noutputs r e))
                (ninputs r e) (flow_code (element_map env (e_type x))) in
  k < length vals ->
  _ialign (want_input env ral) !! (int_at (_ioffset ral) e + k) = vals !! k.
Proof. apply want_input_at. Qed.

(** Writes whose values are computed from the vector being written. *)
Lemma dep_writes_length (off cnt : nat -> nat)
    (vals : list Alignment -> nat -> list Alignment) (l : list nat) v :
  length (foldl (fun v i => write_slice (off i) (cnt i) (vals v i) v) v l)
  = length v.
Proof. apply foldl_alter_length. intros; apply write_slice_length. Qed.

Lemma dep_writes_untouched (off cnt : nat -> nat)
    (vals : list Alignment -> nat -> list Alignment) (l : list nat) v k :
  (forall i, i ∈ l -> ~ (off i <= k < off i + cnt i)) ->
  foldl (fun v i => write_slice (off i) (cnt i) (vals v i) v) v l !! k = v !! k.
Proof.
  revert v; induction l as [|i l IH]; intros v Hl; [done|].
  cbn [foldl]. rewrite IH by (intros; apply Hl; by right).
  rewrite write_slice_lookup. rewrite decide_False; [done|].
  intros [H _]. apply (Hl i); [by left|]. rewrite length_take in H. lia.
Qed.

Lemma slice_ext v v' o n :
  (forall k, o <= k < o + n -> v !! k = v' !! k) -> slice v o n = slice v' o n.
Proof.
  intros H. unfold slice. apply list_eq. intros j.
  destruct (decide (j < n)).
  - rewrite !lookup_take_lt, !lookup_drop by done. apply H; lia.
  - by rewrite !lookup_take_ge by lia.
Qed.

Lemma dep_writes_own (off cnt : nat -> nat)
    (vals : list Alignment -> nat -> list Alignment) ne e v k :
  e < ne ->
  (forall i j, i < j < ne -> off i + cnt i <= off j) ->
  (forall v v' i, slice v (off i) (cnt i) = slice v' (off i) (cnt i) ->
     vals v i = vals v' i) ->
  off e <= k < off e + length (take (cnt e) (vals v e)) ->
  k < length v ->
  foldl (fun v i => write_slice (off i) (cnt i) (vals v i) v) v (seq 0 ne) !! k
  = take (cnt e) (vals v e) !! (k - off e).
Proof.
  intros He Hsorted Hdep Hk Hlen.
  replace ne with (e + (1 + (ne - S e))) by lia.
  rewrite !seq_app, !foldl_app. cbn [seq foldl]. change (0 + e) with e.
  set (v1 := foldl (fun v i => write_slice (off i) (cnt i) (vals v i) v) v
               (seq 0 e)).
  assert (vals v1 e = vals v e) as Hv.
  { apply Hdep, slice_ext. intros j Hj. subst v1.
    apply dep_writes_untouched. intros i Hi. apply elem_of_seq in Hi.
    specialize (Hsorted i e ltac:(lia)). lia. }
  rewrite dep_writes_untouched.
  - rewrite write_slice_lookup, Hv, decide_True; [done|].
    split; [done|]. subst v1. by rewrite dep_writes_length.
  - intros i Hi. apply elem_of_seq in Hi.
    specialize (Hsorted e i ltac:(lia)).
    rewrite length_take in Hk. lia.
Qed.

(** X11: [adjust] leaves at input [k] of a live element the value [k] of
    what the [adjust_flow] of the element's class makes of the input slice
    and the output slice the element had before the call: what [adjust]
    has written for the elements before does not reach it. *)
Theorem adjust_slice (env : AlignEnv) (r : RouterT) (ral : RouterAlign)
    (e : nat) (x : ElementT) (k : nat) :
  same_shape (RouterAlign_new env r) ral ->
  r_elements r !! e = Some x -> e_live x = true ->
  k < ninputs r e ->
  let vals := adjust_flow (class_factory env (e_type x) x)
                (slice (_ialign ral) (int_at (_ioffset ral) e) (ninputs r e))
                (slice (_oalign ral) (int_at (_ooffset ral) e) (noutputs r e)) in
  k < length vals ->
  _ialign (adjust ral) !! (int_at (_ioffset ral) e + k) = vals !! k.
Proof.
  intros (Hr & Hic & Hoc & Hio & Hoo & Hal & Hli & _) Hx Hlive Hk vals Hkv.
  cbn in Hr, Hic, Hoc, Hio, Hal, Hli. rewrite length_replicate in Hli.
  pose proof (lookup_lt_Some _ _ _ Hx) as He. fold (nelements r) in He.
  set (cs := ninputs r <$> seq 0 (nelements r)) in *.
  assert (length cs = nelements r) as Hlcs
    by (subst cs; by rewrite length_fmap, length_seq).
  assert (forall i, i < nelements r -> int_at cs i = ninputs r i) as Hcs
    by (intros; subst cs; by apply int_at_fmap_seq).
  assert (length (_icount ral) = nelements r) as Hne by (by rewrite <- Hic).
  unfold adjust. cbn [set_ialign _ialign]. rewrite Hne.
  assert (int_at (_icount ral) e = ninputs r e) as Hie
    by (rewrite <- Hic; by apply Hcs).
  assert (int_at (_ocount ral) e = noutputs r e) as Hce
    by (rewrite <- Hoc; by apply int_at_fmap_seq).
  assert (aligner_at (_aligners ral) e = class_factory env (e_type x) x) as Hae.
  { rewrite <- Hal. unfold aligner_at. rewrite list_lookup_fmap, Hx. simpl.
    by rewrite Hlive. }
  rewrite (dep_writes_own
             (fun i => int_at (_ioffset ral) i) (fun i => int_at (_icount ral) i)
             (fun v i => adjust_flow (aligner_at (_aligners ral) i)
                           (slice v (int_at (_ioffset ral) i)
                              (int_at (_icount ral) i))
                           (slice (_oalign ral) (int_at (_ooffset ral) i)
                              (int_at (_ocount ral) i)))
             (nelements r) e).
  - rewrite Hce, Hie, Hae. fold vals.
    rewrite lookup_take_lt by lia. f_equal. lia.
  - done.
  - intros i j Hij. rewrite <- Hio, <- Hic.
    rewrite <- int_at_offsets_from_S by lia.
    apply int_at_offsets_from_mono; lia.
  - intros v v' i Hs. by rewrite Hs.
  - rewrite Hce, Hie, Hae. fold vals. rewrite length_take. lia.
  - rewrite <- Hli, <- Hio, <- int_at_offsets_from_total, Hlcs.
    pose proof (offsets_flat_lt cs e k).
    pose proof (int_at_offsets_from_mono cs (S e) (nelements r)).
    rewrite Hcs in *; lia.
Qed.

(** ** The reads stay inside the vectors *)

Lemma flat_index_lt cs i j :
  i < length cs -> j < int_at cs i ->
  int_at (offsets_from 0 cs) i + j < foldr Nat.add 0 cs.
Proof.
  intros Hi Hj.
  pose proof (offsets_flat_lt cs i j Hi Hj).
  pose proof (int_at_offsets_from_mono cs (S i) (length cs) ltac:(lia) ltac:(lia)).
  rewrite int_at_offsets_from_total in *. lia.
Qed.

(** X12: on an engine of the shape the constructor gives, for a router
    whose connections mention its own elements, the two flat indices that
    [have_input] and [want_output] compute for a live connection lie inside
    the input and the output alignment vector, their elements inside the
    offset vectors, and so does the flat index of every port [j] below the
    count of an element [i], as the loops of [main] and [print] form it. *)
Theorem flat_indices_in_bounds (env : AlignEnv) (r : RouterT)
    (ral : RouterAlign) :
  RouterT_wf r ->
  same_shape (RouterAlign_new env r) ral ->
  (forall c, c ∈ r_conn r -> c_live c = true ->
     p_eindex (c_to c) < length (_ioffset ral)
     /\ p_eindex (c_from c) < length (_ooffset ral)
     /\ ioff ral c < length (_ialign ral)
     /\ ooff ral c < length (_oalign ral))
  /\ (forall i j, i < nelements r -> j < int_at (_icount ral) i ->
        int_at (_ioffset ral) i + j < length (_ialign ral))
  /\ (forall i j, i < nelements r -> j < int_at (_ocount ral) i ->
        int_at (_ooffset ral) i + j < length (_oalign ral)).
Proof.
  intros Hwf (Hr & Hic & Hoc & Hio & Hoo & _ & Hli & Hlo).
  cbn in Hic, Hoc, Hio, Hoo, Hli, Hlo. rewrite length_replicate in Hli, Hlo.
  set (ci := ninputs r <$> seq 0 (nelements r)) in *.
  set (co := noutputs r <$> seq 0 (nelements r)) in *.
  assert (length ci = nelements r) as Hlci
    by (subst ci; by rewrite length_fmap, length_seq).
  assert (length co = nelements r) as Hlco
    by (subst co; by rewrite length_fmap, length_seq).
  assert (forall i j, i < nelements r -> j < int_at (_icount ral) i ->
            int_at (_ioffset ral) i + j < length (_ialign ral)) as Hin.
  { intros i j Hi Hj. rewrite <- Hli, <- Hio. rewrite <- Hic in Hj.
    apply flat_index_lt; [lia|done]. }
  assert (forall i j, i < nelements r -> j < int_at (_ocount ral) i ->
            int_at (_ooffset ral) i + j < length (_oalign ral)) as Hout.
  { intros i j Hi Hj. rewrite <- Hlo, <- Hoo. rewrite <- Hoc in Hj.
    apply flat_index_lt; [lia|done]. }
  split; [|by split].
  intros c Hc Hl. destruct (Hwf c Hc) as [Hf Ht].
  rewrite <- Hio, <- Hoo, !offsets_from_length, Hlci, Hlco.
  split; [lia|]. split; [lia|]. unfold ioff, ooff. split.
  - apply Hin; [done|]. rewrite <- Hic. subst ci.
    rewrite int_at_fmap_seq by done. by apply port_lt_ninputs.
  - apply Hout; [done|]. rewrite <- Hoc. subst co.
    rewrite int_at_fmap_seq by done. by apply port_lt_noutputs.
Qed.

(** ** The engine a loop ends with *)

Lemma forward_pass_settled env ral ral' :
  forward_pass env ral = (false, ral') -> forward_pass env ral' = (false, ral').
Proof.
  unfold forward_pass. intros H.
  pose proof (have_input_unchanged _ _ H) as ->.
  by rewrite have_output_idempotent.
Qed.

Lemma backward_pass_settled env ral ral' :
  backward_pass env ral = (false, ral') ->
  backward_pass env ral' = (false, ral').
Proof.
  unfold backward_pass. intros H.
  pose proof (want_output_unchanged _ _ H) as ->.
  by rewrite want_input_idempotent.
Qed.

Lemma have_loop_end env fuel ral ral' :
  have_loop env fuel ral = Some ral' ->
  forward_pass env ral' = (false, ral')
  /\ forall fuel', fuel <= fuel' -> have_loop env fuel' ral = Some ral'.
Proof.
  revert ral; induction fuel as [|f IH]; intros ral; [discriminate|].
  rewrite have_loop_S.
  destruct (forward_pass env ral) as [[] ral1] eqn:Hp; cbn [fst snd].
  - intros H. destruct (IH _ H) as [Hs Hm]. split; [done|].
    intros [|f'] Hf; [lia|]. rewrite have_loop_S, Hp. cbn [fst snd].
    apply Hm. lia.
  - intros [= <-]. split; [by eapply forward_pass_settled|].
    intros [|f'] Hf; [lia|]. by rewrite have_loop_S, Hp.
Qed.

Lemma want_loop_end env fuel ral ral' :
  want_loop env fuel ral = Some ral' ->
  backward_pass env ral' = (false, ral')
  /\ forall fuel', fuel <= fuel' -> want_loop env fuel' ral = Some ral'.
Proof.
  revert ral; induction fuel as [|f IH]; intros ral; [discriminate|].
  rewrite want_loop_S.
  destruct (backward_pass env ral) as [[] ral1] eqn:Hp; cbn [fst snd].
  - intros H. destruct (IH _ H) as [Hs Hm]. split; [done|].
    intros [|f'] Hf; [lia|]. rewrite want_loop_S, Hp. cbn [fst snd].
    apply Hm. lia.
  - intros [= <-]. split; [by eapply backward_pass_settled|].
    intros [|f'] Hf; [lia|]. by rewrite want_loop_S, Hp.
Qed.

(** X13: the engine with which the loop [do have_output while have_input]
    ends has the shape of the engine the loop started from and is stable:
    one more turn returns it and reports no change; it is the engine the
    loop ends with under any larger bound on the number of turns.  The same
    holds of the loop [do want_input while want_output]. *)
Theorem loops_end_stable (env : AlignEnv) (fuel : nat)
    (ral ral' : RouterAlign) :
  (have_loop env fuel ral = Some ral' ->
   same_shape ral ral'
   /\ forward_pass env ral' = (false, ral')
   /\ forall fuel', fuel <= fuel' -> have_loop env fuel' ral = Some ral')
  /\ (want_loop env fuel ral = Some ral' ->
      same_shape ral ral'
      /\ backward_pass env ral' = (false, ral')
      /\ forall fuel', fuel <= fuel' -> want_loop env fuel' ral = Some ral').
Proof.
  split; intros H.
  - split; [by eapply have_loop_shape|by apply have_loop_end].
  - split; [by eapply want_loop_shape|by apply want_loop_end].
Qed.

(** ** Phase 4: the test and the reads it makes *)








(** ** The classes with a fixed alignment *)

Lemma class_factory_generator env name x :
  (name ∈ ["FromDevice"; "PollDevice"; "FromHost"; "SR2SetChecksum";
           "SR2CheckHeader"; "SetSRChecksum"; "CheckSRHeader"] ->
   class_factory env name x = GeneratorAligner (mkAlignment 4 2))
  /\ (name ∈ ["InfiniteSource"; "RatedSource"; "ICMPError"] ->
      class_factory env name x = GeneratorAligner (mkAlignment 4 0)).
Proof.
  split; intros H; apply list_elem_of_In in H; simpl in H;
    repeat (destruct H as [<-|H]; [reflexivity|]); destruct H.
Qed.

Lemma class_factory_want env name x :
  (name = "ToHost" -> class_factory env name x = WantAligner (mkAlignment 4 2))
  /\ (name ∈ ["IPEncap"; "UDPIPEncap"; "ICMPPingEncap"; "RandomUDPIPEncap";
              "RoundRobinUDPIPEncap"; "RoundRobinTCPIPEncap"] ->
      class_factory env name x = WantAligner (mkAlignment 4 0))
  /\ (name ∈ ["ARPResponder"; "ARPQuerier"] ->
      class_factory env name x = WantAligner (mkAlignment 2 0)).
Proof.
  split; [by intros ->|].
  split; intros H; apply list_elem_of_In in H; simpl in H;
    repeat (destruct H as [<-|H]; [reflexivity|]); destruct H.
Qed.

(** X14: on an engine of the shape the constructor gives, whatever
    alignments it holds, [have_output] leaves (4, 2) at every output of a
    live element of class FromDevice, PollDevice, FromHost, SR2SetChecksum,
    SR2CheckHeader, SetSRChecksum or CheckSRHeader and (4, 0) at every
    output of one of class InfiniteSource, RatedSource or ICMPError; and
    [want_input] leaves (4, 2) at every input of a live ToHost, (4, 0) at
    every input of a live IPEncap, UDPIPEncap, ICMPPingEncap,
    RandomUDPIPEncap, RoundRobinUDPIPEncap or RoundRobinTCPIPEncap, and
    (2, 0) at every input of a live ARPResponder or ARPQuerier. *)
Theorem fixed_alignment_classes (env : AlignEnv) (r : RouterT)
    (ral : RouterAlign) (e : nat) (x : ElementT) (k : nat) :
  same_shape (RouterAlign_new env r) ral ->
  r_elements r !! e = Some x -> e_live x = true ->
  (k < noutputs r e ->
   (e_type x ∈ ["FromDevice"; "PollDevice"; "FromHost"; "SR2SetChecksum";
                "SR2CheckHeader"; "SetSRChecksum"; "CheckSRHeader"] ->
    _oalign (have_output env ral) !! (int_at (_ooffset ral) e + k)
    = Some (mkAlignment 4 2))
   /\ (e_type x ∈ ["InfiniteSource"; "RatedSource"; "ICMPError"] ->
       _oalign (have_output env ral) !! (int_at (_ooffset ral) e + k)
       = Some (mkAlignment 4 0)))
  /\ (k < ninputs r e ->
      (e_type x = "ToHost" ->
       _ialign (want_input env ral) !! (int_at (_ioffset ral) e + k)
       = Some (mkAlignment 4 2))
      /\ (e_type x ∈ ["IPEncap"; "UDPIPEncap"; "ICMPPingEncap";
                      "RandomUDPIPEncap"; "RoundRobinUDPIPEncap";
                      "RoundRobinTCPIPEncap"] ->
          _ialign (want_input env ral) !! (int_at (_ioffset ral) e + k)
          = Some (mkAlignment 4 0))
      /\ (e_type x ∈ ["ARPResponder"; "ARPQuerier"] ->
          _ialign (want_input env ral) !! (int_at (_ioffset ral) e + k)
          = Some (mkAlignment 2 0))).
Proof.
  intros Hs Hx Hl.
  destruct (class_factory_generator env (e_type x) x) as [G2 G0].
  destruct (class_factory_want env (e_type x) x) as (W2 & W0 & W20).
  split; intros Hk.
  - pose proof (have_output_at env r ral e x k Hs Hx Hl Hk) as H. cbv zeta in H.
    split; intros Ht.
    + rewrite (G2 Ht) in H. cbn [have_flow GeneratorAligner] in H.
      rewrite H by (by rewrite length_replicate). by apply lookup_replicate_2.
    + rewrite (G0 Ht) in H. cbn [have_flow GeneratorAligner] in H.
      rewrite H by (by rewrite length_replicate). by apply lookup_replicate_2.
  - pose proof (want_input_at env r ral e x k Hs Hx Hl Hk) as H. cbv zeta in H.
    split; [|split]; intros Ht.
    + rewrite (W2 Ht) in H. cbn [want_flow WantAligner] in H.
      rewrite H by (by rewrite length_replicate). by apply lookup_replicate_2.
    + rewrite (W0 Ht) in H. cbn [want_flow WantAligner] in H.
      rewrite H by (by rewrite length_replicate). by apply lookup_replicate_2.
    + rewrite (W20 Ht) in H. cbn [want_flow WantAligner] in H.
      rewrite H by (by rewrite length_replicate). by apply lookup_replicate_2.
Qed.

(** ** Synthetic names *)

Lemma String_of_int_inj a b : String_of_int a = String_of_int b -> a = b.
Proof.
  intros H. apply (f_equal int_of_String) in H.
  rewrite !int_of_String_of_int in H. by injection H.
Qed.

Lemma append_inj_r (p a b : string) : p +:+ a = p +:+ b -> a = b.
Proof.
  induction p as [|c p IH]; [done|]. rewrite !append_cons. intros [= H]. auto.
Qed.

Lemma aligner_name_inj a b : aligner_name a = aligner_name b -> a = b.
Proof. intros H. by apply String_of_int_inj, (append_inj_r _ _ _ H). Qed.

Lemma find_index_None {A} (f : A -> bool) (l : list A) :
  find_index f l = None <-> forall x, x ∈ l -> f x = false.
Proof.
  induction l as [|y l IH]; simpl.
  - split; [|done]. intros _ x Hx. by apply elem_of_nil in Hx.
  - destruct (f y) eqn:Hy.
    + split; [done|]. intros H. rewrite H in Hy by left. done.
    + destruct (find_index f l) eqn:Hf; simpl.
      * split; [done|]. intros H. exfalso.
        assert (Some n = None) as E; [|done].
        apply IH. intros x Hx. apply H. by right.
      * split; [|done]. intros _ x Hx.
        apply elem_of_cons in Hx as [->|Hx]; [done|].
        by apply (proj1 IH).
Qed.

Lemma eindex_range r name :
  eindex r name = (-1)%Z \/ (0 <= eindex r name)%Z.
Proof. unfold eindex. destruct (find_index _ _); [right; lia|by left]. Qed.

Lemma eindex_used r name :
  (0 <= eindex r name)%Z <-> name ∈ e_name <$> r_elements r.
Proof.
  unfold eindex.
  destruct (find_index _ _) as [i|] eqn:Hf.
  - split; [intros _|lia].
    destruct (decide (name ∈ e_name <$> r_elements r)) as [|Hn]; [done|].
    exfalso. assert (Some i = None); [|done]. rewrite <- Hf.
    apply find_index_None. intros x Hx. apply bool_decide_eq_false.
    intros <-. apply Hn, list_elem_of_fmap. by exists x.
  - split; [lia|]. intros H. exfalso.
    apply list_elem_of_fmap in H as (x & -> & Hx).
    pose proof (proj1 (find_index_None _ _) Hf x Hx) as E.
    by apply bool_decide_eq_false in E.
Qed.

(** Of more consecutive synthetic names than the router has elements, one
    is not the name of an element. *)
Lemma unused_name_exists r a :
  exists k, k <= nelements r
    /\ eindex r (aligner_name (a + Z.of_nat k)) = (-1)%Z.
Proof.
  destruct (decide (Forall (fun k => (0 <= eindex r (aligner_name (a + Z.of_nat k)))%Z)
                      (seq 0 (S (nelements r))))) as [Hall|Hex].
  - exfalso.
    set (names := (fun k => aligner_name (a + Z.of_nat k))
                    <$> seq 0 (S (nelements r))).
    assert (NoDup names) as Hnd.
    { apply NoDup_fmap_2; [|apply NoDup_seq].
      intros k1 k2 E. apply aligner_name_inj in E. lia. }
    assert (names ⊆+ e_name <$> r_elements r) as Hsub.
    { apply NoDup_submseteq; [done|]. intros x Hx.
      apply list_elem_of_fmap in Hx as (k & -> & Hk).
      apply eindex_used. rewrite Forall_forall in Hall. by apply Hall. }
    apply submseteq_length in Hsub. subst names.
    rewrite !length_fmap, length_seq in Hsub.
    exact (Nat.nle_succ_diag_l _ Hsub).
  - apply not_Forall_Exists in Hex; [|intros; apply Z_le_dec].
    apply Exists_exists in Hex as (k & Hk & Hn).
    apply elem_of_seq in Hk. unfold compose in Hn. exists k. split; [lia|].
    destruct (eindex_range r (aligner_name (a + Z.of_nat k))); [done|lia].
Qed.

Lemma skip_used_names_first r fuel a k :
  k < fuel ->
  eindex r (aligner_name (a + Z.of_nat k)) = (-1)%Z ->
  exists a', skip_used_names fuel r a = Some a'
    /\ (a <= a' <= a + Z.of_nat k)%Z
    /\ eindex r (aligner_name a') = (-1)%Z
    /\ forall j, (a <= j < a')%Z -> (0 <= eindex r (aligner_name j))%Z.
Proof.
  revert a k; induction fuel as [|f IH]; intros a k Hk Hfree; [lia|].
  cbn [skip_used_names].
  destruct (0 <=? eindex r (aligner_name a))%Z eqn:Ha.
  - apply Z.leb_le in Ha.
    destruct k as [|k]; [rewrite Z.add_0_r in Hfree; lia|].
    destruct (IH (a + 1)%Z k ltac:(lia)) as (a' & Hs & Hr & Hf & Hu).
    { rewrite <- Hfree. do 2 f_equal. lia. }
    exists a'. split; [done|]. split; [lia|]. split; [done|].
    intros j Hj. destruct (decide (j = a)) as [->|]; [done|]. apply Hu. lia.
  - apply Z.leb_gt in Ha. exists a. split; [done|]. split; [lia|].
    split; [|intros; lia].
    destruct (eindex_range r (aligner_name a)); [done|lia].
Qed.

(** X15: the loop that looks for an unused synthetic name ends after at
    most as many turns as the router has elements: for any start [a] it
    returns the first [a'] from [a] on such that no element is named
    [aligner_name a'], and [a'] is at most [a] plus the number of
    elements. *)
Theorem anonymizer_loop_finds_unused_name (r : RouterT) (a : Z) (fuel : nat) :
  nelements r < fuel ->
  exists a', skip_used_names fuel r a = Some a'
    /\ (a <= a' <= a + Z.of_nat (nelements r))%Z
    /\ eindex r (aligner_name a') = (-1)%Z
    /\ forall k, (a <= k < a')%Z -> (0 <= eindex r (aligner_name k))%Z.
Proof.
  intros Hfuel. destruct (unused_name_exists r a) as (k & Hk & Hfree).
  destruct (skip_used_names_first r fuel a k ltac:(lia) Hfree)
    as (a' & Hs & Hr & Hrest).
  exists a'. split; [done|]. split; [lia|done].
Qed.

(** ** The bookkeeping of the insertion loops *)

Lemma foldl_invariant {S A} (I : S -> Prop) (f : S -> A -> S) (l : list A) s :
  (forall s a, I s -> I (f s a)) -> I s -> I (foldl f s l).
Proof.
  intros H. revert s; induction l as [|a l IH]; intros s Hs; simpl; auto.
Qed.

Lemma add_align_appends want i j s0 s (new : list ElementT) :
  r_elements (rw_router s) = r_elements (rw_router s0) ++ new
  /\ length (r_conn (rw_router s))
     = length (r_conn (rw_router s0)) + length new
  /\ rw_anonymizer s = (rw_anonymizer s0 + Z.of_nat (length new))%Z
  /\ rw_num_aligns_added s = (rw_num_aligns_added s0 + Z.of_nat (length new))%Z
  /\ (forall k x, new !! k = Some x ->
        e_name x = aligner_name (rw_anonymizer s0 + Z.of_nat k)
        /\ e_type x = "Align" /\ e_live x = true) ->
  let new' := new ++ [mkElementT (aligner_name (rw_anonymizer s)) "Align"
                        (align_configuration want) true] in
  r_elements (rw_router (add_align want i j s))
  = r_elements (rw_router s0) ++ new'
  /\ length (r_conn (rw_router (add_align want i j s)))
     = length (r_conn (rw_router s0)) + length new'
  /\ rw_anonymizer (add_align want i j s)
     = (rw_anonymizer s0 + Z.of_nat (length new'))%Z
  /\ rw_num_aligns_added (add_align want i j s)
     = (rw_num_aligns_added s0 + Z.of_nat (length new'))%Z
  /\ (forall k x, new' !! k = Some x ->
        e_name x = aligner_name (rw_anonymizer s0 + Z.of_nat k)
        /\ e_type x = "Align" /\ e_live x = true).
Proof.
  intros (He & Hc & Ha & Hn & Hnew) new'. subst new'.
  rewrite add_align_router, with_align_elements, with_align_conn.
  rewrite !length_app, length_fmap. cbn [length add_align get_element
    rw_anonymizer rw_num_aligns_added].
  split; [by rewrite He, app_assoc|]. split; [lia|]. split; [lia|].
  split; [lia|].
  intros k x Hk. apply lookup_app_Some in Hk as [Hk|[Hge Hk]]; [by apply Hnew|].
  apply list_lookup_singleton_Some in Hk as [Hk <-]. cbn.
  split; [|done]. rewrite Ha. do 2 f_equal. lia.
Qed.

Lemma add_required_aligns_appends ral want_ral n s :
  exists new : list ElementT,
    r_elements (rw_router (add_required_aligns ral want_ral n s))
    = r_elements (rw_router s) ++ new
    /\ length (r_conn (rw_router (add_required_aligns ral want_ral n s)))
       = length (r_conn (rw_router s)) + length new
    /\ rw_anonymizer (add_required_aligns ral want_ral n s)
       = (rw_anonymizer s + Z.of_nat (length new))%Z
    /\ rw_num_aligns_added (add_required_aligns ral want_ral n s)
       = (rw_num_aligns_added s + Z.of_nat (length new))%Z
    /\ (forall k x, new !! k = Some x ->
          e_name x = aligner_name (rw_anonymizer s + Z.of_nat k)
          /\ e_type x = "Align" /\ e_live x = true).
Proof.
  set (I := fun s1 : Rewrite =>
              exists new : list ElementT,
                r_elements (rw_router s1) = r_elements (rw_router s) ++ new
                /\ length (r_conn (rw_router s1))
                   = length (r_conn (rw_router s)) + length new
                /\ rw_anonymizer s1
                   = (rw_anonymizer s + Z.of_nat (length new))%Z
                /\ rw_num_aligns_added s1
                   = (rw_num_aligns_added s + Z.of_nat (length new))%Z
                /\ (forall k x, new !! k = Some x ->
                      e_name x = aligner_name (rw_anonymizer s + Z.of_nat k)
                      /\ e_type x = "Align" /\ e_live x = true)).
  change (I (add_required_aligns ral want_ral n s)).
  unfold add_required_aligns. apply foldl_invariant.
  - intros s1 i. apply foldl_invariant. intros s2 j (new & H).
    unfold add_required_align. destruct (_ || _); [by exists new|].
    eexists. by apply add_align_appends.
  - exists []. rewrite app_nil_r. simpl.
    split; [done|]. split; [lia|]. split; [lia|]. split; [lia|].
    intros k x Hk. by rewrite lookup_nil in Hk.
Qed.

(** X16: each turn of an insertion loop that adds an Align appends one
    live element of class Align and one connection and advances
    [anonymizer] and [num_aligns_added] by one; no other element is touched.
    The element added as number [k] is named [aligner_name] of the value of
    [anonymizer] at the start plus [k], so that the names given in one run
    of the loops are pairwise distinct. *)
Theorem insertions_are_counted (ral want_ral : RouterAlign) (n : nat)
    (s : Rewrite) :
  let s' := add_required_aligns ral want_ral n s in
  exists new : list ElementT,
    r_elements (rw_router s') = r_elements (rw_router s) ++ new
    /\ length (r_conn (rw_router s'))
       = length (r_conn (rw_router s)) + length new
    /\ rw_anonymizer s' = (rw_anonymizer s + Z.of_nat (length new))%Z
    /\ rw_num_aligns_added s'
       = (rw_num_aligns_added s + Z.of_nat (length new))%Z
    /\ (forall k x, new !! k = Some x ->
          e_name x = aligner_name (rw_anonymizer s + Z.of_nat k)
          /\ e_type x = "Align" /\ e_live x = true)
    /\ NoDup (e_name <$> new).
Proof.
  intros s'. subst s'.
  destruct (add_required_aligns_appends ral want_ral n s)
    as (new & He & Hc & Ha & Hn & Hnew).
  exists new. repeat (split; [done|]).
  apply NoDup_alt. intros k1 k2 name H1 H2.
  rewrite list_lookup_fmap in H1, H2.
  destruct (new !! k1) as [x1|] eqn:E1; [|done].
  destruct (new !! k2) as [x2|] eqn:E2; [|done].
  simpl in H1, H2. injection H1 as <-. injection H2 as H2.
  destruct (Hnew _ _ E1) as [N1 _]. destruct (Hnew _ _ E2) as [N2 _].
  rewrite N1, N2 in H2. apply aligner_name_inj in H2. lia.
Qed.

(** ** Phase 2 redirects connections at Align elements only *)

Lemma redirected_refl r c : redirected_at_an_Align r c c.
Proof. by repeat split. Qed.

Lemma redirected_trans r a b c :
  redirected_at_an_Align r a b -> redirected_at_an_Align r b c ->
  redirected_at_an_Align r a c.
Proof.
  intros (L1 & C1 & E1) (L2 & C2 & E2).
  split; [congruence|]. split; [congruence|].
  intros H. rewrite E2 by congruence. by apply E1.
Qed.

Lemma redirect_to_redirected r old h c :
  is_class r (p_eindex old) "Align" = true ->
  is_class r (p_eindex h) "Align" = true ->
  redirected_at_an_Align r c (redirect_to old h c).
Proof.
  intros Ho Hh. unfold redirect_to, PortT_eqb.
  case_bool_decide as E; [|apply redirected_refl].
  split; [done|]. cbn [c_to]. rewrite E, Ho, Hh. split; [done|discriminate].
Qed.

Lemma redirect_from_redirected r at_port h c :
  is_class r (p_eindex at_port) "Align" = true ->
  redirected_at_an_Align r c (redirect_from at_port h c).
Proof.
  intros Ha. unfold redirect_from, PortT_eqb.
  case_bool_decide as E; [|apply redirected_refl].
  split; [done|]. cbn [c_to]. rewrite E, Ha. split; [done|discriminate].
Qed.

Lemma remove_duplicate_align_redirects r rk i :
  r_elements rk = r_elements r ->
  exists g, r_conn (remove_duplicate_align (length (r_conn rk)) i rk)
            = g <$> r_conn rk
    /\ forall c, redirected_at_an_Align r c (g c).
Proof.
  intros He. unfold remove_duplicate_align.
  destruct (r_conn rk !! i) as [c|] eqn:Hc.
  - rewrite (conn_at_lookup rk i c Hc).
    destruct (c_live c && is_class rk (p_eindex (c_to c)) "Align"
              && is_class rk (p_eindex (c_from c)) "Align") eqn:Htest.
    + apply andb_true_iff in Htest as [Htest Hfrom].
      apply andb_true_iff in Htest as [_ Hto].
      rewrite (is_class_elements r rk) in Hfrom, Hto by done.
      case_bool_decide.
      * rewrite (redirect_to_loop rk i c Hc). eexists. split; [done|].
        intros c0. by apply redirect_to_redirected.
      * case_bool_decide.
        -- rewrite (redirect_from_loop rk i c _ Hc). eexists. split; [done|].
           intros c0. by apply redirect_from_redirected.
        -- exists id. split; [by rewrite list_fmap_id|].
           intros; apply redirected_refl.
    + exists id. split; [by rewrite list_fmap_id|]. intros; apply redirected_refl.
  - unfold conn_at. rewrite Hc. cbn.
    exists id. split; [by rewrite list_fmap_id|]. intros; apply redirected_refl.
Qed.

(** X17: phase 2 changes no element and neither adds, removes, kills nor
    revives a connection; a connection that does not enter an Align is left
    exactly as it was, and one that enters an Align still enters an Align:
    an element that is no Align keeps all the connections into it. *)
Theorem duplicate_aligns_redirect_only (r : RouterT) :
  r_elements (remove_duplicate_aligns r) = r_elements r
  /\ Forall2 (redirected_at_an_Align r)
       (r_conn r) (r_conn (remove_duplicate_aligns r)).
Proof.
  split; [apply remove_duplicate_aligns_elements|].
  unfold remove_duplicate_aligns.
  set (I := fun rk : RouterT =>
              r_elements rk = r_elements r
              /\ Forall2 (redirected_at_an_Align r) (r_conn r) (r_conn rk)).
  assert (I (foldl (fun r0 i => remove_duplicate_align (length (r_conn r)) i r0)
               r (seq 0 (length (r_conn r))))) as [_ H]; [|done].
  apply foldl_invariant.
  - intros rk i [He HF]. split; [by rewrite remove_duplicate_align_elements|].
    rewrite (Forall2_length _ _ _ HF).
    destruct (remove_duplicate_align_redirects r rk i He) as (g & -> & Hg).
    apply Forall2_fmap_r. eapply Forall2_impl; [exact HF|].
    intros a b Hab. eapply redirected_trans; [exact Hab|apply Hg].
  - split; [done|]. apply Forall_Forall2_diag, Forall_forall.
    intros; apply redirected_refl.
Qed.

(** ** Phase 4 kills and adds connections, and ends with none redundant *)

Lemma killed_or_kept_refl c : killed_or_kept c c.
Proof. by repeat split. Qed.

Lemma killed_or_kept_trans a b c :
  killed_or_kept a b -> killed_or_kept b c -> killed_or_kept a c.
Proof.
  intros (F1 & T1 & L1) (F2 & T2 & L2). repeat split; try congruence. auto.
Qed.

Lemma kill_duplicates_kills seen l :
  Forall2 killed_or_kept l (kill_duplicates seen l).
Proof.
  revert seen; induction l as [|c l IH]; intros seen; cbn [kill_duplicates].
  - constructor.
  - destruct (c_live c) eqn:Hl; [case_bool_decide|]; constructor;
      try apply IH; try apply killed_or_kept_refl.
    by repeat split.
Qed.

Lemma alter_killed_kills i l :
  Forall2 killed_or_kept l (alter killed i l).
Proof.
  revert i; induction l as [|c l IH]; intros i; [constructor|].
  destruct i as [|i]; simpl; constructor; try apply IH.
  - by repeat split.
  - apply Forall_Forall2_diag, Forall_forall. intros; apply killed_or_kept_refl.
  - apply killed_or_kept_refl.
Qed.

Lemma killed_or_kept_all_trans l1 l2 l3 :
  Forall2 killed_or_kept l1 l2 -> Forall2 killed_or_kept l2 l3 ->
  Forall2 killed_or_kept l1 l3.
Proof.
  intros H. revert l3. induction H as [|a b l1 l2 Hab _ IH]; intros l3 H3.
  - by inversion H3.
  - inversion H3 as [|? c ? l3' Hbc Hrest]; subst. constructor.
    + by eapply killed_or_kept_trans.
    + by apply IH.
Qed.

Lemma bypassed_refl r : bypassed r r.
Proof.
  split; [done|]. split.
  - exists (r_conn r), []. rewrite app_nil_r. split; [done|].
    apply Forall_Forall2_diag, Forall_forall. intros; apply killed_or_kept_refl.
  - apply Forall_forall. intros c Hc. split; apply list_elem_of_fmap; by exists c.
Qed.

Lemma bypassed_kills r rk l' :
  bypassed r rk -> Forall2 killed_or_kept (r_conn rk) l' ->
  bypassed r (mkRouterT (r_elements rk) l').
Proof.
  intros (He & (old & added & Hc & Hold) & Hj) Hk.
  split; [done|]. cbn [r_conn]. split.
  - rewrite Hc in Hk. apply Forall2_app_inv_l in Hk as (old' & added' & H1 & H2 & ->).
    exists old', added'. split; [done|].
    by apply (killed_or_kept_all_trans _ old).
  - apply Forall_forall. intros d Hd.
    apply list_elem_of_lookup in Hd as [i Hd].
    destruct (Forall2_lookup_r _ _ _ _ _ Hk Hd) as (d0 & Hd0 & F & T & _).
    rewrite Forall_forall in Hj.
    destruct (Hj d0 (list_elem_of_lookup_2 _ _ _ Hd0)) as [Hf Ht].
    split; congruence.
Qed.

Lemma bypassed_adds r rk news :
  bypassed r rk -> Forall (joins_ports_of r) news ->
  bypassed r (mkRouterT (r_elements rk) (r_conn rk ++ news)).
Proof.
  intros (He & (old & added & Hc & Hold) & Hj) Hn.
  split; [done|]. cbn [r_conn]. split.
  - exists old, (added ++ news). split; [|done]. by rewrite Hc, app_assoc.
  - by apply Forall_app.
Qed.

Lemma redundant_in_range ral r i :
  redundant ral r (conn_at r i) = Some true ->
  exists c, r_conn r !! i = Some c /\ conn_at r i = c.
Proof.
  unfold conn_at. destruct (r_conn r !! i) as [c|]; [by exists c|].
  unfold redundant. simpl. discriminate.
Qed.

Lemma skip_redundant_align_bypassed r ral i s s' :
  skip_redundant_align ral i s = Some s' ->
  bypassed r s.1 -> bypassed r s'.1.
Proof.
  unfold skip_redundant_align. intros Hs Hb.
  destruct (redundant ral s.1 (conn_at s.1 i)) as [[]|] eqn:Hred;
    cbn [mbind option_bind] in Hs; [| |discriminate]; injection Hs as <-;
    [|done].
  destruct (redundant_in_range _ _ _ Hred) as (c & Hc & Hat).
  pose proof (lookup_lt_Some _ _ _ Hc) as Hi.
  cbn [fst]. rewrite add_connections_conn by done. rewrite Hat.
  unfold kill_connection. cbn [r_elements r_conn].
  apply (bypassed_kills r
           (mkRouterT (r_elements s.1)
              (r_conn s.1
               ++ (mkConnectionT true (c_from c)
                     <$> find_connections_from s.1 (c_to c))))).
  - apply bypassed_adds; [done|].
    destruct Hb as (_ & _ & Hj). rewrite Forall_forall in Hj.
    apply Forall_forall. intros d Hd.
    apply list_elem_of_fmap in Hd as (q & -> & Hq).
    apply find_connections_from_elem in Hq as (c2 & Hc2 & _ & _ & <-).
    split; cbn [c_from c_to].
    + apply (Hj c). by eapply list_elem_of_lookup_2.
    + by apply (Hj c2).
  - apply alter_killed_kills.
Qed.

Lemma skip_redundant_aligns_bypassed r ral rk s :
  skip_redundant_aligns ral rk = Some s ->
  bypassed r rk -> bypassed r s.1.
Proof.
  intros Hs Hb. unfold skip_redundant_aligns, skip_redundant_aligns_upto in Hs.
  set (I := fun o : option (RouterT * bool) =>
              forall s, o = Some s -> bypassed r s.1).
  assert (I (foldl (fun s i => s ≫= skip_redundant_align ral i)
               (Some (rk, false)) (seq 0 (length (r_conn rk))))) as HI;
    [|by apply HI].
  apply foldl_invariant.
  - intros o i Ho s' Hs'. destruct o as [s0|]; [|discriminate].
    cbn [mbind option_bind] in Hs'.
    eapply skip_redundant_align_bypassed; [exact Hs'|by apply Ho].
  - by intros s0 [= <-].
Qed.

(** X18: when phase 4 ends, the elements are those it started with; every
    connection it started with is still at its place with the same two
    ends, live only if it was (none is redirected or revived); and every
    connection, the added ones included, starts at a port where a
    connection started and ends at a port where a connection ended. *)
Theorem redundant_aligns_bypassed (env : AlignEnv) (hfuel fuel : nat)
    (r r' : RouterT) :
  remove_redundant_aligns env hfuel fuel r = Some r' ->
  r_elements r' = r_elements r
  /\ (exists old added, r_conn r' = old ++ added
        /\ Forall2 killed_or_kept (r_conn r) old)
  /\ Forall (joins_ports_of r) (r_conn r').
Proof.
  intros H. change (bypassed r r').
  assert (forall rk, bypassed r rk ->
            remove_redundant_aligns env hfuel fuel rk = Some r' ->
            bypassed r r') as Hgen; [|by apply (Hgen r (bypassed_refl r))].
  clear H. induction fuel as [|f IH]; intros rk Hb; [discriminate|].
  cbn [remove_redundant_aligns].
  destruct (have_loop env hfuel (RouterAlign_new env rk)) as [ral|];
    [|discriminate].
  cbn [mbind option_bind].
  destruct (skip_redundant_aligns ral rk) as [[r1 ch]|] eqn:Hpass;
    [|discriminate].
  pose proof (skip_redundant_aligns_bypassed r ral rk _ Hpass Hb) as Hs.
  cbn [mbind option_bind fst] in *. destruct ch.
  - apply IH. unfold remove_duplicate_connections.
    apply bypassed_kills; [done|]. apply kill_duplicates_kills.
  - by intros [= <-].
Qed.

Lemma skip_redundant_aligns_settled ral r r1 :
  skip_redundant_aligns ral r = Some (r1, false) ->
  r1 = r /\ forall c, c ∈ r_conn r -> redundant ral r c = Some false.
Proof.
  unfold skip_redundant_aligns. intros Hs.
  destruct (skip_redundant_aligns_upto_spec ral r (length (r_conn r)) _
              ltac:(lia) Hs)
    as (extra & He & Hc & Hf & Hnil & Hdef & _).
  cbn [fst snd] in *. rewrite take_ge in Hf by lia.
  assert (forall c, c ∈ r_conn r -> is_redundant ral r c = false) as Hno.
  { intros c Hin. destruct (is_redundant ral r c) eqn:Hred; [|done].
    rewrite Hf. symmetry. apply existsb_exists. exists c.
    split; [by apply list_elem_of_In|done]. }
  split.
  - rewrite (Hnil eq_refl), app_nil_r in Hc.
    destruct r1 as [es1 cs1], r as [es cs]. cbn [r_conn r_elements] in *.
    rewrite He, Hc. f_equal.
    apply list_eq. intros i. rewrite killed_upto_lookup. cbn [r_conn].
    destruct (cs !! i) as [c|] eqn:Hci; [|done]. simpl.
    rewrite Hno by (by eapply list_elem_of_lookup_2). by rewrite andb_false_r.
  - intros c Hin. pose proof (Hno c Hin) as Hc0.
    apply list_elem_of_lookup in Hin as [i Hi].
    destruct (Hdef i (lookup_lt_Some _ _ _ Hi)) as [b Hb].
    rewrite (conn_at_lookup r i c Hi) in Hb.
    unfold is_redundant in Hc0. rewrite Hb in Hc0 |- *. cbn in Hc0. by subst b.
Qed.

(** What a test that is made and gives an answer has read. *)
Lemma redundant_answer ral r c b :
  c_live c && is_class r (p_eindex (c_to c)) "Align" = true ->
  redundant ral r c = Some b ->
  exists have want,
    _oalign ral !! ooff ral c = Some have
    /\ _oalign ral !! (int_at (_ooffset ral) (p_eindex (c_to c)) + 0)
       = Some want
    /\ compatible have want = b.
Proof.
  intros Htest. unfold redundant, ooff, int_at. rewrite Htest, Nat.add_0_r.
  destruct (_ooffset ral !! p_eindex (c_from c)) as [fo|]; [|discriminate].
  cbn [mbind option_bind default from_option id].
  destruct (_oalign ral !! (fo + p_port (c_from c))) as [have|]; [|discriminate].
  cbn [mbind option_bind].
  destruct (_ooffset ral !! p_eindex (c_to c)) as [to|]; [|discriminate].
  cbn [mbind option_bind default from_option id].
  destruct (_oalign ral !! to) as [want|]; [|discriminate].
  cbn [mbind option_bind]. intros [= <-]. by exists have, want.
Qed.

(** X19: when phase 4 ends, the forward loop converges on the router it
    returns, and under the alignments it gives the test of the loop is made
    inside the vectors and fails on every connection; so for every live
    connection into an Align that has an output, the alignment [have] at
    the slot of the source port and the alignment [own] at the slot of
    output 0 of the Align are both there, and [have] is not compatible with
    [own]: no redundant connection is left. *)
Theorem no_redundant_align_left (env : AlignEnv) (hfuel fuel : nat)
    (r r' : RouterT) :
  remove_redundant_aligns env hfuel fuel r = Some r' ->
  exists ral, have_loop env hfuel (RouterAlign_new env r') = Some ral
    /\ (forall c, c ∈ r_conn r' -> redundant ral r' c = Some false)
    /\ forall c, c ∈ r_conn r' -> c_live c = true ->
         is_class r' (p_eindex (c_to c)) "Align" = true ->
         0 < noutputs r' (p_eindex (c_to c)) ->
         exists have own,
           _oalign ral !! ooff ral c = Some have
           /\ _oalign ral !! (int_at (_ooffset ral) (p_eindex (c_to c)) + 0)
              = Some own
           /\ compatible have own = false.
Proof.
  revert r; induction fuel as [|f IH]; intros r; [discriminate|].
  cbn [remove_redundant_aligns].
  destruct (have_loop env hfuel (RouterAlign_new env r)) as [ral|] eqn:Hral;
    [|discriminate].
  cbn [mbind option_bind].
  destruct (skip_redundant_aligns ral r) as [[r1 ch]|] eqn:Hpass;
    [|discriminate].
  cbn [mbind option_bind]. destruct ch; [apply IH|].
  intros [= <-]. destruct (skip_redundant_aligns_settled ral r r1 Hpass)
    as [-> Hno].
  exists ral. split; [done|]. split; [done|].
  intros c Hin Hlive Hclass _.
  apply (redundant_answer ral r c false); [by rewrite Hlive, Hclass|by apply Hno].
Qed.

(** ** Phase 5: the elements that go *)

Lemma unused_killed_upto_lookup r k i :
  unused_killed_upto r k !! i
  = (fun e => if bool_decide (i < k)
                 && (unused_align r i || old_alignment_info r i)
              then killed_element e else e) <$> r_elements r !! i.
Proof. apply list_lookup_imap. Qed.

Lemma unused_killed_upto_0 r : unused_killed_upto r 0 = r_elements r.
Proof.
  apply list_eq. intros i. rewrite unused_killed_upto_lookup.
  by destruct (r_elements r !! i).
Qed.

Lemma unused_killed_upto_S r k :
  unused_killed_upto r (S k)
  = if unused_align r k || old_alignment_info r k
    then alter killed_element k (unused_killed_upto r k)
    else unused_killed_upto r k.
Proof.
  apply list_eq. intros i.
  destruct (unused_align r k || old_alignment_info r k) eqn:Hk.
  - rewrite list_lookup_alter, !unused_killed_upto_lookup.
    case_decide as Hi.
    + subst i. destruct (r_elements r !! k); [|done]. simpl.
      rewrite Hk, bool_decide_true by lia. by rewrite bool_decide_false by lia.
    + destruct (r_elements r !! i); [|done]. simpl.
      destruct (decide (i < k)).
      * by rewrite !bool_decide_true by lia.
      * by rewrite !bool_decide_false by lia.
  - rewrite !unused_killed_upto_lookup. destruct (r_elements r !! i); [|done].
    simpl. destruct (decide (i = k)) as [->|].
    + by rewrite Hk, !andb_false_r.
    + destruct (decide (i < k)).
      * by rewrite !bool_decide_true by lia.
      * by rewrite !bool_decide_false by lia.
Qed.

(** The loop of phase 5 after [k] turns. *)
Lemma remove_unused_align_turns s k :
  k <= nelements (rw_router s) ->
  foldl (fun s i => remove_unused_align i s) s (seq 0 k)
  = mkRewrite
      (mkRouterT (unused_killed_upto (rw_router s) k) (r_conn (rw_router s)))
      (rw_anonymizer s)
      (rw_num_aligns_added s
       - Z.of_nat (length (List.filter (unused_align (rw_router s)) (seq 0 k))))%Z.
Proof.
  set (r := rw_router s).
  induction k as [|k IH]; intros Hk.
  - simpl. rewrite unused_killed_upto_0, Z.sub_0_r. subst r.
    by destruct s as [[] ? ?].
  - rewrite seq_S, foldl_app, IH by lia. cbn [foldl]. change (0 + k) with k.
    rewrite List.filter_app, length_app, unused_killed_upto_S.
    cbn [List.filter].
    destruct (lookup_lt_is_Some_2 (r_elements r) k Hk) as [e He].
    unfold remove_unused_align. cbn [rw_router rw_anonymizer rw_num_aligns_added].
    assert (unused_killed_upto r k !! k = Some e) as Hek.
    { rewrite unused_killed_upto_lookup, He. simpl.
      by rewrite bool_decide_false by lia. }
    assert (element_live (mkRouterT (unused_killed_upto r k) (r_conn r)) k
            = element_live r k) as ->
      by (unfold element_live; cbn [r_elements]; by rewrite Hek, He).
    assert (forall class,
              is_class (mkRouterT (unused_killed_upto r k) (r_conn r)) k class
              = is_class r k class) as Hcl
      by (intros; unfold is_class, etype_name; cbn [r_elements];
          by rewrite Hek, He).
    rewrite !Hcl.
    change (ninputs (mkRouterT (unused_killed_upto r k) (r_conn r)) k)
      with (ninputs r k).
    change (noutputs (mkRouterT (unused_killed_upto r k) (r_conn r)) k)
      with (noutputs r k).
    unfold unused_align, old_alignment_info.
    destruct (element_live r k); cbn [andb orb];
      [|cbn [length]; f_equal; lia].
    destruct (is_class r k "Align"
              && (bool_decide (ninputs r k = 0) || bool_decide (noutputs r k = 0)))
      eqn:Hu; cbn [orb length].
    + unfold kill_element. cbn [r_elements r_conn]. f_equal. lia.
    + destruct (is_class r k "AlignmentInfo"); cbn [length].
      * unfold kill_element. cbn [r_elements r_conn]. f_equal. lia.
      * f_equal. lia.
Qed.

Lemma filter_killed_select (rem keep : nat -> bool) (l : list ElementT) i0 :
  (forall j x, l !! j = Some x ->
     keep (i0 + j) = e_live x && negb (rem (i0 + j))) ->
  filter (fun e => e_live e = true)
    (imap (fun j e => if rem (i0 + j) then killed_element e else e) l)
  = select_from keep i0 l.
Proof.
  revert i0; induction l as [|x l IH]; intros i0 H; [done|].
  rewrite imap_cons. cbn [select_from].
  rewrite (imap_ext _ (fun j e => if rem (S i0 + j) then killed_element e else e))
    by (intros j y _; simpl; by replace (i0 + S j) with (S (i0 + j)) by lia).
  rewrite filter_cons, IH.
  2:{ intros j y Hy. specialize (H (S j) y Hy).
      by replace (i0 + S j) with (S i0 + j) in H by lia. }
  specialize (H 0 x eq_refl). rewrite Nat.add_0_r in *. rewrite H.
  destruct (rem i0); cbn [killed_element e_live].
  - rewrite decide_False by done. by rewrite andb_false_r.
  - rewrite andb_true_r. destruct (e_live x).
    + by rewrite decide_True.
    + by rewrite decide_False.
Qed.

Lemma remove_unused_aligns_elements s :
  r_elements (rw_router (remove_unused_aligns s)) = kept_elements (rw_router s).
Proof.
  unfold remove_unused_aligns. rewrite remove_unused_align_turns by lia.
  cbn [rw_router remove_dead_elements r_elements].
  set (r := rw_router s). unfold unused_killed_upto, kept_elements.
  rewrite (imap_ext _ (fun j e => if unused_align r (0 + j)
                                     || old_alignment_info r (0 + j)
                                  then killed_element e else e)).
  - apply (filter_killed_select
             (fun j => unused_align r j || old_alignment_info r j)).
    intros j x Hx. simpl. unfold element_live at 1. rewrite Hx.
    by rewrite negb_orb, andb_assoc.
  - intros j x Hx. simpl.
    by rewrite bool_decide_true by (by eapply lookup_lt_Some).
Qed.

(** X20: phase 5 leaves, in their order, exactly the live elements that are
    neither an Align without input or without output nor an AlignmentInfo,
    the tests being those of the router as phase 5 found it (a removal does
    not make a further Align unused); [num_aligns_added] is lowered by the
    number of unused Aligns, whether this run added them or not, and
    [anonymizer] is not changed. *)
Theorem unused_aligns_removed (s : Rewrite) :
  r_elements (rw_router (remove_unused_aligns s)) = kept_elements (rw_router s)
  /\ rw_num_aligns_added (remove_unused_aligns s)
     = (rw_num_aligns_added s
        - Z.of_nat (length (List.filter (unused_align (rw_router s))
                              (seq 0 (nelements (rw_router s))))))%Z
  /\ rw_anonymizer (remove_unused_aligns s) = rw_anonymizer s.
Proof.
  split; [apply remove_unused_aligns_elements|].
  unfold remove_unused_aligns. by rewrite remove_unused_align_turns by lia.
Qed.

(** ** The elements of the router [main] writes *)

Lemma add_required_aligns_new ral want_ral n s :
  exists new : list ElementT,
    r_elements (rw_router (add_required_aligns ral want_ral n s))
    = r_elements (rw_router s) ++ new
    /\ Forall (fun x => e_type x = "Align" /\ e_live x = true) new.
Proof.
  destruct (add_required_aligns_appends ral want_ral n s)
    as (new & He & _ & _ & _ & Hnew).
  exists new. split; [done|]. apply Forall_forall. intros x Hx.
  apply list_elem_of_lookup in Hx as [k Hk]. by destruct (Hnew k x Hk) as [_ ?].
Qed.

(** The elements when [main] has come to its end: those of the router it
    was given and the Aligns added, less what phase 5 removes, and the
    AlignmentInfo of phase 6 if one is made. *)
Lemma click_align_elements env fuel router r6 n w :
  click_align env fuel router = Some (r6, n, w) ->
  exists (new : list ElementT) (r4 : RouterT) (tail : list ElementT),
    r_elements r4 = r_elements router ++ new
    /\ Forall (fun x => e_type x = "Align" /\ e_live x = true) new
    /\ r_elements r6 = kept_elements r4 ++ tail
    /\ (tail = []
        \/ exists sa,
             tail = [mkElementT
                       ("AlignmentInfo@click_align@"
                        +:+ String_of_int
                              (Z.of_nat (length (kept_elements r4)) + 1))
                       "AlignmentInfo" sa true]).
Proof.
  unfold click_align. intros H.
  destruct (rewrite_aligns env fuel router) as [s|] eqn:Hs; [|discriminate].
  cbn [mbind option_bind] in H.
  destruct (make_alignment_info env fuel (rw_router s)) as [r6'|] eqn:H6;
    [|discriminate].
  cbn [mbind option_bind] in H. injection H as -> _ _.
  unfold rewrite_aligns, insert_aligns in Hs.
  destruct (skip_used_names fuel router _) as [a|]; [|discriminate].
  cbn [mbind option_bind] in Hs.
  destruct (add_aligns_for_required env fuel (nelements router)
              (mkRewrite router a 0)) as [s1|] eqn:H1; [|discriminate].
  cbn [mbind option_bind] in Hs.
  destruct (add_aligns_for_adjustment env fuel (nelements router) _)
    as [s3|] eqn:H3; [|discriminate].
  cbn [mbind option_bind] in Hs.
  destruct (remove_redundant_aligns env fuel fuel (rw_router s3))
    as [r4|] eqn:H4; [|discriminate].
  cbn [mbind option_bind] in Hs. injection Hs as Hs.
  apply (f_equal (fun s => r_elements (rw_router s))) in Hs.
  rewrite remove_unused_aligns_elements in Hs. cbn [rw_router] in Hs.
  (* phase 1 *)
  unfold add_aligns_for_required in H1.
  destruct (have_loop env fuel _) as [ral|]; [|discriminate].
  destruct (want_loop env fuel _) as [want_ral|]; [|discriminate].
  cbn [mbind option_bind] in H1. injection H1 as <-.
  destruct (add_required_aligns_new ral want_ral (nelements router)
              (mkRewrite router a 0)) as (new1 & E1 & N1).
  cbn [rw_router] in E1.
  (* phase 3 *)
  unfold add_aligns_for_adjustment in H3.
  destruct (have_loop env fuel _) as [ral3|]; [|discriminate].
  cbn [mbind option_bind] in H3. injection H3 as <-.
  match type of H4 with
  | context [add_required_aligns ral3 ?w ?n ?s2] =>
      destruct (add_required_aligns_new ral3 w n s2) as (new3 & E3 & N3)
  end.
  cbn [rw_router] in E3. rewrite remove_duplicate_aligns_elements, E1 in E3.
  (* phase 4 *)
  apply remove_redundant_aligns_elements in H4. rewrite E3 in H4.
  (* phase 6 *)
  unfold make_alignment_info in H6.
  destruct (have_loop env fuel _) as [ral6|]; [|discriminate].
  cbn [mbind option_bind] in H6.
  exists (new1 ++ new3), r4.
  case_bool_decide; injection H6 as <-.
  - exists []. rewrite app_nil_r, <- Hs.
    split; [by rewrite H4, app_assoc|]. split; [by apply Forall_app|].
    split; [done|by left].
  - eexists. split; [by rewrite H4, app_assoc|]. split; [by apply Forall_app|].
    cbn [get_element fst r_elements]. unfold nelements. rewrite <- Hs.
    split; [done|]. right. by eexists.
Qed.

Lemma filter_select_from (P : ElementT -> Prop) `{forall x, Decision (P x)}
    (keep : nat -> bool) (l : list ElementT) i0 :
  (forall j x, l !! j = Some x -> P x -> keep (i0 + j) = true) ->
  filter P (select_from keep i0 l) = filter P l.
Proof.
  revert i0; induction l as [|x l IH]; intros i0 Hk; [done|].
  cbn [select_from].
  assert (filter P (select_from keep (S i0) l) = filter P l) as IH'.
  { apply IH. intros j y Hy Py. specialize (Hk (S j) y Hy Py).
    by replace (i0 + S j) with (S i0 + j) in Hk by lia. }
  specialize (Hk 0 x eq_refl). rewrite Nat.add_0_r in Hk.
  rewrite (filter_cons _ x). destruct (decide (P x)) as [Px|Px].
  - rewrite Hk by done. by rewrite filter_cons, decide_True, IH'.
  - destruct (keep i0); [|done]. by rewrite filter_cons, decide_False, IH'.
Qed.

Lemma select_from_elem (keep : nat -> bool) (l : list ElementT) i0 x :
  x ∈ select_from keep i0 l ->
  exists j, l !! j = Some x /\ keep (i0 + j) = true.
Proof.
  revert i0; induction l as [|y l IH]; intros i0; cbn [select_from].
  - intros H. by apply elem_of_nil in H.
  - assert (x ∈ select_from keep (S i0) l ->
            exists j, (y :: l) !! j = Some x /\ keep (i0 + j) = true) as Hrest.
    { intros H. apply IH in H as (j & Hj & Hkj). exists (S j).
      split; [done|]. by replace (i0 + S j) with (S i0 + j) by lia. }
    destruct (keep i0) eqn:Hk0; [|done].
    intros H. apply elem_of_cons in H as [->|H]; [|by apply Hrest].
    exists 0. by rewrite Nat.add_0_r.
Qed.

Lemma kept_elements_live_no_info r x :
  x ∈ kept_elements r -> e_live x = true /\ e_type x <> "AlignmentInfo".
Proof.
  intros H. apply select_from_elem in H as (j & Hj & Hk). simpl in Hk.
  apply andb_true_iff in Hk as [Hk Hinfo].
  apply andb_true_iff in Hk as [Hlive _].
  unfold element_live in Hlive. rewrite Hj in Hlive. split; [done|].
  intros Ht. apply negb_true_iff in Hinfo.
  unfold old_alignment_info, element_live, is_class, etype_name in Hinfo.
  rewrite Hj, Hlive, Ht in Hinfo. by rewrite bool_decide_true in Hinfo.
Qed.

Lemma filter_none {A} (P : A -> Prop) `{forall x, Decision (P x)} (l : list A) :
  (forall x, x ∈ l -> ~ P x) -> filter P l = [].
Proof.
  induction l as [|x l IH]; intros Hn; [done|].
  rewrite filter_cons, decide_False by (apply Hn; by left).
  apply IH. intros y Hy. apply Hn. by right.
Qed.

(** X21: when [main] comes to its end, the live elements of the router it
    was given that are neither an Align nor an AlignmentInfo are all in the
    router it writes, unchanged and in the same order, and the router it
    writes has no other element that is neither an Align nor an
    AlignmentInfo. *)
Theorem other_elements_untouched (env : AlignEnv) (fuel : nat)
    (router r6 : RouterT) (num_aligns_added : Z) (warned : bool) :
  click_align env fuel router = Some (r6, num_aligns_added, warned) ->
  other_elements r6 = other_elements router.
Proof.
  intros H.
  destruct (click_align_elements _ _ _ _ _ _ H)
    as (new & r4 & tail & E4 & Hnew & E6 & Htail).
  unfold other_elements. rewrite E6, filter_app.
  rewrite (filter_none _ tail).
  2:{ intros x Hx (_ & _ & Hi). destruct Htail as [->|(sa & ->)].
      - by apply elem_of_nil in Hx.
      - by apply list_elem_of_singleton in Hx as ->. }
  rewrite app_nil_r. unfold kept_elements.
  rewrite filter_select_from.
  - rewrite E4, filter_app, (filter_none _ new), app_nil_r; [done|].
    intros x Hx (_ & Ha & _). rewrite Forall_forall in Hnew.
    by destruct (Hnew x Hx).
  - intros j x Hx (Hl & Ha & Hi). simpl.
    unfold unused_align, old_alignment_info, element_live, is_class, etype_name.
    rewrite Hx, Hl. cbn [andb].
    rewrite (bool_decide_false (e_type x = "Align")) by done.
    by rewrite (bool_decide_false (e_type x = "AlignmentInfo")) by done.
Qed.

(** X22: the router [main] writes has live elements only and at most one
    element of class AlignmentInfo: none of those it was given is left, and
    the one phase 6 may add is the last element, named
    [AlignmentInfo@click_align@] followed by the number of elements of the
    router written. *)
Theorem at_most_one_AlignmentInfo (env : AlignEnv) (fuel : nat)
    (router r6 : RouterT) (num_aligns_added : Z) (warned : bool) :
  click_align env fuel router = Some (r6, num_aligns_added, warned) ->
  Forall (fun e => e_live e = true) (r_elements r6)
  /\ length (filter (fun e => e_type e = "AlignmentInfo") (r_elements r6)) <= 1
  /\ forall i e, r_elements r6 !! i = Some e -> e_type e = "AlignmentInfo" ->
       S i = nelements r6
       /\ e_name e = "AlignmentInfo@click_align@"
                     +:+ String_of_int (Z.of_nat (nelements r6)).
Proof.
  intros H.
  destruct (click_align_elements _ _ _ _ _ _ H)
    as (new & r4 & tail & _ & _ & E6 & Htail).
  unfold nelements. rewrite E6.
  assert (filter (fun e => e_type e = "AlignmentInfo") (kept_elements r4) = [])
    as Hnone.
  { apply filter_none. intros x Hx Ht.
    by destruct (kept_elements_live_no_info r4 x Hx). }
  split; [|split].
  - apply Forall_app. split.
    + apply Forall_forall. intros x Hx.
      by destruct (kept_elements_live_no_info r4 x Hx).
    + destruct Htail as [->|(sa & ->)]; [done|]. by repeat constructor.
  - rewrite filter_app, Hnone. simpl.
    destruct Htail as [->|(sa & ->)]; [simpl; lia|].
    rewrite filter_cons, decide_True by done. simpl. lia.
  - intros i e He Ht. apply lookup_app_Some in He as [He|[Hge He]].
    + apply list_elem_of_lookup_2, kept_elements_live_no_info in He. tauto.
    + destruct Htail as [->|(sa & ->)]; [by rewrite lookup_nil in He|].
      apply list_lookup_singleton_Some in He as [Hi <-].
      rewrite length_app. cbn [length e_name]. split; [lia|].
      do 2 f_equal. lia.
Qed.

(** ** The command line *)

(** X23: the loop reads the command line from left to right: the
    arguments that follow the one at which it exits are not looked at, and
    otherwise the rest is read in the state the first part has left. *)
Theorem read_options_app (click_maybe_define : string -> bool)
    (l1 l2 : list (Opt * string)) (o : Options) :
  read_options click_maybe_define (l1 ++ l2) o
  = match read_options click_maybe_define l1 o with
    | Done o' => read_options click_maybe_define l2 o'
    | Exit status printed => Exit status printed
    end.
Proof.
  revert o; induction l1 as [|[opt arg] l1 IH]; intros o; [done|].
  cbn [app read_options].
  destruct opt; try done.
  - destruct (router_file o); [done|apply IH].
  - destruct (router_file o); [done|apply IH].
  - destruct (output_file o); [done|apply IH].
  - destruct (0 <=? specified_driver o)%Z; [done|apply IH].
  - destruct (click_maybe_define arg); [apply IH|].
    destruct (router_file o); [done|apply IH].
Qed.

(** X24: the loop exits with status 0 only for [--help] and [--version],
    having printed the usage or the version and nothing else; every other
    exit has status 1 and ends with the short usage, after at most one
    error message. *)
Theorem read_options_exit (click_maybe_define : string -> bool)
    (args : list (Opt * string)) (o : Options) (status : Z)
    (printed : list Printed) :
  read_options click_maybe_define args o = Exit status printed ->
  (status = 0%Z /\ (printed = [usage] \/ printed = [version]))
  \/ (status = 1%Z
      /\ (printed = [short_usage]
          \/ exists msg, printed = [error msg; short_usage])).
Proof.
  revert o; induction args as [|[opt arg] args IH]; intros o; [discriminate|].
  cbn [read_options].
  destruct opt.
  - intros [= <- <-]. left. split; [done|by left].
  - intros [= <- <-]. left. split; [done|by right].
  - destruct (router_file o); [|apply IH].
    intros [= <- <-]. right. split; [done|]. right. by eexists.
  - destruct (router_file o); [|apply IH].
    intros [= <- <-]. right. split; [done|]. right. by eexists.
  - destruct (output_file o); [|apply IH].
    intros [= <- <-]. right. split; [done|]. right. by eexists.
  - destruct (0 <=? specified_driver o)%Z; [|apply IH].
    intros [= <- <-]. right. split; [done|]. right. by eexists.
  - destruct (click_maybe_define arg); [apply IH|].
    destruct (router_file o); [|apply IH].
    intros [= <- <-]. right. split; [done|]. right. by eexists.
  - intros [= <- <-]. right. split; [done|by left].
Qed.

Lemma times_given_cons set gives a args :
  times_given set gives (a :: args)
  = times_given set gives args + (if gives a then 1 else 0).
Proof. unfold times_given. cbn [List.filter]. destruct (gives a); simpl; lia. Qed.

(** The loop from any state in which the driver, if set, is not negative. *)
Lemma read_options_done md args o0 o :
  (forall a, a ∈ args -> gives_driver a = true -> (0 <= driver_of a)%Z) ->
  read_options md args o0 = Done o
  <-> existsb stops_reading args = false
      /\ times_given (bool_decide (is_Some (router_file o0)))
           (gives_router_file md) args <= 1
      /\ times_given (bool_decide (is_Some (output_file o0)))
           gives_output_file args <= 1
      /\ times_given (0 <=? specified_driver o0)%Z gives_driver args <= 1
      /\ o = options_read md args o0.
Proof.
  revert o0; induction args as [|[opt arg] args IH]; intros o0 Hd.
  - cbn. unfold times_given, options_read. cbn.
    split.
    + intros [= <-]. split; [done|].
      repeat (split; [repeat case_match; simpl; lia|]).
      destruct o0 as [[] ? [] ?]; cbn; by destruct (0 <=? _)%Z.
    + intros (_ & _ & _ & _ & ->). f_equal.
      destruct o0 as [[] ? [] ?]; cbn; by destruct (0 <=? _)%Z.
  - assert (forall a, a ∈ args -> gives_driver a = true -> (0 <= driver_of a)%Z)
      as Hd' by (intros a Ha; apply Hd; by right).
    specialize (fun o1 => IH o1 Hd').
    rewrite !times_given_cons.
    cbn [read_options existsb].
    unfold stops_reading at 1, gives_router_file at 2, gives_output_file at 2,
      gives_driver at 2. cbn [fst snd].
    destruct opt; cbn [orb negb].
    + split; [discriminate|]. by intros [[=] _].
    + split; [discriminate|]. by intros [[=] _].
    + (* ROUTER_OPT *)
      destruct (router_file o0) as [f|] eqn:Hf.
      * split; [discriminate|]. intros (_ & H & _). exfalso.
        rewrite bool_decide_true in H by (by eexists). unfold times_given in H. lia.
      * rewrite IH. cbn [router_file output_file specified_driver file_is_expr].
        unfold options_read, times_given.
        cbn [router_file output_file specified_driver file_is_expr List.filter
             gives_router_file fst snd head fmap option_fmap option_map].
        rewrite Hf. rewrite (bool_decide_true (is_Some (Some arg))) by (by eexists).
        rewrite (bool_decide_false (is_Some None)) by (by intros [? [=]]).
        split; intros (? & ? & ? & ? & ->); repeat (split; [done || lia|]); done.
    + (* EXPRESSION_OPT *)
      destruct (router_file o0) as [f|] eqn:Hf.
      * split; [discriminate|]. intros (_ & H & _). exfalso.
        rewrite bool_decide_true in H by (by eexists). unfold times_given in H. lia.
      * rewrite IH. cbn [router_file output_file specified_driver file_is_expr].
        unfold options_read, times_given.
        cbn [router_file output_file specified_driver file_is_expr List.filter
             gives_router_file fst snd head fmap option_fmap option_map].
        rewrite Hf. rewrite (bool_decide_true (is_Some (Some arg))) by (by eexists).
        rewrite (bool_decide_false (is_Some None)) by (by intros [? [=]]).
        split; intros (? & ? & ? & ? & ->); repeat (split; [done || lia|]); done.
    + (* OUTPUT_OPT *)
      destruct (output_file o0) as [f|] eqn:Hf.
      * split; [discriminate|]. intros (_ & _ & H & _). exfalso.
        rewrite bool_decide_true in H by (by eexists). unfold times_given in H. lia.
      * rewrite IH. cbn [router_file output_file specified_driver file_is_expr].
        unfold options_read, times_given.
        cbn [router_file output_file specified_driver file_is_expr List.filter
             gives_output_file gives_router_file gives_driver
             fst snd head fmap option_fmap option_map].
        rewrite Hf. rewrite (bool_decide_true (is_Some (Some arg))) by (by eexists).
        rewrite (bool_decide_false (is_Some None)) by (by intros [? [=]]).
        split; intros (? & ? & ? & ? & ->); repeat (split; [done || lia|]); done.
    + (* DRIVER_OPT *)
      destruct (0 <=? specified_driver o0)%Z eqn:Hs.
      * split; [discriminate|]. intros (_ & _ & _ & H & _). exfalso.
        unfold times_given in H. lia.
      * assert (0 <= driver)%Z as Hdr
          by (apply (Hd (DRIVER_OPT driver, arg)); [by left|done]).
        rewrite IH. cbn [router_file output_file specified_driver file_is_expr].
        unfold options_read, times_given.
        cbn [router_file output_file specified_driver file_is_expr List.filter
             gives_output_file gives_router_file gives_driver
             fst snd head fmap option_fmap option_map from_option driver_of].
        rewrite Hs. rewrite (proj2 (Z.leb_le 0 driver) Hdr).
        split; intros (? & ? & ? & ? & ->); repeat (split; [done || lia|]); done.
    + (* Clp_NotOption *)
      destruct (md arg) eqn:Hmd; cbn [negb].
      * rewrite IH. unfold options_read.
        cbn [List.filter gives_router_file gives_output_file gives_driver
             fst snd negb]. rewrite Hmd. cbn [negb].
        split; intros (? & ? & ? & ? & ->); repeat (split; [done || lia|]); done.
      * destruct (router_file o0) as [f|] eqn:Hf.
        -- split; [discriminate|]. intros (_ & H & _). exfalso.
           rewrite bool_decide_true in H by (by eexists).
           unfold times_given in H. lia.
        -- rewrite IH. cbn [router_file output_file specified_driver file_is_expr].
           unfold options_read, times_given.
           cbn [router_file output_file specified_driver file_is_expr List.filter
                gives_router_file gives_output_file gives_driver
                fst snd head fmap option_fmap option_map]. rewrite Hmd.
           cbn [negb head fmap option_fmap option_map fst snd].
           rewrite Hf. rewrite (bool_decide_true (is_Some (Some arg))) by (by eexists).
           rewrite (bool_decide_false (is_Some None)) by (by intros [? [=]]).
           split; intros (? & ? & ? & ? & ->); repeat (split; [done || lia|]); done.
    + split; [discriminate|]. by intros [[=] _].
Qed.

(** X25: when no driver option has a negative driver number, the loop
    comes to the label [done] exactly when the command line has no
    [--help], no [--version] and no bad option and gives the router
    configuration, the output file and the driver at most once each; the
    variables then hold what the arguments gave: the router configuration
    is an expression only if it came with [-e], and without a driver option
    [specified_driver] is -1. *)
Theorem command_line_accepted (click_maybe_define : string -> bool)
    (args : list (Opt * string)) (o : Options) :
  (forall a, a ∈ args -> gives_driver a = true -> (0 <= driver_of a)%Z) ->
  read_options click_maybe_define args Options_initial = Done o
  <-> existsb stops_reading args = false
      /\ length (List.filter (gives_router_file click_maybe_define) args) <= 1
      /\ length (List.filter gives_output_file args) <= 1
      /\ length (List.filter gives_driver args) <= 1
      /\ o = mkOptions
               (snd <$> head (List.filter (gives_router_file click_maybe_define) args))
               (bool_decide
                  (fst <$> head (List.filter (gives_router_file click_maybe_define) args)
                   = Some EXPRESSION_OPT))
               (snd <$> head (List.filter gives_output_file args))
               (from_option driver_of (-1)%Z
                  (head (List.filter gives_driver args))).
Proof.
  intros Hd. rewrite (read_options_done _ _ _ _ Hd).
  unfold times_given, options_read, Options_initial.
  cbn [router_file output_file specified_driver file_is_expr].
  rewrite (bool_decide_false (is_Some None)) by (by intros [? [=]]).
  change (0 <=? -1)%Z with false. cbn [Nat.add].
  assert (match head (List.filter (gives_router_file click_maybe_define) args) with
          | Some a => bool_decide (a.1 = EXPRESSION_OPT)
          | None => false
          end
          = bool_decide
              (fst <$> head (List.filter (gives_router_file click_maybe_define) args)
               = Some EXPRESSION_OPT)) as ->; [|done].
  destruct (head _) as [[opt arg]|]; cbn.
  - apply bool_decide_ext. split; [by intros ->|by intros [= ->]].
  - by rewrite bool_decide_false.
Qed.

(** ** The driver *)

Lemma driver_mask_bits (driver_compatible : Z -> bool) (n : nat) (m0 : Z)
    (d : nat) :
  Z.testbit
    (foldl (fun driver_mask d =>
              if driver_compatible (Z.of_nat d)
              then Z.lor driver_mask (Z.shiftl 1 (Z.of_nat d))
              else driver_mask)
       m0 (seq 0 n))
    (Z.of_nat d)
  = Z.testbit m0 (Z.of_nat d)
    || (bool_decide (d < n) && driver_compatible (Z.of_nat d)).
Proof.
  induction n as [|n IH].
  - simpl. by rewrite orb_false_r.
  - rewrite seq_S, foldl_app. cbn [foldl]. change (0 + n) with n.
    assert (Z.testbit (Z.shiftl 1 (Z.of_nat n)) (Z.of_nat d)
            = bool_decide (d = n)) as Hbit.
    { rewrite Z.shiftl_1_l, Z.pow2_bits_eqb by lia.
      destruct (decide (d = n)) as [->|Hne].
      - by rewrite Z.eqb_refl, bool_decide_true.
      - rewrite bool_decide_false by done. apply Z.eqb_neq. lia. }
    destruct (driver_compatible (Z.of_nat n)) eqn:Hc.
    + rewrite Z.lor_spec, IH, Hbit.
      destruct (decide (d = n)) as [->|Hne].
      * rewrite Hc, (bool_decide_true (n < S n)), (bool_decide_true (n = n))
          by (done || lia).
        by rewrite !orb_true_r.
      * rewrite (bool_decide_false (d = n)), orb_false_r by done.
        do 2 f_equal. apply bool_decide_ext. lia.
    + rewrite IH. destruct (decide (d = n)) as [->|Hne].
      * by rewrite Hc, !andb_false_r.
      * do 2 f_equal. apply bool_decide_ext. lia.
Qed.

(** X26: when a driver was named on the command line, the driver mask is
    set to the one bit of that driver, whether the configuration is
    compatible with it or not (this only decides the warning); otherwise
    the mask is set, without warning, to the bits of exactly the drivers
    below [Driver::COUNT] the configuration is compatible with, unless there
    is none: then the warning is given and the mask is not set. *)
Theorem decide_driver_mask (COUNT : nat) (driver_compatible : Z -> bool)
    (specified_driver : Z) :
  ((0 <= specified_driver)%Z ->
   (decide_driver COUNT driver_compatible specified_driver).2
   = Some (2 ^ specified_driver)%Z
   /\ ((decide_driver COUNT driver_compatible specified_driver).1 = []
       <-> driver_compatible specified_driver = true))
  /\ ((specified_driver < 0)%Z ->
      match decide_driver COUNT driver_compatible specified_driver with
      | (warnings, Some driver_mask) =>
          warnings = []
          /\ (exists d, d < COUNT /\ driver_compatible (Z.of_nat d) = true)
          /\ forall d : nat,
               Z.testbit driver_mask (Z.of_nat d)
               = bool_decide (d < COUNT) && driver_compatible (Z.of_nat d)
      | (warnings, None) =>
          warnings = [not_compatible_with_any]
          /\ forall d, d < COUNT -> driver_compatible (Z.of_nat d) = false
      end).
Proof.
  unfold decide_driver. split; intros Hs.
  - rewrite (proj2 (Z.leb_le _ _) Hs). cbn [fst snd].
    split; [by rewrite Z.shiftl_1_l|].
    by destruct (driver_compatible specified_driver).
  - rewrite (proj2 (Z.leb_gt _ _) Hs).
    set (m := foldl _ 0%Z (seq 0 COUNT)).
    assert (forall d : nat,
              Z.testbit m (Z.of_nat d)
              = bool_decide (d < COUNT) && driver_compatible (Z.of_nat d)) as Hbits.
    { intros d. subst m. rewrite driver_mask_bits. by rewrite Z.bits_0. }
    destruct (m =? 0)%Z eqn:Hm.
    + apply Z.eqb_eq in Hm. split; [done|]. intros d Hd.
      specialize (Hbits d). rewrite Hm, Z.bits_0, bool_decide_true in Hbits by done.
      by destruct (driver_compatible (Z.of_nat d)).
    + apply Z.eqb_neq in Hm. split; [done|]. split; [|done].
      destruct (decide (Exists (fun d => driver_compatible (Z.of_nat d) = true)
                          (seq 0 COUNT))) as [Hex|Hno].
      * apply Exists_exists in Hex as (d & Hd & Hc). apply elem_of_seq in Hd.
        exists d. split; [lia|done].
      * exfalso. apply Hm. apply Z.bits_inj'. intros k Hk.
        rewrite Z.bits_0, <- (Z2Nat.id k Hk), Hbits.
        destruct (decide (Z.to_nat k < COUNT)) as [Hlt|Hge].
        -- rewrite bool_decide_true by done. cbn.
           apply not_true_is_false. intros Hc. apply Hno, Exists_exists.
           exists (Z.to_nat k). split; [apply elem_of_seq; lia|done].
        -- by rewrite bool_decide_false.
Qed.

(** ** The further properties on the example configurations *)

Lemma RouterAlign_new_vectors_witness :
  int_at (_ioffset (RouterAlign_new example_env source_to_classifier)) 2
  = int_at (_ioffset (RouterAlign_new example_env source_to_classifier)) 1
    + ninputs source_to_classifier 1.
Proof.
  destruct (RouterAlign_new_vectors example_env source_to_classifier)
    as (_ & _ & H & _).
  apply (H 1). vm_compute. lia.
Defined.

Lemma index_of_port_witness :
  2 < nelements source_to_classifier
  /\ 0 < ninputs source_to_classifier 2
  /\ iindex_eindex (RouterAlign_new example_env source_to_classifier)
       (Z.of_nat
          (int_at (_ioffset (RouterAlign_new example_env source_to_classifier)) 2
           + 0)) = 2%Z
  /\ iindex_port (RouterAlign_new example_env source_to_classifier)
       (Z.of_nat
          (int_at (_ioffset (RouterAlign_new example_env source_to_classifier)) 2
           + 0)) = 0%Z.
Proof.
  assert (2 < nelements source_to_classifier) as H1 by (vm_compute; lia).
  assert (0 < ninputs source_to_classifier 2) as H2 by (vm_compute; lia).
  split; [done|]. split; [done|].
  destruct (index_of_port example_env source_to_classifier 2 0 H1) as [Hin _].
  exact (Hin H2).
Defined.

Lemma index_below_zero_witness :
  iindex_eindex (RouterAlign_new example_env source_to_host) (-1) = 0%Z
  /\ iindex_port (RouterAlign_new example_env source_to_host) (-1) = (-1)%Z
  /\ oindex_eindex (RouterAlign_new example_env source_to_host) (-1) = 0%Z
  /\ oindex_port (RouterAlign_new example_env source_to_host) (-1) = (-1)%Z.
Proof.
  destruct (index_below_zero example_env source_to_host (-1) ltac:(lia))
    as [H _].
  apply H. vm_compute. lia.
Defined.

Lemma have_input_joins_sources_witness :
  let ral := have_output example_env (RouterAlign_new example_env fan_of_aligns) in
  align_at (_ialign (have_input ral).2) (int_at (_ioffset ral) 2 + 0)
  = mkAlignment 4 0.
Proof.
  intros ral. eapply eq_trans.
  - apply (have_input_joins_sources example_env fan_of_aligns ral (mkPortT 2 0)).
    + apply RouterT_wf_check. vm_compute. reflexivity.
    + apply have_output_shape.
    + vm_compute. lia.
    + vm_compute. lia.
  - vm_compute. reflexivity.
Defined.

Lemma want_output_meets_targets_witness :
  let ral := want_input example_env (RouterAlign_new example_env source_to_host) in
  align_at (_oalign (want_output ral).2) (int_at (_ooffset ral) 0 + 0)
  = mkAlignment 4 2.
Proof.
  intros ral. eapply eq_trans.
  - apply (want_output_meets_targets example_env source_to_host ral (mkPortT 0 0)).
    + apply RouterT_wf_check. vm_compute. reflexivity.
    + apply want_input_shape.
    + vm_compute. lia.
    + vm_compute. lia.
  - vm_compute. reflexivity.
Defined.

Lemma have_output_slice_witness :
  let ral := RouterAlign_new example_env source_to_host in
  _oalign (have_output example_env ral) !! (int_at (_ooffset ral) 0 + 0)
  = Some (mkAlignment 4 0).
Proof.
  intros ral. eapply eq_trans.
  - apply (have_output_slice example_env source_to_host ral 0
             (element "src" "InfiniteSource" EmptyString) 0).
    + apply same_shape_refl.
    + reflexivity.
    + reflexivity.
    + vm_compute. lia.
    + vm_compute. lia.
  - vm_compute. reflexivity.
Defined.

Lemma want_input_slice_witness :
  let ral := RouterAlign_new example_env source_to_host in
  _ialign (want_input example_env ral) !! (int_at (_ioffset ral) 1 + 0)
  = Some (mkAlignment 4 2).
Proof.
  intros ral. eapply eq_trans.
  - apply (want_input_slice example_env source_to_host ral 1
             (element "dst" "ToHost" EmptyString) 0).
    + apply same_shape_refl.
    + reflexivity.
    + reflexivity.
    + vm_compute. lia.
    + vm_compute. lia.
  - vm_compute. reflexivity.
Defined.

Lemma adjust_slice_witness :
  let ral := have_of source_to_classifier in
  _ialign (adjust ral) !! (int_at (_ioffset ral) 1 + 0) = Some (mkAlignment 4 0).
Proof.
  intros ral. eapply eq_trans.
  - apply (adjust_slice example_env source_to_classifier ral 1
             (element "cl" "Classifier" "12/0800") 0).
    + apply (have_loop_shape example_env 10).
      apply have_of_converged. vm_compute. reflexivity.
    + reflexivity.
    + reflexivity.
    + vm_compute. lia.
    + vm_compute. lia.
  - vm_compute. reflexivity.
Defined.

Lemma flat_indices_in_bounds_witness :
  let ral := RouterAlign_new example_env fan_of_aligns in
  ioff ral (connection 2 0 4 0) < length (_ialign ral)
  /\ ooff ral (connection 2 0 4 0) < length (_oalign ral).
Proof.
  intros ral.
  destruct (flat_indices_in_bounds example_env fan_of_aligns ral) as [H _].
  - apply RouterT_wf_check. vm_compute. reflexivity.
  - apply same_shape_refl.
  - destruct (H (connection 2 0 4 0)) as (_ & _ & Hi & Ho); [|done|by split].
    by apply (list_elem_of_lookup_2 _ 3).
Defined.

Lemma loops_end_stable_witness :
  have_loop example_env 10 (RouterAlign_new example_env source_to_host)
  = Some (have_of source_to_host)
  /\ forward_pass example_env (have_of source_to_host)
     = (false, have_of source_to_host).
Proof.
  assert (have_loop example_env 10 (RouterAlign_new example_env source_to_host)
          = Some (have_of source_to_host)) as E
    by (apply have_of_converged; vm_compute; reflexivity).
  split; [done|].
  destruct (loops_end_stable example_env 10
              (RouterAlign_new example_env source_to_host)
              (have_of source_to_host)) as [H _].
  by destruct (H E) as (_ & Hs & _).
Defined.

Lemma fixed_alignment_classes_witness :
  let ral := RouterAlign_new example_env device_encap_host in
  _oalign (have_output example_env ral) !! (int_at (_ooffset ral) 0 + 0)
  = Some (mkAlignment 4 2).
Proof.
  intros ral.
  destruct (fixed_alignment_classes example_env device_encap_host ral 0
              (element "fd" "FromDevice" "eth0") 0) as [H _].
  - apply same_shape_refl.
  - reflexivity.
  - reflexivity.
  - destruct H as [H _]; [vm_compute; lia|]. apply H.
    apply list_elem_of_here.
Defined.

Lemma anonymizer_loop_finds_unused_name_witness :
  exists a', skip_used_names 5 named_like_an_aligner 6 = Some a'
    /\ (6 <= a' <= 6 + Z.of_nat (nelements named_like_an_aligner))%Z
    /\ eindex named_like_an_aligner (aligner_name a') = (-1)%Z
    /\ forall k, (6 <= k < a')%Z ->
         (0 <= eindex named_like_an_aligner (aligner_name k))%Z.
Proof.
  apply (anonymizer_loop_finds_unused_name named_like_an_aligner 6 5).
  vm_compute. lia.
Defined.

Lemma settled_Some r :
  ended (remove_redundant_aligns example_env 10 10 r) = true ->
  remove_redundant_aligns example_env 10 10 r = Some (settled r).
Proof.
  unfold settled. by destruct (remove_redundant_aligns example_env 10 10 r).
Qed.

Lemma written_Some r :
  ended (click_align example_env 10 r) = true ->
  click_align example_env 10 r = Some (written r).
Proof. unfold written. by destruct (click_align example_env 10 r). Qed.

Lemma redundant_aligns_bypassed_witness :
  remove_redundant_aligns example_env 10 10 fan_of_aligns
  = Some (settled fan_of_aligns)
  /\ r_elements (settled fan_of_aligns) = r_elements fan_of_aligns
  /\ (exists old added,
        r_conn (settled fan_of_aligns) = old ++ added
        /\ Forall2 killed_or_kept (r_conn fan_of_aligns) old)
  /\ Forall (joins_ports_of fan_of_aligns) (r_conn (settled fan_of_aligns)).
Proof.
  assert (remove_redundant_aligns example_env 10 10 fan_of_aligns
          = Some (settled fan_of_aligns)) as E
    by (apply settled_Some; vm_compute; reflexivity).
  split; [done|].
  exact (redundant_aligns_bypassed example_env 10 10 fan_of_aligns _ E).
Defined.

Lemma no_redundant_align_left_witness :
  remove_redundant_aligns example_env 10 10 fan_of_aligns
  = Some (settled fan_of_aligns)
  /\ r_conn (settled fan_of_aligns) !! 2 = Some (connection 2 0 3 0)
  /\ exists ral have own,
       have_loop example_env 10 (RouterAlign_new example_env (settled fan_of_aligns))
       = Some ral
       /\ redundant ral (settled fan_of_aligns) (connection 2 0 3 0) = Some false
       /\ _oalign ral !! ooff ral (connection 2 0 3 0) = Some have
       /\ _oalign ral !! (int_at (_ooffset ral) 3 + 0) = Some own
       /\ compatible have own = false.
Proof.
  assert (remove_redundant_aligns example_env 10 10 fan_of_aligns
          = Some (settled fan_of_aligns)) as E
    by (apply settled_Some; vm_compute; reflexivity).
  assert (r_conn (settled fan_of_aligns) !! 2 = Some (connection 2 0 3 0)) as Hc
    by (vm_compute; reflexivity).
  split; [exact E|]. split; [exact Hc|].
  destruct (no_redundant_align_left example_env 10 10 fan_of_aligns _ E)
    as (ral & Hral & Hno & Hown).
  destruct (Hown (connection 2 0 3 0) (list_elem_of_lookup_2 _ _ _ Hc) eq_refl
              ltac:(vm_compute; reflexivity) ltac:(vm_compute; lia))
    as (have & own & Hhave & Hown' & Hcompat).
  exists ral, have, own. split; [exact Hral|].
  split; [exact (Hno _ (list_elem_of_lookup_2 _ _ _ Hc))|].
  split; [exact Hhave|]. split; [exact Hown'|exact Hcompat].
Defined.

Lemma other_elements_untouched_witness :
  click_align example_env 10 source_to_classifier
  = Some (written source_to_classifier)
  /\ other_elements (written source_to_classifier).1.1
     = other_elements source_to_classifier.
Proof.
  assert (click_align example_env 10 source_to_classifier
          = Some (written source_to_classifier)) as E
    by (apply written_Some; vm_compute; reflexivity).
  split; [done|]. revert E.
  destruct (written source_to_classifier) as [[r6 n] w]. intros E.
  exact (other_elements_untouched example_env 10 source_to_classifier r6 n w E).
Defined.

Lemma at_most_one_AlignmentInfo_witness :
  click_align example_env 10 source_to_classifier
  = Some (written source_to_classifier)
  /\ Forall (fun e => e_live e = true)
       (r_elements (written source_to_classifier).1.1)
  /\ length (filter (fun e => e_type e = "AlignmentInfo")
               (r_elements (written source_to_classifier).1.1)) <= 1
  /\ forall i e,
       r_elements (written source_to_classifier).1.1 !! i = Some e ->
       e_type e = "AlignmentInfo" ->
       S i = nelements (written source_to_classifier).1.1
       /\ e_name e
          = "AlignmentInfo@click_align@"
            +:+ String_of_int
                  (Z.of_nat (nelements (written source_to_classifier).1.1)).
Proof.
  assert (click_align example_env 10 source_to_classifier
          = Some (written source_to_classifier)) as E
    by (apply written_Some; vm_compute; reflexivity).
  split; [done|]. revert E.
  destruct (written source_to_classifier) as [[r6 n] w]. intros E.
  exact (at_most_one_AlignmentInfo example_env 10 source_to_classifier r6 n w E).
Defined.

Lemma read_options_exit_witness :
  read_options (fun _ => false)
    [(ROUTER_OPT, "a.click"); (EXPRESSION_OPT, "b :: Idle")] Options_initial
  = Exit 1 [error "router configuration specified twice"; short_usage]
  /\ ((1%Z = 0%Z
       /\ ([error "router configuration specified twice"; short_usage] = [usage]
           \/ [error "router configuration specified twice"; short_usage]
              = [version]))
      \/ (1%Z = 1%Z
          /\ ([error "router configuration specified twice"; short_usage]
              = [short_usage]
              \/ exists msg,
                   [error "router configuration specified twice"; short_usage]
                   = [error msg; short_usage]))).
Proof.
  assert (read_options (fun _ => false)
            [(ROUTER_OPT, "a.click"); (EXPRESSION_OPT, "b :: Idle")]
            Options_initial
          = Exit 1 [error "router configuration specified twice"; short_usage])
    as E by reflexivity.
  split; [done|]. exact (read_options_exit _ _ _ _ _ E).
Defined.

Lemma command_line_accepted_witness :
  read_options (fun _ => false)
    [(OUTPUT_OPT, "out.click"); (EXPRESSION_OPT, "b :: Idle");
     (DRIVER_OPT 0, EmptyString)]
    Options_initial
  = Done (mkOptions (Some "b :: Idle") true (Some "out.click") 0).
Proof.
  apply (command_line_accepted (fun _ => false)).
  - intros a Ha Hd.
    apply list_elem_of_In in Ha. simpl in Ha.
    destruct Ha as [<-|[<-|[<-|[]]]]; try discriminate Hd. cbn. lia.
  - cbn. repeat split; lia.
Defined.

Lemma decide_driver_mask_witness :
  match decide_driver 3 (fun d => (d =? 0)%Z || (d =? 1)%Z) (-1) with
  | (warnings, Some driver_mask) =>
      warnings = []
      /\ (exists d, d < 3 /\ ((Z.of_nat d =? 0)%Z || (Z.of_nat d =? 1)%Z) = true)
      /\ forall d : nat,
           Z.testbit driver_mask (Z.of_nat d)
           = bool_decide (d < 3) && ((Z.of_nat d =? 0)%Z || (Z.of_nat d =? 1)%Z)
  | (warnings, None) =>
      warnings = [not_compatible_with_any]
      /\ forall d, d < 3 -> ((Z.of_nat d =? 0)%Z || (Z.of_nat d =? 1)%Z) = false
  end.
Proof.
  destruct (decide_driver_mask 3 (fun d => (d =? 0)%Z || (d =? 1)%Z) (-1))
    as [_ H].
  apply H. lia.
Defined.
